(** * Tower Trek: the grid, path-finding and pursuit engine of [tower_trek.py]

    A shallow embedding of the classes [Cell], [Grid] and of the pursuit rule
    [TowerTrek.move_ai], followed by the properties of the specification.

    Conventions of the embedding:
    - a position is a pair of Python integers, here [Z * Z];
    - [self.cells] is a list of columns, each a list of [Cell] records, read
      and written with Python's indexing rules ([py_index]);
    - Python sets and dicts are [gset] and [gmap];
    - a computation that may raise, or whose loop needs fuel in the model,
      returns a [result];
    - the two uses of the module [random] take their raw draws as arguments. *)

From Stdlib Require Import ZArith SpecFloat.
From stdpp Require Import gmap list.

Open Scope Z_scope.

#[local] Set Warnings "-clear-no-such-hyp".


(** ** Results of computations *)

Inductive exn := IndexError | KeyError | ValueError | OverflowError.

Inductive result (A : Type) : Type :=
  | Ok (a : A)
  | Raise (e : exn)
  | OutOfFuel.
Arguments Ok {A} a.
Arguments Raise {A} e.
Arguments OutOfFuel {A}.

#[global] Instance result_ret : MRet result := λ A a, Ok a.
#[global] Instance result_bind : MBind result := λ A B f m,
  match m with
  | Ok a => f a
  | Raise e => Raise e
  | OutOfFuel => OutOfFuel
  end.

(** [for x in l: st = body st x], where the body may raise. *)
Fixpoint for_each {S A : Type} (body : S → A → result S) (st : S) (l : list A)
  : result S :=
  match l with
  | [] => Ok st
  | a :: l' => st' ← body st a; for_each body st' l'
  end.

(** ** Python lists *)

Definition py_norm {A} (l : list A) (i : Z) : Z :=
  if i <? 0 then i + Z.of_nat (length l) else i.

(** [l[i]]: a negative index counts from the end, an index out of range raises. *)
Definition py_index {A} (l : list A) (i : Z) : result A :=
  let j := py_norm l i in
  if (j <? 0) || (Z.of_nat (length l) <=? j) then Raise IndexError
  else match l !! Z.to_nat j with
       | Some a => Ok a
       | None => Raise IndexError
       end.

(** [l[i] = v], once [l[i]] is known to exist. *)
Definition py_store {A} (l : list A) (i : Z) (v : A) : list A :=
  <[Z.to_nat (py_norm l i) := v]> l.

(** [range(n)] *)
Definition range (n : Z) : list Z := seqZ 0 n.

(** ** Data model *)

Abbreviation pos := (Z * Z)%type.

Inductive GameState := MENU | PLAYING | GAME_OVER | LEVEL_COMPLETE.
Inductive Difficulty := EASY | MEDIUM | HARD.

#[global] Instance GameState_eq_dec : EqDecision GameState.
Proof. solve_decision. Defined.
#[global] Instance Difficulty_eq_dec : EqDecision Difficulty.
Proof. solve_decision. Defined.

(** class Cell; the coordinates are the fields [x] and [y] of the source. *)
Record Cell := mkCell {
  cell_x : Z;
  cell_y : Z;
  is_obstacle : bool;
  is_goal : bool;
  is_start : bool
}.

Definition get_pos (c : Cell) : pos := (cell_x c, cell_y c).

Definition set_is_obstacle (b : bool) (c : Cell) : Cell :=
  mkCell (cell_x c) (cell_y c) b (is_goal c) (is_start c).
Definition set_is_goal (b : bool) (c : Cell) : Cell :=
  mkCell (cell_x c) (cell_y c) (is_obstacle c) b (is_start c).
Definition set_is_start (b : bool) (c : Cell) : Cell :=
  mkCell (cell_x c) (cell_y c) (is_obstacle c) (is_goal c) b.

(** class Grid *)
Record Grid := mkGrid {
  width : Z;
  height : Z;
  difficulty : Difficulty;
  cells : list (list Cell);
  player_pos : pos;
  ai_pos : pos;
  goal_pos : pos
}.

Definition with_cells (g : Grid) (cs : list (list Cell)) : Grid :=
  mkGrid (width g) (height g) (difficulty g) cs
         (player_pos g) (ai_pos g) (goal_pos g).

Definition with_ai_pos (g : Grid) (p : pos) : Grid :=
  mkGrid (width g) (height g) (difficulty g) (cells g)
         (player_pos g) p (goal_pos g).

(** [cells[x][y]] *)
Definition read_cell (cs : list (list Cell)) (x y : Z) : result Cell :=
  col ← py_index cs x; py_index col y.

(** [cells[x][y].field = v], written as the update [f] of the cell. *)
Definition update_cell (cs : list (list Cell)) (x y : Z) (f : Cell → Cell)
  : result (list (list Cell)) :=
  col ← py_index cs x;
  c ← py_index col y;
  Ok (py_store cs x (py_store col y (f c))).

(** ** Grid.is_valid_move and Grid.get_neighbors *)

(** The read of [cells[x][y]] comes after the bounds test; on a grid whose
    [cells] has [width] columns of [height] cells (every grid built by the
    constructor, see [Grid_init_shape]) it cannot raise, and the last branch
    is dead code there. *)
Definition is_valid_move (g : Grid) (p : pos) : bool :=
  let '(x, y) := p in
  if (x <? 0) || (x >=? width g) || (y <? 0) || (y >=? height g) then false
  else match read_cell (cells g) x y with
       | Ok c => if is_obstacle c then false else true
       | _ => false
       end.

Arguments is_valid_move : simpl never.

(** Up, Right, Down, Left *)
Definition directions : list pos := [(0, -1); (1, 0); (0, 1); (-1, 0)].

Definition get_neighbors (g : Grid) (p : pos) : list pos :=
  let '(x, y) := p in
  foldl (λ neighbors d,
           let '(dx, dy) := d in
           let new := (x + dx, y + dy) in
           if is_valid_move g new then neighbors ++ [new] else neighbors)
        [] directions.

(** Manhattan distance *)
Definition heuristic (a b : pos) : Z :=
  Z.abs (a.1 - b.1) + Z.abs (a.2 - b.2).

(** ** Grid.is_path_exists: breadth-first search *)

(** Every loop of the two searches runs at most once per position that can be
    discovered, the start or a cell of the grid; the model gives each of them
    this many iterations ([is_path_exists_returns] and [find_path_returns]
    show that it is never short). *)
Definition search_fuel (g : Grid) : nat := Z.to_nat (width g * height g) + 2.

(** The body of [for neighbor in self.get_neighbors(current)]. *)
Definition bfs_visit (st : gset pos * list pos) (neighbor : pos)
  : gset pos * list pos :=
  let '(visited, queue) := st in
  if decide (neighbor ∈ visited) then st
  else ({[neighbor]} ∪ visited, queue ++ [neighbor]).

(** [while queue: ...] *)
Fixpoint bfs_loop (fuel : nat) (g : Grid) (end_ : pos)
    (visited : gset pos) (queue : list pos) : result bool :=
  match fuel with
  | O => OutOfFuel
  | S fuel' =>
    match queue with
    | [] => Ok false
    | current :: queue' =>
      if decide (current = end_) then Ok true
      else
        let '(visited', queue'') :=
          foldl bfs_visit (visited, queue') (get_neighbors g current) in
        bfs_loop fuel' g end_ visited' queue''
    end
  end.

Definition is_path_exists (g : Grid) (start end_ : pos) : result bool :=
  if decide (start = end_) then Ok true
  else bfs_loop (search_fuel g) g end_ {[start]} [start].

(** ** heapq on tuples [(f_score, position)]

    The module [heapq] is modelled by its contract: the heap holds the pushed
    items, and [heappop] removes and returns the least of them. Python orders
    the tuples [(f, (x, y))] lexicographically: by [f], then [x], then [y].
    The list keeps the items in the order of their insertion. *)

Definition entry_ltb (a b : Z * pos) : bool :=
  (a.1 <? b.1) ||
  ((a.1 =? b.1) &&
   ((a.2.1 <? b.2.1) || ((a.2.1 =? b.2.1) && (a.2.2 <? b.2.2)))).

Definition heappush (heap : list (Z * pos)) (item : Z * pos) : list (Z * pos) :=
  heap ++ [item].

Fixpoint heap_min (m : Z * pos) (heap : list (Z * pos)) : Z * pos :=
  match heap with
  | [] => m
  | item :: heap' => heap_min (if entry_ltb item m then item else m) heap'
  end.

Fixpoint remove_first (m : Z * pos) (heap : list (Z * pos)) : list (Z * pos) :=
  match heap with
  | [] => []
  | item :: heap' =>
    if decide (item = m) then heap' else item :: remove_first m heap'
  end.

(** [None] on the empty heap, which the loop tests before it pops. *)
Definition heappop (heap : list (Z * pos))
  : option ((Z * pos) * list (Z * pos)) :=
  match heap with
  | [] => None
  | item :: heap' =>
    let m := heap_min item heap' in Some (m, remove_first m heap)
  end.

(** ** Grid.find_path: A* *)

Record AStar := mkAStar {
  open_set : list (Z * pos);
  closed_set : gset pos;
  came_from : gmap pos pos;
  g_score : gmap pos Z;
  f_score : gmap pos Z
}.

(** [d[k]] *)
Definition dict_get {V} (d : gmap pos V) (k : pos) : result V :=
  match d !! k with
  | Some v => Ok v
  | None => Raise KeyError
  end.

(** The body of [for neighbor in self.get_neighbors(current)]. *)
Definition relax (end_ current : pos) (st : AStar) (neighbor : pos)
  : result AStar :=
  if decide (neighbor ∈ closed_set st) then Ok st
  else
    g_current ← dict_get (g_score st) current;
    let tentative_g_score := g_current + 1 in
    let better :=
      match g_score st !! neighbor with
      | None => true
      | Some g_neighbor => tentative_g_score <? g_neighbor
      end in
    if better then
      let came_from' := <[neighbor := current]> (came_from st) in
      let g_score' := <[neighbor := tentative_g_score]> (g_score st) in
      g_neighbor ← dict_get g_score' neighbor;
      let f_score' :=
        <[neighbor := g_neighbor + heuristic neighbor end_]> (f_score st) in
      f_neighbor ← dict_get f_score' neighbor;
      let open_set' :=
        if decide (neighbor ∈ (snd <$> open_set st)) then open_set st
        else heappush (open_set st) (f_neighbor, neighbor) in
      Ok (mkAStar open_set' (closed_set st) came_from' g_score' f_score')
    else Ok st.

(** [while current in came_from: path.append(current); current = came_from[current]]
    followed by [path.reverse()]. *)
Fixpoint reconstruct_path (fuel : nat) (came_from : gmap pos pos)
    (current : pos) (path : list pos) : result (list pos) :=
  match fuel with
  | O => OutOfFuel
  | S fuel' =>
    match came_from !! current with
    | Some previous =>
      reconstruct_path fuel' came_from previous (path ++ [current])
    | None => Ok (reverse path)
    end
  end.

(** [while open_set: ...] *)
Fixpoint astar_loop (fuel : nat) (g : Grid) (end_ : pos) (st : AStar)
  : result (list pos) :=
  match fuel with
  | O => OutOfFuel
  | S fuel' =>
    match heappop (open_set st) with
    | None => Ok []
    | Some ((_, current), open_set') =>
      if decide (current = end_) then
        reconstruct_path (search_fuel g) (came_from st) current []
      else
        let st1 := mkAStar open_set' ({[current]} ∪ closed_set st)
                           (came_from st) (g_score st) (f_score st) in
        st2 ← for_each (relax end_ current) st1 (get_neighbors g current);
        astar_loop fuel' g end_ st2
    end
  end.

Definition astar_init (start end_ : pos) : AStar :=
  mkAStar (heappush [] (0, start)) ∅ ∅
          {[start := 0]} {[start := heuristic start end_]}.

Definition find_path (g : Grid) (start end_ : pos) : result (list pos) :=
  if decide (start = end_) then Ok [start]
  else astar_loop (search_fuel g) g end_ (astar_init start end_).

(** ** Grid.__init__ and Grid.generate_grid *)

(** Python floats are IEEE 754 binary64 numbers. *)
Definition float_of_int (n : Z) : spec_float := binary_normalize 53 1024 n 0 false.
Definition float_mul : spec_float → spec_float → spec_float := SFmul 53 1024.

(** [int(f)] truncates towards zero. *)
Definition int_of_float (f : spec_float) : result Z :=
  match f with
  | S754_zero _ => Ok 0
  | S754_finite s m e =>
    let v := if 0 <=? e then Z.pos m * 2 ^ e else Z.pos m / 2 ^ (- e) in
    Ok (if s then - v else v)
  | S754_infinity _ => Raise OverflowError
  | S754_nan => Raise ValueError
  end.

(** The literals 0.15, 0.25 and 0.35 as binary64 numbers. *)
Definition obstacle_percentage (d : Difficulty) : spec_float :=
  match d with
  | EASY => S754_finite false 5404319552844595 (-55)
  | MEDIUM => S754_finite false 4503599627370496 (-54)
  | HARD => S754_finite false 6305039478318694 (-54)
  end.

(** [random.randint(a, b)], from the raw draw [r]. *)
Definition randint (a b : Z) (r : nat) : result Z :=
  if b <? a then Raise ValueError
  else Ok (a + Z.of_nat r mod (b - a + 1)).

(** [random.choice(l)], from the raw draw [r]. *)
Definition choice {A} (r : nat) (l : list A) : result A :=
  match l !! (r mod length l)%nat with
  | Some a => Ok a
  | None => Raise IndexError
  end.

(** [while obstacles_placed < num_obstacles: ...]; an iteration takes two
    draws, and the loop is out of fuel when the draws are used up. *)
Fixpoint place_obstacles (draws : list nat) (g : Grid)
    (obstacles_placed num_obstacles : Z) : result Grid :=
  if obstacles_placed <? num_obstacles then
    match draws with
    | rx :: ry :: draws' =>
      x ← randint 0 (width g - 1) rx;
      y ← randint 0 (height g - 1) ry;
      if bool_decide ((x, y) = (0, 0) ∨ (x, y) = (width g - 1, 0) ∨
                      (x, y) = player_pos g ∨ (x, y) = ai_pos g)
      then place_obstacles draws' g obstacles_placed num_obstacles
      else
        c ← read_cell (cells g) x y;
        if is_obstacle c
        then place_obstacles draws' g obstacles_placed num_obstacles
        else
          cs1 ← update_cell (cells g) x y (set_is_obstacle true);
          let g1 := with_cells g cs1 in
          reachable ← is_path_exists g1 (player_pos g1) (goal_pos g1);
          if negb reachable then
            cs2 ← update_cell (cells g1) x y (set_is_obstacle false);
            place_obstacles draws' (with_cells g1 cs2)
                            obstacles_placed num_obstacles
          else place_obstacles draws' g1 (obstacles_placed + 1) num_obstacles
    | _ => OutOfFuel
    end
  else Ok g.

Definition generate_grid (draws : list nat) (g : Grid) : result Grid :=
  cs1 ← update_cell (cells g) 0 0 (set_is_start true);
  cs2 ← update_cell cs1 (width g - 1) 0 (set_is_goal true);
  let g1 := mkGrid (width g) (height g) (difficulty g) cs2
                   (0, height g - 1) (width g - 1, height g - 1)
                   (width g - 1, 0) in
  num_obstacles ← int_of_float
    (float_mul (float_of_int (width g * height g))
               (obstacle_percentage (difficulty g)));
  place_obstacles draws g1 0 num_obstacles.

(** [[[Cell(x, y) for y in range(height)] for x in range(width)]] *)
Definition blank_cells (w h : Z) : list (list Cell) :=
  (λ x, (λ y, mkCell x y false false false) <$> range h) <$> range w.

(** The grid of [__init__] when it calls [generate_grid]. *)
Definition blank_grid (w h : Z) (d : Difficulty) : Grid :=
  mkGrid w h d (blank_cells w h) (0, 0) (w - 1, h - 1) (w - 1, 0).

(** [Grid(width, height, difficulty)] *)
Definition Grid_init (w h : Z) (d : Difficulty) (draws : list nat)
  : result Grid :=
  generate_grid draws (blank_grid w h d).

(** [generate_grid] with the table [obstacle_percentage] of its lines 82 to 86
    taken as the argument [pct]; the source is the instance at its own table.
    It shows what the body does with a density, which it never inspects. *)
Definition generate_grid_with (pct : Difficulty → spec_float)
    (draws : list nat) (g : Grid) : result Grid :=
  cs1 ← update_cell (cells g) 0 0 (set_is_start true);
  cs2 ← update_cell cs1 (width g - 1) 0 (set_is_goal true);
  let g1 := mkGrid (width g) (height g) (difficulty g) cs2
                   (0, height g - 1) (width g - 1, height g - 1)
                   (width g - 1, 0) in
  num_obstacles ← int_of_float
    (float_mul (float_of_int (width g * height g)) (pct (difficulty g)));
  place_obstacles draws g1 0 num_obstacles.

Definition Grid_init_with (pct : Difficulty → spec_float)
    (w h : Z) (d : Difficulty) (draws : list nat) : result Grid :=
  generate_grid_with pct draws (blank_grid w h d).

(** ** TowerTrek.move_ai *)

(** The fields of the game that the turn logic reads or writes. *)
Record TowerTrek := mkTowerTrek {
  state : GameState;
  game_difficulty : Difficulty;
  level : Z;
  score : Z;
  moves : Z;
  grid : Grid;
  ai_won : bool
}.

(** The lines that [game_over] and [move_ai] print. *)
Inductive Msg :=
  | GameOverMsg                 (* Game over! AI caught the player. *)
  | AlreadyOnPlayer             (* AI already on player position! *)
  | MovedPathfinding (p : pos)  (* AI moved to p via pathfinding *)
  | CaughtPathfinding           (* AI caught player after pathfinding move! *)
  | MovedDirect (p : pos)       (* AI moved to p (direct) *)
  | CaughtDirect                (* AI caught player after direct move! *)
  | MovedRandom (p : pos)       (* AI moved to p (random) *)
  | CaughtRandom                (* AI caught player after random move! *)
  | CouldNotMove.               (* AI couldn't move *)

#[global] Instance Msg_eq_dec : EqDecision Msg.
Proof. solve_decision. Defined.

Definition with_grid (t : TowerTrek) (g : Grid) : TowerTrek :=
  mkTowerTrek (state t) (game_difficulty t) (level t) (score t) (moves t)
              g (ai_won t).

Definition game_over (t : TowerTrek) : TowerTrek * list Msg :=
  (mkTowerTrek GAME_OVER (game_difficulty t) (level t) (score t) (moves t)
               (grid t) true,
   [GameOverMsg]).

(** [self.grid.ai_pos = p], the message of the move, then the test for a
    capture, which is common to the three ways of moving. *)
Definition step_to (t : TowerTrek) (p : pos) (moved caught : Msg)
  : TowerTrek * list Msg :=
  let t1 := with_grid t (with_ai_pos (grid t) p) in
  if decide (ai_pos (grid t1) = player_pos (grid t1)) then
    let '(t2, out) := game_over t1 in (t2, [moved; caught] ++ out)
  else (t1, [moved]).

Definition move_ai (r : nat) (t : TowerTrek) : result (TowerTrek * list Msg) :=
  if decide (ai_pos (grid t) = player_pos (grid t)) then
    let '(t1, out) := game_over t in Ok (t1, AlreadyOnPlayer :: out)
  else
    path ← find_path (grid t) (ai_pos (grid t)) (player_pos (grid t));
    match path with
    | first :: _ =>
      Ok (step_to t first (MovedPathfinding first) CaughtPathfinding)
    | [] =>
      let '(ai_x, ai_y) := ai_pos (grid t) in
      let '(player_x, player_y) := player_pos (grid t) in
      let possible_moves := [] in
      let possible_moves :=
        if (ai_x <? player_x) && is_valid_move (grid t) (ai_x + 1, ai_y)
        then possible_moves ++ [(ai_x + 1, ai_y)]
        else if (ai_x >? player_x) && is_valid_move (grid t) (ai_x - 1, ai_y)
        then possible_moves ++ [(ai_x - 1, ai_y)]
        else possible_moves in
      let possible_moves :=
        if (ai_y <? player_y) && is_valid_move (grid t) (ai_x, ai_y + 1)
        then possible_moves ++ [(ai_x, ai_y + 1)]
        else if (ai_y >? player_y) && is_valid_move (grid t) (ai_x, ai_y - 1)
        then possible_moves ++ [(ai_x, ai_y - 1)]
        else possible_moves in
      match possible_moves with
      | _ :: _ =>
        p ← choice r possible_moves;
        Ok (step_to t p (MovedDirect p) CaughtDirect)
      | [] =>
        let neighbors := get_neighbors (grid t) (ai_pos (grid t)) in
        match neighbors with
        | _ :: _ =>
          p ← choice r neighbors;
          Ok (step_to t p (MovedRandom p) CaughtRandom)
        | [] => Ok (t, [CouldNotMove])
        end
      end
    end.

(** ** The turn logic of TowerTrek around move_ai *)

Definition GRID_SIZE : Z := 10.

(** The keys that the game reads, and the events of pygame: a key press or
    any other event. *)
Inductive Key :=
  | K_SPACE | K_1 | K_KP1 | K_2 | K_KP2 | K_3 | K_KP3
  | K_w | K_UP | K_s | K_DOWN | K_a | K_LEFT | K_d | K_RIGHT
  | K_ESCAPE | K_OTHER.

Inductive Event := KEYDOWN (key : Key) | OTHER_EVENT.

#[global] Instance Key_eq_dec : EqDecision Key.
Proof. solve_decision. Defined.

(** The lines that the methods around [move_ai] print; [AiLine] carries the
    lines of [game_over] and [move_ai]. *)
Inductive Line :=
  | AiLine (m : Msg)
  | KeyPressed (key : Key)          (* Key pressed: ... *)
  | StartingFromMenu                (* Starting game from menu *)
  | DifficultySet (d : Difficulty)  (* Difficulty set to ... *)
  | PlayerMoved (p : pos)           (* Player moved to p *)
  | LevelComplete (level : Z)       (* Level n complete! *)
  | CollisionDetected (player ai : pos)  (* COLLISION DETECTED! ... *)
  | ReturningToMenu                 (* Returning to menu from game over *)
  | StartingNextLevel.              (* Starting next level *)

Definition with_player_pos (g : Grid) (p : pos) : Grid :=
  mkGrid (width g) (height g) (difficulty g) (cells g)
         p (ai_pos g) (goal_pos g).

Definition with_state (t : TowerTrek) (s : GameState) : TowerTrek :=
  mkTowerTrek s (game_difficulty t) (level t) (score t) (moves t)
              (grid t) (ai_won t).

Definition with_difficulty (t : TowerTrek) (d : Difficulty) : TowerTrek :=
  mkTowerTrek (state t) d (level t) (score t) (moves t) (grid t) (ai_won t).

(** TowerTrek.initialize_game; the draws are those of the constructor of the
    grid. *)
Definition initialize_game (draws : list nat) (t : TowerTrek)
  : result TowerTrek :=
  g ← Grid_init GRID_SIZE GRID_SIZE (game_difficulty t) draws;
  Ok (mkTowerTrek (state t) (game_difficulty t) (level t) (score t) 0 g false).

(** TowerTrek.start_game *)
Definition start_game (draws : list nat) (t : TowerTrek) : result TowerTrek :=
  initialize_game draws
    (mkTowerTrek PLAYING (game_difficulty t) 1 0 (moves t) (grid t) (ai_won t)).

(** TowerTrek.level_complete *)
Definition level_complete (t : TowerTrek) : TowerTrek * list Line :=
  (mkTowerTrek LEVEL_COMPLETE (game_difficulty t) (level t)
               (score t + (1000 - moves t * 10)) (moves t) (grid t) (ai_won t),
   [LevelComplete (level t)]).

(** TowerTrek.start_next_level *)
Definition start_next_level (draws : list nat) (t : TowerTrek)
  : result TowerTrek :=
  let level' := level t + 1 in
  let difficulty' :=
    if level' mod 3 =? 0 then
      match game_difficulty t with
      | EASY => MEDIUM
      | MEDIUM => HARD
      | HARD => HARD
      end
    else game_difficulty t in
  t1 ← initialize_game draws
         (mkTowerTrek (state t) difficulty' level' (score t) (moves t)
                      (grid t) (ai_won t));
  Ok (with_state t1 PLAYING).

(** TowerTrek.check_collision *)
Definition check_collision (t : TowerTrek) : TowerTrek * list Line :=
  if decide (player_pos (grid t) = ai_pos (grid t)) then
    let '(t1, out) := game_over t in
    (t1, CollisionDetected (player_pos (grid t)) (ai_pos (grid t))
           :: (AiLine <$> out))
  else (t, []).

(** TowerTrek.update *)
Definition update (t : TowerTrek) : TowerTrek * list Line :=
  if decide (state t = PLAYING) then check_collision t else (t, []).

(** The cell that a key of movement asks for: [new_pos] in [handle_event],
    [None] for the other keys. *)
Definition new_pos_of (p : pos) (key : Key) : option pos :=
  let '(x, y) := p in
  if bool_decide (key ∈ [K_w; K_UP]) then Some (x, y - 1)
  else if bool_decide (key ∈ [K_s; K_DOWN]) then Some (x, y + 1)
  else if bool_decide (key ∈ [K_a; K_LEFT]) then Some (x - 1, y)
  else if bool_decide (key ∈ [K_d; K_RIGHT]) then Some (x + 1, y)
  else None.

(** TowerTrek.handle_event. The flag [debug] of the game only guards the
    first print; [draws] feeds the constructor of a new grid and [r] the
    choice of [move_ai]. *)
Definition handle_event (debug : bool) (draws : list nat) (r : nat)
    (event : Event) (t : TowerTrek) : result (TowerTrek * list Line) :=
  let dbg :=
    match event with
    | KEYDOWN key => if debug then [KeyPressed key] else []
    | OTHER_EVENT => []
    end in
  match state t with
  | MENU =>
    match event with
    | KEYDOWN key =>
      if decide (key = K_SPACE) then
        t1 ← start_game draws t; Ok (t1, dbg ++ [StartingFromMenu])
      else if bool_decide (key ∈ [K_1; K_KP1]) then
        Ok (with_difficulty t EASY, dbg ++ [DifficultySet EASY])
      else if bool_decide (key ∈ [K_2; K_KP2]) then
        Ok (with_difficulty t MEDIUM, dbg ++ [DifficultySet MEDIUM])
      else if bool_decide (key ∈ [K_3; K_KP3]) then
        Ok (with_difficulty t HARD, dbg ++ [DifficultySet HARD])
      else Ok (t, dbg)
    | OTHER_EVENT => Ok (t, dbg)
    end
  | PLAYING =>
    match event with
    | KEYDOWN key =>
      match new_pos_of (player_pos (grid t)) key with
      | Some new_pos =>
        if is_valid_move (grid t) new_pos then
          let t1 :=
            mkTowerTrek (state t) (game_difficulty t) (level t) (score t)
                        (moves t + 1) (with_player_pos (grid t) new_pos)
                        (ai_won t) in
          if decide (new_pos = goal_pos (grid t1)) then
            let '(t2, out) := level_complete t1 in
            Ok (t2, dbg ++ [PlayerMoved new_pos] ++ out)
          else
            '(t2, out2) ← move_ai r t1;
            let '(t3, out3) := check_collision t2 in
            Ok (t3, dbg ++ [PlayerMoved new_pos] ++ (AiLine <$> out2) ++ out3)
        else Ok (t, dbg)
      | None => Ok (t, dbg)
      end
    | OTHER_EVENT => Ok (t, dbg)
    end
  | GAME_OVER =>
    match event with
    | KEYDOWN key =>
      if decide (key = K_SPACE) then
        Ok (with_state t MENU, dbg ++ [ReturningToMenu])
      else Ok (t, dbg)
    | OTHER_EVENT => Ok (t, dbg)
    end
  | LEVEL_COMPLETE =>
    match event with
    | KEYDOWN key =>
      if decide (key = K_SPACE) then
        t1 ← start_next_level draws t; Ok (t1, dbg ++ [StartingNextLevel])
      else Ok (t, dbg)
    | OTHER_EVENT => Ok (t, dbg)
    end
  end.

(** ** Vocabulary of the specification *)

(** The position is a coordinate of the grid. *)
Definition in_bounds (g : Grid) (p : pos) : Prop :=
  0 ≤ p.1 < width g ∧ 0 ≤ p.2 < height g.

(** The cell at [p] exists and is not flagged as an obstacle. *)
Definition non_obstacle (g : Grid) (p : pos) : Prop :=
  ∃ c, read_cell (cells g) p.1 p.2 = Ok c ∧ is_obstacle c = false.

(** One step up, right, down or left: never a diagonal, never the cell itself. *)
Definition cardinally_adjacent (p q : pos) : Prop :=
  Z.abs (q.1 - p.1) + Z.abs (q.2 - p.2) = 1.

(** The four cells around [p], named as the comment of [get_neighbors]
    names the directions. *)
Definition up (p : pos) : pos := (p.1, p.2 - 1).
Definition right (p : pos) : pos := (p.1 + 1, p.2).
Definition down (p : pos) : pos := (p.1, p.2 + 1).
Definition left (p : pos) : pos := (p.1 - 1, p.2).

(** [l] is a walk from [p]: the cells after [p], each a neighbor of the one
    before it. *)
Fixpoint walk (g : Grid) (p : pos) (l : list pos) : Prop :=
  match l with
  | [] => True
  | q :: l' => q ∈ get_neighbors g p ∧ walk g q l'
  end.

(** [l] leads from [p] to [q]; the empty walk leads from [p] to itself. *)
Definition walk_to (g : Grid) (p : pos) (l : list pos) (q : pos) : Prop :=
  walk g p l ∧ last (p :: l) = Some q.

(** A walkable path from [p] to [q] exists. *)
Definition reachable (g : Grid) (p q : pos) : Prop :=
  rtc (λ a b, b ∈ get_neighbors g a) p q.

(** [n] is the number of steps of a shortest walk from [p] to [q], the
    distance that a breadth-first search measures. *)
Definition shortest_distance (g : Grid) (p q : pos) (n : nat) : Prop :=
  (∃ l, walk_to g p l q ∧ length l = n) ∧
  ∀ l, walk_to g p l q → (n ≤ length l)%nat.

(** A grid with obstacles at the cells of [l], for the examples. *)
Definition put_obstacle (g : Grid) (p : pos) : Grid :=
  match update_cell (cells g) p.1 p.2 (set_is_obstacle true) with
  | Ok cs => with_cells g cs
  | _ => g
  end.

Definition with_obstacles (g : Grid) (l : list pos) : Grid :=
  foldl put_obstacle g l.


(** What [move_ai] signals to the game. *)
Inductive Outcome := Moved (p : pos) | Captured | Stalled.

Definition outcome (res : TowerTrek * list Msg) : Outcome :=
  if decide (GameOverMsg ∈ res.2) then Captured
  else if decide (CouldNotMove ∈ res.2) then Stalled
  else Moved (ai_pos (grid res.1)).

(** ** Invariants of the loops and auxiliary notions *)

(** The coordinates of the cells of the grid. *)
Definition grid_cells (g : Grid) : list pos :=
  x ← range (width g); y ← range (height g); [(x, y)].

(** The positions that a search from [start] can discover. *)
Definition universe (g : Grid) (start : pos) : gset pos :=
  {[start]} ∪ list_to_set (grid_cells g).

(** The invariant of the loop [while queue] of [is_path_exists]: the visited
    positions are reachable, and those that have left the queue are not the
    target and have all their neighbors visited. *)
Record bfs_inv (g : Grid) (start end_ : pos)
    (visited : gset pos) (queue : list pos) : Prop := {
  bfs_queue_visited : ∀ p, p ∈ queue → p ∈ visited;
  bfs_queue_nodup : NoDup queue;
  bfs_visited_reachable : ∀ p, p ∈ visited → reachable g start p;
  bfs_visited_universe : visited ⊆ universe g start;
  bfs_start_visited : start ∈ visited;
  bfs_done : ∀ p, p ∈ visited → p ∉ queue →
             p ≠ end_ ∧ ∀ n, n ∈ get_neighbors g p → n ∈ visited
}.

(** The invariant of the dictionaries of [find_path]: the discovered
    positions are the closed ones and those of the heap, [came_from] leads
    from each of them but [start] to a closed neighbor whose cost is one
    less, and no cost exceeds the number of closed positions. *)
Record astar_inv (g : Grid) (start end_ : pos) (st : AStar) : Prop := {
  a_open_nodup : NoDup (snd <$> open_set st);
  a_dom : ∀ p, p ∈ dom (g_score st) ↔
               p ∈ closed_set st ∨ p ∈ snd <$> open_set st;
  a_disjoint : ∀ p, p ∈ closed_set st → p ∉ snd <$> open_set st;
  a_start : g_score st !! start = Some 0 ∧ came_from st !! start = None;
  a_from : ∀ p q, came_from st !! p = Some q →
             q ∈ closed_set st ∧ p ∈ get_neighbors g q ∧
             ∃ v, g_score st !! q = Some v ∧ g_score st !! p = Some (v + 1);
  a_has_from : ∀ p, p ∈ dom (g_score st) → p ≠ start →
               is_Some (came_from st !! p);
  a_bound : ∀ p v, g_score st !! p = Some v →
            0 ≤ v ≤ Z.of_nat (size (closed_set st));
  a_end : end_ ∉ closed_set st;
  a_universe : dom (g_score st) ⊆ universe g start
}.

(** The neighbors of the positions of [X] have all been discovered. *)
Definition astar_closed (g : Grid) (X : gset pos) (st : AStar) : Prop :=
  ∀ p n, p ∈ X → n ∈ get_neighbors g p → n ∈ dom (g_score st).

(** The invariant inside the loop over the neighbors of [current]. *)
Definition relax_inv (g : Grid) (start end_ current : pos) (st : AStar) : Prop :=
  astar_inv g start end_ st ∧ start ∈ closed_set st ∧ current ∈ closed_set st ∧
  ∀ v, g_score st !! current = Some v → v + 1 ≤ Z.of_nat (size (closed_set st)).

(** The invariant of the loop [while open_set]. *)
Definition loop_inv (g : Grid) (start end_ : pos) (st : AStar) : Prop :=
  astar_inv g start end_ st ∧ astar_closed g (closed_set st) st ∧
  (start ∈ closed_set st ∨ st = astar_init start end_).

(** Consecutive elements are one step apart. *)
Fixpoint consecutive_adjacent (l : list pos) : Prop :=
  match l with
  | a :: (b :: _) as l' => cardinally_adjacent a b ∧ consecutive_adjacent l'
  | _ => True
  end.

(** The order of Python on the tuples [(f, (x, y))]. *)
Definition entry_le (a b : Z * pos) : Prop :=
  a.1 < b.1 ∨ (a.1 = b.1 ∧ (a.2.1 < b.2.1 ∨ (a.2.1 = b.2.1 ∧ a.2.2 ≤ b.2.2))).

(** Every cell of the [w] by [h] grid exists. *)
Definition full (cs : list (list Cell)) (w h : Z) : Prop :=
  ∀ x y, 0 ≤ x < w → 0 ≤ y < h → ∃ c, read_cell cs x y = Ok c.

(** Every cell of the [w] by [h] grid exists and none is an obstacle. *)
Definition all_free (cs : list (list Cell)) (w h : Z) : Prop :=
  ∀ x y, 0 ≤ x < w → 0 ≤ y < h →
         ∃ c, read_cell cs x y = Ok c ∧ is_obstacle c = false.

(** What the loop of [generate_grid] maintains. *)
Definition gen_inv (g : Grid) : Prop :=
  full (cells g) (width g) (height g) ∧
  is_path_exists g (player_pos g) (goal_pos g) = Ok true.

(** What the loop of [generate_grid] leaves alone. *)
Definition same_frame (g g' : Grid) : Prop :=
  width g' = width g ∧ height g' = height g ∧ difficulty g' = difficulty g ∧
  player_pos g' = player_pos g ∧ ai_pos g' = ai_pos g ∧ goal_pos g' = goal_pos g.

(** The four cells that the loop of [generate_grid] skips. *)
Definition protected (w h : Z) (p : pos) : Prop :=
  p = (0, 0) ∨ p = (w - 1, 0) ∨ p = (0, h - 1) ∨ p = (w - 1, h - 1).

(** What generation keeps of the cell at [(x, y)]: its coordinates, the start
    flag at (0, 0) only, the goal flag at [(w - 1, 0)] only, and no obstacle
    on a cell that the loop skips. *)
Definition cell_ok (w h x y : Z) (c : Cell) : Prop :=
  get_pos c = (x, y) ∧
  (is_start c = true ↔ (x, y) = (0, 0)) ∧
  (is_goal c = true ↔ (x, y) = (w - 1, 0)) ∧
  (protected w h (x, y) → is_obstacle c = false).

Definition cells_ok (cs : list (list Cell)) (w h : Z) : Prop :=
  ∀ x y, 0 ≤ x < w → 0 ≤ y < h →
         ∃ c, read_cell cs x y = Ok c ∧ cell_ok w h x y c.

(** The number of cells flagged as obstacles. *)
Definition obstacle_count (cs : list (list Cell)) : Z :=
  Z.of_nat (length (filter (λ c, is_obstacle c = true) (concat cs))).

(** [int(width * height * obstacle_percentage[difficulty])] *)
Definition target_obstacles (w h : Z) (d : Difficulty) : result Z :=
  int_of_float (float_mul (float_of_int (w * h)) (obstacle_percentage d)).

(** Player and pursuer stand on cells that can be walked on. *)
Definition positions_ok (t : TowerTrek) : Prop :=
  is_valid_move (grid t) (player_pos (grid t)) = true ∧
  is_valid_move (grid t) (ai_pos (grid t)) = true.

(** EASY, MEDIUM and HARD in their order. *)
Definition difficulty_rank (d : Difficulty) : Z :=
  match d with
  | EASY => 0
  | MEDIUM => 1
  | HARD => 2
  end.

(** The number of obstacles of the board of the game at each difficulty. *)
Definition board_obstacles (d : Difficulty) : Z :=
  match d with
  | EASY => 15
  | MEDIUM => 25
  | HARD => 35
  end.

(** A board that the game has just generated for the difficulty [d]. *)
Definition fresh_board (d : Difficulty) (g : Grid) : Prop :=
  width g = GRID_SIZE ∧ height g = GRID_SIZE ∧ difficulty g = d ∧
  player_pos g = (0, 9) ∧ ai_pos g = (9, 9) ∧ goal_pos g = (9, 0) ∧
  obstacle_count (cells g) = board_obstacles d ∧
  is_path_exists g (player_pos g) (goal_pos g) = Ok true ∧
  is_valid_move g (player_pos g) = true ∧
  is_valid_move g (ai_pos g) = true.

(** What the turns of the game maintain: player and pursuer stand on cells
    that can be walked on, and they are on different cells while the game is
    being played. *)
Definition game_inv (t : TowerTrek) : Prop :=
  positions_ok t ∧
  (state t = PLAYING → player_pos (grid t) ≠ ai_pos (grid t)).

(** The difficulty of a game that was started at the difficulty [d0]: one
    rank more every third level, HARD at most. *)
Definition difficulty_schedule (d0 : Difficulty) (t : TowerTrek) : Prop :=
  1 ≤ level t ∧
  difficulty_rank (game_difficulty t)
  = Z.min 2 (difficulty_rank d0 + level t / 3).

Definition draws_easy : list nat :=
  [1; 1; 2; 1; 3; 1; 4; 1; 5; 1; 6; 1; 7; 1; 8; 1;
   1; 3; 2; 3; 3; 3; 4; 3; 5; 3; 6; 3; 7; 3]%nat.

(** What the turns keep of the moves of a level: the goal is the top right
    cell of the board, and while the level is played at least as many moves
    are counted as the player is steps away from the cell where it started,
    the bottom left one. *)
Definition level_inv (t : TowerTrek) : Prop :=
  goal_pos (grid t) = (GRID_SIZE - 1, 0) ∧
  (state t = PLAYING →
   heuristic (player_pos (grid t)) (0, GRID_SIZE - 1) ≤ moves t).

(** ** Properties of is_valid_move and get_neighbors *)

Lemma is_valid_move_iff g p :
  is_valid_move g p = true ↔ in_bounds g p ∧ non_obstacle g p.
Proof.
  destruct p as [x y]. unfold is_valid_move, in_bounds, non_obstacle. simpl.
  destruct (x <? 0) eqn:E1; simpl; [split; [done | lia] |].
  destruct (x >=? width g) eqn:E2; simpl; [split; [done | lia] |].
  destruct (y <? 0) eqn:E3; simpl; [split; [done | lia] |].
  destruct (y >=? height g) eqn:E4; simpl; [split; [done | lia] |].
  destruct (read_cell (cells g) x y) as [c| |] eqn:Ec.
  - destruct (is_obstacle c) eqn:Eo; split.
    + done.
    + intros [_ (c' & Hc' & Ho)]. congruence.
    + intros _. split; [lia | eauto].
    + done.
  - split; [done | intros [_ (c' & Hc' & _)]; congruence].
  - split; [done | intros [_ (c' & Hc' & _)]; congruence].
Qed.

Lemma get_neighbors_unfold g p :
  get_neighbors g p =
  (if is_valid_move g (up p) then [up p] else []) ++
  (if is_valid_move g (right p) then [right p] else []) ++
  (if is_valid_move g (down p) then [down p] else []) ++
  (if is_valid_move g (left p) then [left p] else []).
Proof.
  destruct p as [x y]. unfold get_neighbors, up, right, down, left. simpl.
  replace (y + -1) with (y - 1) by lia.
  replace (x + 0) with x by lia.
  replace (y + 0) with y by lia.
  replace (x + -1) with (x - 1) by lia.
  destruct (is_valid_move g (x, y - 1)), (is_valid_move g (x + 1, y)),
    (is_valid_move g (x, y + 1)), (is_valid_move g (x - 1, y)); reflexivity.
Qed.

Lemma elem_of_get_neighbors g p q :
  q ∈ get_neighbors g p ↔
  q ∈ [up p; right p; down p; left p] ∧ is_valid_move g q = true.
Proof.
  rewrite get_neighbors_unfold.
  rewrite !elem_of_app, !elem_of_cons, elem_of_nil.
  destruct (is_valid_move g (up p)) eqn:E1, (is_valid_move g (right p)) eqn:E2,
    (is_valid_move g (down p)) eqn:E3, (is_valid_move g (left p)) eqn:E4;
    rewrite ?elem_of_cons, ?elem_of_nil; intuition congruence.
Qed.

Lemma cardinal_directions p q :
  q ∈ [up p; right p; down p; left p] ↔ cardinally_adjacent p q.
Proof.
  destruct p as [x y], q as [x' y'].
  unfold cardinally_adjacent, up, right, down, left. simpl.
  rewrite !elem_of_cons, elem_of_nil. split.
  - intros [H|[H|[H|[H|[]]]]]; inversion H; subst; lia.
  - intros H.
    assert ((x' = x ∧ y' = y - 1) ∨ (x' = x + 1 ∧ y' = y) ∨
            (x' = x ∧ y' = y + 1) ∨ (x' = x - 1 ∧ y' = y)) as Hc by lia.
    destruct Hc as [[-> ->]|[[-> ->]|[[-> ->]|[-> ->]]]]; auto.
Qed.

Lemma neighbor_step g p q :
  q ∈ get_neighbors g p → is_valid_move g q = true ∧ cardinally_adjacent p q.
Proof.
  intros H. apply elem_of_get_neighbors in H as [Hd Hv].
  split; [done |]. by apply cardinal_directions.
Qed.

(** C5. [get_neighbors pos] lists the four cells up, right, down and left of
    [pos], in that order, keeping those that pass [is_valid_move]; its members
    are exactly the cardinally adjacent, in-bounds, non-obstacle positions, so
    it holds no out-of-bounds, obstacle or diagonal coordinate. *)
Theorem get_neighbors_exact (g : Grid) (p : pos) :
  get_neighbors g p =
    List.filter (is_valid_move g) [up p; right p; down p; left p]
  ∧ ∀ q, q ∈ get_neighbors g p ↔
         cardinally_adjacent p q ∧ in_bounds g q ∧ non_obstacle g q.
Proof.
  split.
  - rewrite get_neighbors_unfold. simpl.
    destruct (is_valid_move g (up p)), (is_valid_move g (right p)),
      (is_valid_move g (down p)), (is_valid_move g (left p)); reflexivity.
  - intros q. rewrite elem_of_get_neighbors, cardinal_directions,
      is_valid_move_iff. reflexivity.
Qed.
(** ** The positions a search can discover *)

Lemma elem_of_grid_cells g p : in_bounds g p → p ∈ grid_cells g.
Proof.
  destruct p as [x y]. unfold in_bounds, grid_cells, range. simpl. intros [Hx Hy].
  apply list_elem_of_bind. exists x. split.
  - apply list_elem_of_bind. exists y. split; [apply list_elem_of_singleton; done |].
    apply elem_of_seqZ. lia.
  - apply elem_of_seqZ. lia.
Qed.

Lemma length_bind_uniform {A B} (f : A → list B) (n : nat) (l : list A) :
  (∀ a, length (f a) = n) → length (l ≫= f) = (length l * n)%nat.
Proof.
  intros Hf. induction l as [|a l IH]; [done |].
  change (length (f a ++ (l ≫= f)) = (n + length l * n)%nat).
  by rewrite length_app, IH, Hf.
Qed.

Lemma length_grid_cells g :
  length (grid_cells g) = (Z.to_nat (width g) * Z.to_nat (height g))%nat.
Proof.
  unfold grid_cells, range.
  rewrite (length_bind_uniform _ (Z.to_nat (height g))), length_seqZ; [done |].
  intros x. rewrite (length_bind_uniform _ 1%nat), length_seqZ; [lia | done].
Qed.

Lemma size_list_to_set_le (l : list pos) :
  (size (list_to_set l : gset pos) ≤ length l)%nat.
Proof.
  induction l as [|a l IH].
  - by rewrite list_to_set_nil, size_empty.
  - rewrite list_to_set_cons, size_union_alt, size_singleton. simpl.
    assert (size (list_to_set l ∖ {[a]} : gset pos) ≤ size (list_to_set l : gset pos))%nat.
    { apply subseteq_size. set_solver. }
    lia.
Qed.

Lemma universe_size g start : (size (universe g start) + 1 ≤ search_fuel g)%nat.
Proof.
  unfold universe, search_fuel.
  rewrite size_union_alt, size_singleton.
  assert (size (list_to_set (grid_cells g) ∖ {[start]} : gset pos)
          ≤ size (list_to_set (grid_cells g) : gset pos))%nat
    by (apply subseteq_size; set_solver).
  pose proof (size_list_to_set_le (grid_cells g)) as Hs.
  rewrite length_grid_cells in Hs.
  assert (Z.to_nat (width g) * Z.to_nat (height g) ≤ Z.to_nat (width g * height g))%nat.
  { destruct (Z_le_gt_dec 0 (width g)), (Z_le_gt_dec 0 (height g)).
    - rewrite Z2Nat.inj_mul by lia. lia.
    - replace (Z.to_nat (height g)) with 0%nat by lia. lia.
    - replace (Z.to_nat (width g)) with 0%nat by lia. lia.
    - replace (Z.to_nat (width g)) with 0%nat by lia. lia. }
  lia.
Qed.

Lemma neighbor_in_universe g start p q :
  q ∈ get_neighbors g p → q ∈ universe g start.
Proof.
  intros H. apply elem_of_get_neighbors in H as [_ H].
  apply is_valid_move_iff in H as [H _].
  unfold universe. apply elem_of_union_r, elem_of_list_to_set.
  by apply elem_of_grid_cells.
Qed.

(** ** Breadth-first search decides reachability *)

Lemma bfs_visit_fold ns : ∀ visited queue visited' queue',
  foldl bfs_visit (visited, queue) ns = (visited', queue') →
  ∃ new, queue' = queue ++ new
       ∧ visited' = list_to_set new ∪ visited
       ∧ NoDup new
       ∧ (∀ n, n ∈ new → n ∈ ns ∧ n ∉ visited)
       ∧ (∀ n, n ∈ ns → n ∈ visited').
Proof.
  induction ns as [|n ns IH]; intros visited queue visited' queue' H; simpl in H.
  - inversion H; subst. exists []. rewrite app_nil_r.
    split; [done |]. split; [set_solver |]. split; [constructor |]. set_solver.
  - destruct (decide (n ∈ visited)) as [Hin|Hnin].
    + destruct (IH _ _ _ _ H) as (new & -> & -> & Hnd & Hnew & Hall).
      exists new. split; [done |]. split; [done |]. split; [done |]. set_solver.
    + destruct (IH _ _ _ _ H) as (new & -> & -> & Hnd & Hnew & Hall).
      exists (n :: new). rewrite <- app_assoc. simpl.
      split; [done |]. split; [set_solver |]. split; [| split].
      * constructor; [| done]. intros Hn. apply Hnew in Hn. set_solver.
      * intros m [->|Hm]%elem_of_cons; [set_solver |].
        apply Hnew in Hm. set_solver.
      * set_solver.
Qed.

Lemma reachable_step g p q r :
  reachable g p q → r ∈ get_neighbors g q → reachable g p r.
Proof. intros H1 H2. eapply rtc_r; eauto. Qed.

Lemma bfs_loop_correct g start end_ : ∀ fuel visited queue,
  bfs_inv g start end_ visited queue →
  (size (universe g start) - size visited + length queue + 1 ≤ fuel)%nat →
  ∃ b, bfs_loop fuel g end_ visited queue = Ok b
     ∧ (b = true ↔ reachable g start end_).
Proof.
  induction fuel as [|fuel IH]; intros visited queue Hinv Hfuel; [lia |].
  destruct Hinv as [Hqv Hnd Hreach Huniv Hstart Hdone].
  simpl. destruct queue as [|current queue'].
  - exists false. split; [done |]. split; [done |]. intros Hr. exfalso.
    assert (∀ p, reachable g start p → p ∈ visited) as Hall.
    { unfold reachable. apply rtc_ind_r; [done |].
      intros q r _ Hqr Hq. eapply Hdone; [apply Hq | set_solver | done]. }
    destruct (Hdone end_ (Hall _ Hr)) as [Hne _]; [set_solver | done].
  - destruct (decide (current = end_)) as [->|Hne].
    + exists true. split; [done |]. split; [| done]. intros _.
      apply Hreach, Hqv. set_solver.
    + destruct (foldl bfs_visit (visited, queue') (get_neighbors g current))
        as [visited' queue''] eqn:Hfold.
      apply bfs_visit_fold in Hfold as (new & -> & -> & Hndn & Hnew & Hall).
      apply NoDup_cons in Hnd as [Hcur Hnd].
      assert (size (list_to_set new ∪ visited : gset pos)
              = (length new + size visited)%nat) as Hsize.
      { rewrite size_union.
        - by rewrite size_list_to_set.
        - intros p Hp1 Hp2. apply elem_of_list_to_set in Hp1.
          by apply Hnew in Hp1 as [_ ?]. }
      assert (list_to_set new ∪ visited ⊆ universe g start) as Huniv'.
      { intros p [Hp|Hp]%elem_of_union; [| by apply Huniv].
        apply elem_of_list_to_set, Hnew in Hp as [Hp _].
        by eapply neighbor_in_universe. }
      apply IH.
      * constructor.
        -- intros p [Hp|Hp]%elem_of_app.
           ++ apply elem_of_union_r, Hqv. set_solver.
           ++ apply elem_of_union_l. by apply elem_of_list_to_set.
        -- apply NoDup_app. repeat split; [done | | done].
           intros p Hp1 Hp2. apply Hnew in Hp2 as [_ Hp2].
           apply Hp2, Hqv. set_solver.
        -- intros p [Hp|Hp]%elem_of_union; [| by apply Hreach].
           apply elem_of_list_to_set, Hnew in Hp as [Hp _].
           eapply reachable_step; [| exact Hp]. apply Hreach, Hqv. set_solver.
        -- done.
        -- set_solver.
        -- intros p Hp Hpq.
           assert (p ∈ visited) as Hpv.
           { apply elem_of_union in Hp as [Hp|Hp]; [| done].
             exfalso. apply Hpq, elem_of_app. right.
             by apply elem_of_list_to_set in Hp. }
           destruct (decide (p = current)) as [->|Hpc].
           ++ split; [done | apply Hall].
           ++ destruct (Hdone p Hpv) as [? Hn].
              { intros [?|?]%elem_of_cons; [done |].
                apply Hpq, elem_of_app. by left. }
              split; [done |]. intros n Hn'. apply elem_of_union_r. by apply Hn.
      * pose proof (subseteq_size _ _ Huniv') as Hle.
        rewrite Hsize in *. rewrite length_app. simpl in Hfuel. lia.
Qed.

Lemma is_path_exists_correct g start end_ :
  ∃ b, is_path_exists g start end_ = Ok b ∧ (b = true ↔ reachable g start end_).
Proof.
  unfold is_path_exists. destruct (decide (start = end_)) as [->|Hne].
  - exists true. split; [done |]. split; [| done]. intros _. apply rtc_refl.
  - apply bfs_loop_correct.
    + constructor.
      * set_solver.
      * apply NoDup_singleton.
      * intros p ->%elem_of_singleton. apply rtc_refl.
      * unfold universe. set_solver.
      * set_solver.
      * intros p ->%elem_of_singleton Hp. exfalso. apply Hp. set_solver.
    + pose proof (universe_size g start) as Hu. unfold search_fuel in *.
      rewrite size_singleton. simpl. lia.
Qed.

(** [is_path_exists] always returns: the fuel of the model is enough. *)
Lemma is_path_exists_returns g start end_ :
  ∃ b, is_path_exists g start end_ = Ok b.
Proof. destruct (is_path_exists_correct g start end_) as (b & ? & _). eauto. Qed.

Lemma is_path_exists_true g start end_ :
  is_path_exists g start end_ = Ok true ↔ reachable g start end_.
Proof.
  destruct (is_path_exists_correct g start end_) as (b & -> & Hb).
  rewrite <- Hb. split; [by inversion 1 | by intros ->].
Qed.

Lemma is_path_exists_false g start end_ :
  is_path_exists g start end_ = Ok false ↔ ¬ reachable g start end_.
Proof.
  destruct (is_path_exists_correct g start end_) as (b & -> & Hb).
  split.
  - intros [= ->] Hr. by apply Hb in Hr.
  - intros Hn. destruct b; [| done]. exfalso. by apply Hn, Hb.
Qed.
(** ** The heap *)

Lemma heap_min_in m heap : heap_min m heap ∈ m :: heap.
Proof.
  revert m. induction heap as [|item heap IH]; intros m; simpl.
  - set_solver.
  - specialize (IH (if entry_ltb item m then item else m)).
    destruct (entry_ltb item m); set_solver.
Qed.

Lemma remove_first_perm m heap : m ∈ heap → heap ≡ₚ m :: remove_first m heap.
Proof.
  induction heap as [|item heap IH]; [by intros ?%elem_of_nil |].
  intros Hm. simpl. destruct (decide (item = m)) as [->|Hne]; [done |].
  apply elem_of_cons in Hm as [->|Hm]; [done |].
  rewrite (IH Hm) at 1. apply perm_swap.
Qed.

Lemma heappop_perm heap m heap' :
  heappop heap = Some (m, heap') → heap ≡ₚ m :: heap'.
Proof.
  destruct heap as [|item heap]; [done |].
  unfold heappop. intros [= <- <-].
  apply remove_first_perm, heap_min_in.
Qed.

Lemma heappop_None heap : heappop heap = None → heap = [].
Proof. by destruct heap. Qed.

(** ** A* finds a walk whenever one exists *)

Lemma walk_snoc g p l q r :
  walk_to g p l q → r ∈ get_neighbors g q → walk_to g p (l ++ [r]) r.
Proof.
  unfold walk_to. revert p. induction l as [|a l IH]; intros p [Hw Hl] Hr.
  - simpl in *. inversion Hl; subst. done.
  - destruct Hw as [Ha Hw]. split.
    + split; [done |]. apply IH; [| done]. split; [done |].
      by rewrite last_cons_cons in Hl.
    + change (last ((p :: a :: l) ++ [r]) = Some r). apply last_snoc.
Qed.

Lemma walk_to_reachable g p l q : walk_to g p l q → reachable g p q.
Proof.
  unfold walk_to. revert p. induction l as [|a l IH]; intros p [Hw Hl].
  - inversion Hl; subst. apply rtc_refl.
  - destruct Hw as [Ha Hw]. eapply rtc_l; [exact Ha |].
    apply IH. split; [done |]. by rewrite last_cons_cons in Hl.
Qed.

Lemma dict_get_Some {V} (d : gmap pos V) k v :
  d !! k = Some v → dict_get d k = Ok v.
Proof. unfold dict_get. by intros ->. Qed.

Lemma relax_correct g start end_ current st n :
  relax_inv g start end_ current st →
  n ∈ get_neighbors g current →
  ∃ st', relax end_ current st n = Ok st'
       ∧ relax_inv g start end_ current st'
       ∧ closed_set st' = closed_set st
       ∧ dom (g_score st) ⊆ dom (g_score st')
       ∧ n ∈ dom (g_score st').
Proof.
  intros (Hinv & Hstart & Hcur & Hgc) Hn.
  pose proof Hinv as [Hnd Hdom Hdisj [Hs0 Hsf] Hfrom Hhas Hbound Hend Huniv].
  unfold relax. destruct (decide (n ∈ closed_set st)) as [Hcl|Hncl].
  { exists st. split; [done |]. split; [done |]. split; [done |].
    split; [done |]. apply Hdom. by left. }
  assert (is_Some (g_score st !! current)) as [gc Hgcur].
  { apply elem_of_dom, Hdom. by left. }
  rewrite (dict_get_Some _ _ _ Hgcur). simpl.
  assert (n ≠ current) as Hnc by (intros ->; done).
  assert (n ≠ start) as Hns by (intros ->; done).
  set (better := match g_score st !! n with
                 | Some g_neighbor => gc + 1 <? g_neighbor
                 | None => true
                 end).
  destruct better eqn:Hbetter; subst better.
  2:{ exists st. split; [done |]. split; [done |]. split; [done |].
      split; [done |].
      destruct (g_score st !! n) eqn:E; [| done]. apply elem_of_dom. eauto. }
  rewrite (dict_get_Some _ _ _ (lookup_insert_eq _ _ _)). simpl.
  rewrite (dict_get_Some _ _ _ (lookup_insert_eq _ _ _)). simpl.
  eexists. split; [reflexivity |]. simpl.
  assert (dom (g_score st) ⊆ dom (<[n:=gc + 1]> (g_score st))) as Hsub
    by (rewrite dom_insert_L; set_solver).
  split; [| split; [done | split; [done |]]].
  2:{ rewrite dom_insert_L. set_solver. }
  split; [| split; [done | split; [done |]]]; simpl.
  2:{ intros v. rewrite lookup_insert_ne by done. apply Hgc. }
  constructor; simpl.
  - destruct (decide (n ∈ snd <$> open_set st)) as [Hin|Hnin]; [done |].
    unfold heappush. rewrite fmap_app. simpl.
    apply NoDup_app. repeat split; [done | | apply NoDup_singleton].
    intros p Hp ->%list_elem_of_singleton. done.
  - intros p. rewrite dom_insert_L, elem_of_union, elem_of_singleton, Hdom.
    destruct (decide (n ∈ snd <$> open_set st)) as [Hin|Hnin].
    + split; [intros [->|?]; auto | auto].
    + unfold heappush. rewrite fmap_app, elem_of_app. simpl.
      rewrite list_elem_of_singleton. tauto.
  - intros p Hp. destruct (decide (n ∈ snd <$> open_set st)) as [Hin|Hnin].
    + by apply Hdisj.
    + unfold heappush. rewrite fmap_app, elem_of_app. simpl.
      rewrite list_elem_of_singleton. intros [?| ->]; [by eapply Hdisj | done].
  - by rewrite !lookup_insert_ne.
  - intros p q Hpq. destruct (decide (p = n)) as [->|Hpn].
    + rewrite lookup_insert_eq in Hpq. inversion Hpq; subst q.
      split; [done |]. split; [done |]. exists gc.
      by rewrite lookup_insert_ne, lookup_insert_eq.
    + rewrite lookup_insert_ne in Hpq by done.
      destruct (Hfrom _ _ Hpq) as (Hq & Hp & v & Hv1 & Hv2).
      split; [done |]. split; [done |]. exists v.
      rewrite !lookup_insert_ne; [done | done |]. by intros ->.
  - intros p Hp Hps. destruct (decide (p = n)) as [->|Hpn].
    + rewrite lookup_insert_eq. eauto.
    + rewrite lookup_insert_ne by done. apply Hhas; [| done].
      rewrite dom_insert_L in Hp. set_solver.
  - intros p v. destruct (decide (p = n)) as [->|Hpn].
    + rewrite lookup_insert_eq. intros [= <-].
      specialize (Hgc _ Hgcur). specialize (Hbound _ _ Hgcur). lia.
    + rewrite lookup_insert_ne by done. apply Hbound.
  - done.
  - rewrite dom_insert_L. apply union_least; [| done].
    apply singleton_subseteq_l. by eapply neighbor_in_universe.
Qed.

Lemma relax_all g start end_ current ns : ∀ st,
  relax_inv g start end_ current st →
  (∀ n, n ∈ ns → n ∈ get_neighbors g current) →
  ∃ st', for_each (relax end_ current) st ns = Ok st'
       ∧ relax_inv g start end_ current st'
       ∧ closed_set st' = closed_set st
       ∧ dom (g_score st) ⊆ dom (g_score st')
       ∧ ∀ n, n ∈ ns → n ∈ dom (g_score st').
Proof.
  induction ns as [|n ns IH]; intros st Hinv Hns; simpl.
  - exists st. split; [done |]. split; [done |]. split; [done |].
    split; [done |]. by intros ? ?%elem_of_nil.
  - destruct (relax_correct g start end_ current st n Hinv)
      as (st1 & -> & Hinv1 & Hc1 & Hd1 & Hn1); [apply Hns; set_solver |].
    simpl. destruct (IH st1 Hinv1) as (st2 & -> & Hinv2 & Hc2 & Hd2 & Hn2).
    { intros m Hm. apply Hns. set_solver. }
    exists st2. split; [done |]. split; [done |].
    split; [congruence |]. split; [set_solver |].
    intros m [->|Hm]%elem_of_cons; [set_solver | by apply Hn2].
Qed.

Lemma reconstruct_path_correct g start end_ st :
  astar_inv g start end_ st →
  ∀ fuel p v path,
    g_score st !! p = Some v → (Z.to_nat v < fuel)%nat →
    ∃ l, reconstruct_path fuel (came_from st) p path = Ok (l ++ reverse path)
       ∧ walk_to g start l p ∧ Z.of_nat (length l) = v.
Proof.
  intros Hinv. induction fuel as [|fuel IH]; intros p v path Hv Hfuel; [lia |].
  simpl. destruct (came_from st !! p) as [q|] eqn:Hq.
  - destruct (a_from _ _ _ _ Hinv _ _ Hq) as (_ & Hpq & v' & Hv' & Hv'').
    assert (v = v' + 1) as -> by congruence.
    pose proof (a_bound _ _ _ _ Hinv _ _ Hv') as Hb.
    destruct (IH q v' (path ++ [p]) Hv') as (l & -> & Hw & Hlen); [lia |].
    exists (l ++ [p]). split; [| split].
    + by rewrite reverse_app, <- app_assoc.
    + by eapply walk_snoc.
    + rewrite length_app. simpl. lia.
  - destruct (decide (p = start)) as [->|Hne].
    + exists []. split; [done |]. split; [done |].
      destruct (a_start _ _ _ _ Hinv) as [Hs _].
      change (0 = v). congruence.
    + destruct (a_has_from _ _ _ _ Hinv p) as [q' Hq']; [| done | congruence].
      apply elem_of_dom. eauto.
Qed.

Lemma closed_in_universe g start end_ st :
  astar_inv g start end_ st → closed_set st ⊆ universe g start.
Proof.
  intros Hinv p Hp. apply (a_universe _ _ _ _ Hinv), (a_dom _ _ _ _ Hinv). auto.
Qed.

Lemma astar_loop_correct g start end_ :
  start ≠ end_ →
  ∀ fuel st,
    loop_inv g start end_ st →
    (size (universe g start) - size (closed_set st) + 1 ≤ fuel)%nat →
    ∃ l, astar_loop fuel g end_ st = Ok l
       ∧ ((l = [] ∧ ¬ reachable g start end_) ∨
          (l ≠ [] ∧ walk_to g start l end_)).
Proof.
  intros Hse. induction fuel as [|fuel IH]; intros st (Hinv & Hclosed & Hst) Hfuel;
    [lia |].
  pose proof Hinv as [Hnd Hdom Hdisj [Hs0 Hsf] Hfrom Hhas Hbound Hend Huniv].
  pose proof (closed_in_universe _ _ _ _ Hinv) as Hcu.
  simpl. destruct (heappop (open_set st)) as [[[f current] open']|] eqn:Hpop.
  2:{ apply heappop_None in Hpop. exists []. split; [done |]. left.
      split; [done |]. intros Hr.
      assert (∀ p, p ∈ dom (g_score st) → p ∈ closed_set st) as Hdc.
      { intros p [?|Hp]%Hdom; [done |]. rewrite Hpop in Hp. by apply elem_of_nil in Hp. }
      assert (∀ p, reachable g start p → p ∈ closed_set st) as Hall.
      { unfold reachable. apply rtc_ind_r.
        - apply Hdc, elem_of_dom. eauto.
        - intros q r _ Hqr Hq. by eapply Hdc, Hclosed. }
      by apply Hend, Hall. }
  apply heappop_perm in Hpop.
  assert ((open_set st).*2 ≡ₚ current :: open'.*2) as Hperm
    by (by rewrite Hpop).
  assert (∀ p, p ∈ (open_set st).*2 ↔ p = current ∨ p ∈ open'.*2) as Hmem
    by (intros p; by rewrite Hperm, elem_of_cons).
  rewrite Hperm in Hnd. apply NoDup_cons in Hnd as [Hcur Hnd].
  assert (current ∉ closed_set st) as Hcc.
  { intros Hc. apply (Hdisj _ Hc), Hmem. by left. }
  assert (is_Some (g_score st !! current)) as [gc Hgc].
  { apply elem_of_dom, Hdom. right. apply Hmem. by left. }
  destruct (decide (current = end_)) as [->|Hce].
  - pose proof (Hbound _ _ Hgc) as Hb.
    pose proof (subseteq_size _ _ Hcu) as Hsz.
    pose proof (universe_size g start) as Hu.
    destruct (reconstruct_path_correct g start end_ st Hinv
                (search_fuel g) end_ gc [] Hgc) as (l & -> & Hw & Hlen); [lia |].
    exists l. rewrite app_nil_r. split; [done |]. right. split; [| done].
    intros ->. destruct Hw as [_ Hl]. simpl in Hl. congruence.
  - set (st1 := mkAStar open' ({[current]} ∪ closed_set st)
                        (came_from st) (g_score st) (f_score st)).
    assert (size ({[current]} ∪ closed_set st) = S (size (closed_set st))) as Hsize.
    { rewrite size_union, size_singleton; [done | set_solver]. }
    assert (start ∈ {[current]} ∪ closed_set st) as Hstart.
    { destruct Hst as [?| ->]; [set_solver |].
      assert (current ∈ (open_set (astar_init start end_)).*2) as Hc
        by (apply Hmem; by left).
      simpl in Hc. apply list_elem_of_singleton in Hc. set_solver. }
    assert (relax_inv g start end_ current st1) as Hinv1.
    { split; [| split; [done | split; [set_solver |]]].
      - constructor; simpl.
        + done.
        + intros p. rewrite Hdom, Hmem. set_solver.
        + intros p [->%elem_of_singleton|Hp]%elem_of_union; [done |].
          intros Hp'. apply (Hdisj _ Hp), Hmem. by right.
        + done.
        + intros p q Hpq. destruct (Hfrom _ _ Hpq) as (? & ? & ?).
          split; [set_solver | done].
        + done.
        + intros p v Hv. specialize (Hbound _ _ Hv). rewrite Hsize. lia.
        + set_solver.
        + done.
      - simpl. intros v Hv. rewrite Hsize.
        assert (v = gc) as -> by congruence. specialize (Hbound _ _ Hgc). lia. }
    destruct (relax_all g start end_ current (get_neighbors g current) st1 Hinv1)
      as (st2 & -> & (Hinv2 & Hs2 & _) & Hc2 & Hd2 & Hn2); [done |].
    simpl. simpl in Hc2, Hd2. apply IH.
    + split; [done |]. split; [| by left].
      intros p n Hp Hn. rewrite Hc2 in Hp.
      apply elem_of_union in Hp as [->%elem_of_singleton|Hp]; [by apply Hn2 |].
      apply Hd2. by eapply Hclosed.
    + rewrite Hc2, Hsize.
      pose proof (closed_in_universe _ _ _ _ Hinv2) as Hcu2.
      apply subseteq_size in Hcu2. rewrite Hc2, Hsize in Hcu2. lia.
Qed.

Lemma astar_init_inv g start end_ :
  start ≠ end_ → loop_inv g start end_ (astar_init start end_).
Proof.
  intros Hse. split; [| split; [| by right]].
  - constructor; simpl.
    + apply NoDup_singleton.
    + intros p. rewrite dom_singleton_L. set_solver.
    + set_solver.
    + by rewrite lookup_singleton_eq, lookup_empty.
    + intros p q. by rewrite lookup_empty.
    + intros p. rewrite dom_singleton_L. set_solver.
    + intros p v [<- <-]%lookup_singleton_Some. lia.
    + set_solver.
    + rewrite dom_singleton_L. unfold universe. set_solver.
  - intros p n Hp. simpl in Hp. set_solver.
Qed.

(** [find_path] always returns, and for distinct positions it returns the
    empty list exactly when no walk leads from [start] to [end_], and a walk
    from [start] to [end_] otherwise. *)
Lemma find_path_correct g start end_ :
  start ≠ end_ →
  ∃ l, find_path g start end_ = Ok l
     ∧ ((l = [] ∧ ¬ reachable g start end_) ∨
        (l ≠ [] ∧ walk_to g start l end_)).
Proof.
  intros Hse. unfold find_path. rewrite decide_False by done.
  apply astar_loop_correct; [done | by apply astar_init_inv |].
  pose proof (universe_size g start).
  change (closed_set (astar_init start end_)) with (∅ : gset pos).
  rewrite size_empty. unfold search_fuel in *. lia.
Qed.

Lemma find_path_same g p : find_path g p p = Ok [p].
Proof. unfold find_path. by rewrite decide_True. Qed.

Lemma find_path_returns g start end_ : ∃ l, find_path g start end_ = Ok l.
Proof.
  destruct (decide (start = end_)) as [->|Hne].
  - rewrite find_path_same. eauto.
  - destruct (find_path_correct g start end_ Hne) as (l & ? & _). eauto.
Qed.
(** ** The contract of find_path *)

Lemma walk_cells g p l :
  walk g p l →
  consecutive_adjacent (p :: l) ∧ Forall (λ q, in_bounds g q ∧ non_obstacle g q) l.
Proof.
  revert p. induction l as [|a l IH]; intros p Hw; [by split |].
  destruct Hw as [Ha Hw]. destruct (IH _ Hw) as [Hc Hf].
  apply neighbor_step in Ha as [[Hb Ho]%is_valid_move_iff Hadj].
  split; [by split | by constructor].
Qed.

Lemma consecutive_adjacent_tail a l :
  consecutive_adjacent (a :: l) → consecutive_adjacent l.
Proof. destruct l; [done | by intros [_ ?]]. Qed.

Lemma reachable_walk g p q : reachable g p q → ∃ l, walk_to g p l q.
Proof.
  unfold reachable. intros H. induction H as [p|p r q Hpr _ [l [Hw Hl]]].
  - by exists [].
  - exists (r :: l). split; [by split |]. by rewrite last_cons_cons.
Qed.

Example find_path_example :
  find_path (blank_grid 10 10 EASY) (9, 9) (0, 0)
  = Ok [(8, 9); (7, 9); (6, 9); (5, 9); (4, 9); (3, 9); (2, 9); (1, 9); (0, 9);
        (0, 8); (0, 7); (0, 6); (0, 5); (0, 4); (0, 3); (0, 2); (0, 1); (0, 0)].
Proof. vm_compute. reflexivity. Qed.

(** C3. [find_path start end_] always returns. It returns [[start]] when the
    two positions are equal. Otherwise, when a walkable path exists (which is
    when [is_path_exists] answers true), it returns a walk from [start] to
    [end_]: a list that begins with a neighbor of [start] and ends with
    [end_], whose consecutive elements are cardinally adjacent and whose
    elements are all in-bounds, non-obstacle cells; and when no path exists it
    returns the empty list. *)
Theorem find_path_contract (g : Grid) (start end_ : pos) :
  ∃ l, find_path g start end_ = Ok l ∧
    (is_path_exists g start end_ = Ok true ↔ reachable g start end_) ∧
    (start = end_ → l = [start]) ∧
    (start ≠ end_ → reachable g start end_ →
       (∃ first rest, l = first :: rest ∧ first ∈ get_neighbors g start) ∧
       last l = Some end_ ∧
       walk g start l ∧
       consecutive_adjacent l ∧
       Forall (λ q, in_bounds g q ∧ non_obstacle g q) l) ∧
    (start ≠ end_ → ¬ reachable g start end_ → l = []).
Proof.
  destruct (decide (start = end_)) as [->|Hne].
  - exists [end_]. rewrite find_path_same.
    split; [done |]. split; [apply is_path_exists_true | by repeat split].
  - destruct (find_path_correct g start end_ Hne) as (l & Hl & Hcases).
    exists l. split; [done |]. split; [apply is_path_exists_true |].
    split; [done |]. split.
    + intros _ Hr. destruct Hcases as [[_ Hn]|[Hnil [Hw Hlast]]]; [done |].
      destruct l as [|first rest]; [done |].
      destruct (walk_cells _ _ _ Hw) as [Hc Hf].
      split; [| split; [| split; [| split]]].
      * exists first, rest. split; [done | apply Hw].
      * by rewrite last_cons_cons in Hlast.
      * done.
      * by apply consecutive_adjacent_tail in Hc.
      * done.
    + intros _ Hn. destruct Hcases as [[? _]|[_ Hw]]; [done |].
      exfalso. by apply Hn, (walk_to_reachable _ _ l).
Qed.

(** The two searches agree. [find_path a b] and [is_path_exists a b] always
    return, and the list is empty exactly when the search answers false. For
    [a = b] the list is [[a]]. For [a ≠ b] a non-empty list is a walk from
    [a] to [b], which no shortest walk exceeds in length. *)
Theorem find_path_empty_iff_no_path (g : Grid) (a b : pos) :
  ∃ l r, find_path g a b = Ok l ∧ is_path_exists g a b = Ok r ∧
    (l = [] ↔ r = false) ∧
    (a = b → l = [a]) ∧
    (a ≠ b → l ≠ [] → walk_to g a l b ∧
       ∀ n, shortest_distance g a b n → (n ≤ length l)%nat).
Proof.
  destruct (is_path_exists_correct g a b) as (r & Hr & Hreach).
  destruct (decide (a = b)) as [->|Hne].
  - exists [b], true. rewrite find_path_same. split; [done |].
    split; [| by repeat split].
    unfold is_path_exists. by rewrite decide_True.
  - destruct (find_path_correct g a b Hne) as (l & Hl & Hcases).
    exists l, r. split; [done |]. split; [done |]. split; [| split; [done |]].
    + destruct Hcases as [[-> Hn]|[Hnil Hw]].
      * split; [| done]. intros _. destruct r; [| done].
        exfalso. by apply Hn, Hreach.
      * split; [done |]. intros ->. exfalso.
        assert (false = true) by (apply Hreach; by eapply walk_to_reachable).
        done.
    + intros _ Hnil. destruct Hcases as [[? _]|[_ Hw]]; [done |].
      split; [done |]. intros n [_ Hmin]. by apply Hmin.
Qed.

(** Where the two positions are equal the list is [[a]], as the early
    return of [find_path] has it: its length is 1 and the distance is 0. *)
Lemma find_path_length_not_distance :
  let g := blank_grid 3 3 EASY in
  find_path g (0, 0) (0, 0) = Ok [(0, 0)] ∧
  is_path_exists g (0, 0) (0, 0) = Ok true ∧
  shortest_distance g (0, 0) (0, 0) 0 ∧
  ¬ shortest_distance g (0, 0) (0, 0) (length [(0, 0)]).
Proof.
  split; [done |]. split; [done |]. split.
  - split; [by exists [] |]. intros l _. lia.
  - intros [_ Hmin]. specialize (Hmin [] (conj I eq_refl)). simpl in Hmin. lia.
Qed.

(** A walk of 5 steps exists where [find_path] returns one of 7: between
    distinct positions the list need not be a shortest one. The better cost of
    a cell that is already in the heap does not change its priority there. *)
Lemma find_path_not_shortest :
  let g := with_obstacles (blank_grid 3 7 EASY) [(0, 4); (1, 2); (2, 6)] in
  find_path g (2, 5) (1, 1)
    = Ok [(1, 5); (1, 4); (1, 3); (0, 3); (0, 2); (0, 1); (1, 1)] ∧
  walk_to g (2, 5) [(2, 4); (2, 3); (2, 2); (2, 1); (1, 1)] (1, 1).
Proof.
  intros g. split; [vm_compute; reflexivity |].
  split; [| reflexivity]. cbn [walk].
  repeat (split; [apply (bool_decide_unpack _); vm_compute; exact I |]). exact I.
Qed.

(** ** The order of the heap *)

Lemma entry_ltb_false a b : entry_ltb a b = false ↔ entry_le b a.
Proof.
  destruct a as [fa [xa ya]], b as [fb [xb yb]]. unfold entry_ltb, entry_le. simpl.
  destruct (fa <? fb) eqn:E1, (fa =? fb) eqn:E2, (xa <? xb) eqn:E3,
    (xa =? xb) eqn:E4, (ya <? yb) eqn:E5; simpl; split; try done; lia.
Qed.

Lemma entry_ltb_true a b : entry_ltb a b = true → entry_le a b.
Proof.
  destruct a as [fa [xa ya]], b as [fb [xb yb]]. unfold entry_ltb, entry_le. simpl.
  destruct (fa <? fb) eqn:E1, (fa =? fb) eqn:E2, (xa <? xb) eqn:E3,
    (xa =? xb) eqn:E4, (ya <? yb) eqn:E5; simpl; try done; lia.
Qed.

Lemma entry_le_trans a b c : entry_le a b → entry_le b c → entry_le a c.
Proof.
  destruct a as [fa [xa ya]], b as [fb [xb yb]], c as [fc [xc yc]].
  unfold entry_le. simpl. lia.
Qed.

Lemma entry_le_refl a : entry_le a a.
Proof. destruct a as [fa [xa ya]]. unfold entry_le. simpl. lia. Qed.

Lemma heap_min_least heap : ∀ m b, b ∈ m :: heap → entry_le (heap_min m heap) b.
Proof.
  induction heap as [|item heap IH]; intros m b Hb; simpl.
  - apply list_elem_of_singleton in Hb as ->. apply entry_le_refl.
  - set (m' := if entry_ltb item m then item else m).
    assert (entry_le m' m ∧ entry_le m' item) as [Hm Hi].
    { subst m'. destruct (entry_ltb item m) eqn:E.
      - split; [by apply entry_ltb_true | apply entry_le_refl].
      - split; [apply entry_le_refl | by apply entry_ltb_false]. }
    apply elem_of_cons in Hb as [->|[->|Hb]%elem_of_cons].
    + eapply entry_le_trans; [| exact Hm]. apply IH. set_solver.
    + eapply entry_le_trans; [| exact Hi]. apply IH. set_solver.
    + apply IH. set_solver.
Qed.

(** C4, as the code has it. [heappop] returns an item of the heap that is least
    in the order of the tuples [(f, (x, y))]: no item has a smaller f-score,
    and among the items of equal f-score it is the one of least position, by
    [x] and then by [y], wherever it stands in the order of insertion. *)
Theorem heappop_least_tuple (heap heap' : list (Z * pos)) (m : Z * pos) :
  heappop heap = Some (m, heap') →
  m ∈ heap ∧ heap ≡ₚ m :: heap' ∧
  ∀ b, b ∈ heap →
    m.1 ≤ b.1 ∧
    (b.1 = m.1 → m.2.1 < b.2.1 ∨ (m.2.1 = b.2.1 ∧ m.2.2 ≤ b.2.2)).
Proof.
  intros Hpop. pose proof (heappop_perm _ _ _ Hpop) as Hperm.
  split; [rewrite Hperm; set_solver |]. split; [done |].
  destruct heap as [|item heap]; [done |].
  unfold heappop in Hpop. inversion Hpop as [[Hm Hh]].
  intros b Hb. pose proof (heap_min_least heap item b Hb) as Hle.
  unfold entry_le in Hle. lia.
Qed.

Lemma heappop_least_tuple_witness :
  let heap := [(18, (9, 8)); (18, (8, 9))] in
  let m := (18, (8, 9)) in
  heappop heap = Some (m, [(18, (9, 8))]) ∧
  (m ∈ heap ∧ heap ≡ₚ m :: [(18, (9, 8))] ∧
   ∀ b, b ∈ heap →
     m.1 ≤ b.1 ∧
     (b.1 = m.1 → m.2.1 < b.2.1 ∨ (m.2.1 = b.2.1 ∧ m.2.2 ≤ b.2.2))).
Proof.
  split; [reflexivity |]. apply heappop_least_tuple. reflexivity.
Defined.

(** C4, as stated, fails: in the first iteration of [find_path] from (9, 9) to
    (0, 0) on the empty 10×10 grid the loop over the neighbors pushes (9, 8)
    and then (8, 9), both with f-score 18, and the next [heappop] returns
    (8, 9), which was inserted last. *)
Lemma heappop_not_insertion_order :
  let g := blank_grid 10 10 EASY in
  let st0 := astar_init (9, 9) (0, 0) in
  heappop (open_set st0) = Some ((0, (9, 9)), []) ∧
  get_neighbors g (9, 9) = [(9, 8); (8, 9)] ∧
  ∃ st1,
    for_each (relax (0, 0) (9, 9))
      (mkAStar [] ({[(9, 9)]} ∪ closed_set st0)
               (came_from st0) (g_score st0) (f_score st0))
      (get_neighbors g (9, 9)) = Ok st1 ∧
    open_set st1 = [(18, (9, 8)); (18, (8, 9))] ∧
    heappop (open_set st1) = Some ((18, (8, 9)), [(18, (9, 8))]).
Proof.
  split; [reflexivity |]. split; [reflexivity |].
  eexists. split; [vm_compute; reflexivity |]. split; reflexivity.
Qed.

(** ** The pursuit turn *)

Lemma choice_elem {A} (r : nat) (l : list A) :
  l ≠ [] → ∃ a, choice r l = Ok a ∧ a ∈ l.
Proof.
  intros Hl. unfold choice.
  assert (r mod length l < length l)%nat as Hlt.
  { apply Nat.mod_upper_bound. by destruct l. }
  destruct (lookup_lt_is_Some_2 l _ Hlt) as [a Ha].
  exists a. rewrite Ha. split; [done |]. by eapply list_elem_of_lookup_2.
Qed.

Lemma step_to_grid t p moved caught :
  grid (step_to t p moved caught).1 = with_ai_pos (grid t) p.
Proof.
  unfold step_to. simpl. by destruct (decide (p = player_pos (grid t))).
Qed.

Lemma step_to_outcome t p moved caught :
  moved ≠ GameOverMsg → moved ≠ CouldNotMove →
  outcome (step_to t p moved caught) =
    if decide (p = player_pos (grid t)) then Captured else Moved p.
Proof.
  intros H1 H2. unfold step_to, outcome. simpl.
  destruct (decide (p = player_pos (grid t))); simpl.
  - rewrite decide_True; [done | set_solver].
  - rewrite decide_False by set_solver. rewrite decide_False by set_solver. done.
Qed.

Lemma no_neighbors_no_path g start end_ :
  start ≠ end_ → get_neighbors g start = [] → find_path g start end_ = Ok [].
Proof.
  intros Hne Hn. destruct (find_path_correct g start end_ Hne)
    as (l & -> & [[-> _]|[Hl [Hw _]]]); [done |].
  destruct l as [|a l]; [done |]. destruct Hw as [Ha _].
  rewrite Hn in Ha. by apply elem_of_nil in Ha.
Qed.

Lemma no_neighbors_no_move g p :
  get_neighbors g p = [] →
  is_valid_move g (up p) = false ∧ is_valid_move g (right p) = false ∧
  is_valid_move g (down p) = false ∧ is_valid_move g (left p) = false.
Proof.
  rewrite get_neighbors_unfold.
  destruct (is_valid_move g (up p)), (is_valid_move g (right p)),
    (is_valid_move g (down p)), (is_valid_move g (left p)); done.
Qed.

(** C6. When the pursuer already stands on the player, [move_ai] calls
    [game_over], which is the signal of a capture, and leaves [ai_pos] as it
    was. *)
Theorem move_ai_already_on_player (r : nat) (t : TowerTrek) :
  ai_pos (grid t) = player_pos (grid t) →
  ∃ t' out, move_ai r t = Ok (t', out) ∧
    outcome (t', out) = Captured ∧
    state t' = GAME_OVER ∧ ai_won t' = true ∧
    ai_pos (grid t') = ai_pos (grid t).
Proof.
  intros Heq. unfold move_ai. rewrite decide_True by done. simpl.
  eexists _, _. split; [reflexivity |]. by repeat split.
Qed.

Lemma move_ai_already_on_player_witness :
  let t := mkTowerTrek PLAYING EASY 1 0 3
             (with_ai_pos (blank_grid 3 3 EASY) (0, 0)) false in
  ai_pos (grid t) = player_pos (grid t) ∧
  ∃ t' out, move_ai 0 t = Ok (t', out) ∧
    outcome (t', out) = Captured ∧
    state t' = GAME_OVER ∧ ai_won t' = true ∧
    ai_pos (grid t') = ai_pos (grid t).
Proof.
  split; [reflexivity |]. apply move_ai_already_on_player. reflexivity.
Defined.

(** C7. When the pursuer is not on the player and has no neighbor,
    [move_ai] takes its last branch: nothing of the game changes, [ai_pos]
    included, and the turn is stalled. *)
Theorem move_ai_boxed_in (r : nat) (t : TowerTrek) :
  ai_pos (grid t) ≠ player_pos (grid t) →
  get_neighbors (grid t) (ai_pos (grid t)) = [] →
  move_ai r t = Ok (t, [CouldNotMove]) ∧
  outcome (t, [CouldNotMove]) = Stalled.
Proof.
  intros Hne Hn. split; [| done].
  unfold move_ai. rewrite decide_False by done.
  rewrite (no_neighbors_no_path _ _ _ Hne Hn). simpl.
  destruct (no_neighbors_no_move _ _ Hn) as (Hu & Hr & Hd & Hl).
  rewrite Hn. destruct (ai_pos (grid t)) as [ai_x ai_y].
  destruct (player_pos (grid t)) as [player_x player_y].
  unfold up, right, down, left in *. simpl in *.
  rewrite Hu, Hr, Hd, Hl. rewrite !andb_false_r. done.
Qed.

Lemma move_ai_boxed_in_witness :
  let g := with_obstacles (blank_grid 3 3 EASY) [(1, 2); (2, 1)] in
  let t := mkTowerTrek PLAYING EASY 1 0 3 g false in
  ai_pos (grid t) ≠ player_pos (grid t) ∧
  get_neighbors (grid t) (ai_pos (grid t)) = [] ∧
  move_ai 0 t = Ok (t, [CouldNotMove]) ∧
  outcome (t, [CouldNotMove]) = Stalled.
Proof.
  assert (ai_pos (with_obstacles (blank_grid 3 3 EASY) [(1, 2); (2, 1)])
          ≠ player_pos (with_obstacles (blank_grid 3 3 EASY) [(1, 2); (2, 1)]))
    as Hne by (vm_compute; discriminate).
  split; [exact Hne |]. split; [reflexivity |].
  apply move_ai_boxed_in; [exact Hne | reflexivity].
Defined.

(** C8. On the 10×10 grid without obstacles, with the pursuer at (9, 9) and the
    player at (0, 0), one call of [move_ai] moves the pursuer to (8, 9), one
    of the two cells (8, 9) and (9, 8), and the turn is a move, neither a
    capture nor a stall; no random draw is used. *)
Theorem move_ai_open_grid (r : nat) (t : TowerTrek) (d : Difficulty) :
  let g := blank_grid 10 10 d in
  ai_pos g = (9, 9) ∧ player_pos g = (0, 0) ∧
  (∀ p, in_bounds g p → is_valid_move g p = true) ∧
  ∃ t' out, move_ai r (with_grid t g) = Ok (t', out) ∧
    (ai_pos (grid t') = (8, 9) ∨ ai_pos (grid t') = (9, 8)) ∧
    outcome (t', out) = Moved (ai_pos (grid t')) ∧
    state t' = state t.
Proof.
  intros g. split; [done |]. split; [done |]. split.
  - intros [x y] [Hx Hy]. simpl in *.
    assert (x ∈ seqZ 0 10) as Hxs by (apply elem_of_seqZ; lia).
    assert (y ∈ seqZ 0 10) as Hys by (apply elem_of_seqZ; lia).
    vm_compute in Hxs, Hys.
    repeat (apply elem_of_cons in Hxs as [->|Hxs]);
      try (by apply elem_of_nil in Hxs);
      repeat (apply elem_of_cons in Hys as [->|Hys]);
      try (by apply elem_of_nil in Hys); reflexivity.
  - eexists _, _. split; [vm_compute; reflexivity |].
    split; [by left |]. done.
Qed.

Example move_ai_open_grid_cell r t d :
  ∃ t', move_ai r (with_grid t (blank_grid 10 10 d))
          = Ok (t', [MovedPathfinding (8, 9)]) ∧
        ai_pos (grid t') = (8, 9).
Proof. eexists. split; [vm_compute; reflexivity | reflexivity]. Qed.

(** C10. A pursuer that stands on an in-bounds, non-obstacle cell before
    [move_ai] stands on one after it, whatever the random draw: the call
    returns, changes nothing of the grid but [ai_pos], and the new [ai_pos]
    is the old one or a cell cardinally adjacent to it. *)
Theorem move_ai_one_step (r : nat) (t : TowerTrek) :
  in_bounds (grid t) (ai_pos (grid t)) →
  non_obstacle (grid t) (ai_pos (grid t)) →
  ∃ t' out, move_ai r t = Ok (t', out) ∧
    grid t' = with_ai_pos (grid t) (ai_pos (grid t')) ∧
    in_bounds (grid t') (ai_pos (grid t')) ∧
    non_obstacle (grid t') (ai_pos (grid t')) ∧
    (ai_pos (grid t') = ai_pos (grid t) ∨
     cardinally_adjacent (ai_pos (grid t)) (ai_pos (grid t'))).
Proof.
  intros Hb Ho.
  assert (is_valid_move (grid t) (ai_pos (grid t)) = true) as Hvalid
    by (by apply is_valid_move_iff).
  assert (grid t = with_ai_pos (grid t) (ai_pos (grid t))) as Hsame
    by (by destruct (grid t)).
  assert (∀ p moved caught,
    is_valid_move (grid t) p = true →
    cardinally_adjacent (ai_pos (grid t)) p →
    ∃ t' out, Ok (step_to t p moved caught) = Ok (t', out) ∧
      grid t' = with_ai_pos (grid t) (ai_pos (grid t')) ∧
      in_bounds (grid t') (ai_pos (grid t')) ∧
      non_obstacle (grid t') (ai_pos (grid t')) ∧
      (ai_pos (grid t') = ai_pos (grid t) ∨
       cardinally_adjacent (ai_pos (grid t)) (ai_pos (grid t')))) as Hstep.
  { intros p moved caught Hp Hadj.
    exists (step_to t p moved caught).1, (step_to t p moved caught).2.
    split; [by destruct (step_to t p moved caught) |].
    rewrite step_to_grid. simpl. split; [done |].
    apply is_valid_move_iff in Hp as [? ?]. split; [done |]. split; [done |].
    by right. }
  unfold move_ai. destruct (decide (ai_pos (grid t) = player_pos (grid t))) as [Heq|Hne].
  { simpl. eexists _, _. split; [reflexivity |]. simpl.
    split; [done |]. split; [done |]. split; [done |]. by left. }
  destruct (find_path_correct (grid t) _ _ Hne) as (l & -> & Hcases). simpl.
  destruct l as [|first rest].
  2:{ destruct Hcases as [[? _]|[_ [[Hf _] _]]]; [done |].
      apply neighbor_step in Hf as [? ?]. by apply Hstep. }
  destruct (ai_pos (grid t)) as [ai_x ai_y] eqn:Hai.
  destruct (player_pos (grid t)) as [player_x player_y] eqn:Hpl.
  match goal with
  | |- context [match ?pm with [] => _ | _ :: _ => _ end] =>
    set (possible_moves := pm)
  end.
  assert (∀ p, p ∈ possible_moves →
            is_valid_move (grid t) p = true ∧ cardinally_adjacent (ai_x, ai_y) p)
    as Hpm.
  { intros p Hp. subst possible_moves. unfold cardinally_adjacent. simpl.
    destruct ((ai_x <? player_x) && is_valid_move (grid t) (ai_x + 1, ai_y)) eqn:E1;
    [| destruct ((ai_x >? player_x) && is_valid_move (grid t) (ai_x - 1, ai_y)) eqn:E2];
    (destruct ((ai_y <? player_y) && is_valid_move (grid t) (ai_x, ai_y + 1)) eqn:E3;
     [| destruct ((ai_y >? player_y) && is_valid_move (grid t) (ai_x, ai_y - 1)) eqn:E4]);
    simpl in Hp;
    repeat (apply elem_of_cons in Hp as [->|Hp]);
    try (by apply elem_of_nil in Hp);
    repeat match goal with
           | H : _ && _ = true |- _ => apply andb_true_iff in H as [_ H]
           end;
    (split; [done | simpl; lia]). }
  destruct possible_moves as [|m ms] eqn:Epm.
  - destruct (get_neighbors (grid t) (ai_x, ai_y)) as [|n ns] eqn:En.
    + eexists _, _. split; [reflexivity |]. simpl. rewrite Hai.
      split; [done |]. split; [done |]. split; [done |]. by left.
    + destruct (choice_elem r (n :: ns)) as (p & -> & Hp); [done |]. simpl.
      rewrite <- En in Hp. apply neighbor_step in Hp as [? ?]. by apply Hstep.
  - destruct (choice_elem r (m :: ms)) as (p & -> & Hp); [done |]. simpl.
    apply Hpm in Hp as [? ?]. by apply Hstep.
Qed.

Lemma move_ai_one_step_witness :
  let t := mkTowerTrek PLAYING EASY 1 0 3 (blank_grid 3 3 EASY) false in
  in_bounds (grid t) (ai_pos (grid t)) ∧
  non_obstacle (grid t) (ai_pos (grid t)) ∧
  ∃ t' out, move_ai 0 t = Ok (t', out) ∧
    grid t' = with_ai_pos (grid t) (ai_pos (grid t')) ∧
    in_bounds (grid t') (ai_pos (grid t')) ∧
    non_obstacle (grid t') (ai_pos (grid t')) ∧
    (ai_pos (grid t') = ai_pos (grid t) ∨
     cardinally_adjacent (ai_pos (grid t)) (ai_pos (grid t'))).
Proof.
  assert (in_bounds (blank_grid 3 3 EASY) (2, 2)) as Hb
    by (unfold in_bounds; simpl; lia).
  assert (non_obstacle (blank_grid 3 3 EASY) (2, 2)) as Ho
    by (eexists; split; [vm_compute; reflexivity | reflexivity]).
  split; [exact Hb |]. split; [exact Ho |].
  apply move_ai_one_step; [exact Hb | exact Ho].
Defined.

(** ** Reading and writing the cells *)

Lemma py_index_nonneg {A} (l : list A) (i : Z) :
  0 ≤ i →
  py_index l i = match l !! Z.to_nat i with
                 | Some a => Ok a
                 | None => Raise IndexError
                 end.
Proof.
  intros Hi. unfold py_index, py_norm.
  destruct (i <? 0) eqn:E; [lia |]. simpl. rewrite E. simpl.
  destruct (Z.of_nat (length l) <=? i) eqn:E'; [| done].
  rewrite lookup_ge_None_2; [done | lia].
Qed.

Lemma py_store_nonneg {A} (l : list A) (i : Z) (v : A) :
  0 ≤ i → py_store l i v = <[Z.to_nat i := v]> l.
Proof. intros Hi. unfold py_store, py_norm. by destruct (i <? 0) eqn:E; [lia |]. Qed.

Lemma read_cell_nonneg cs x y :
  0 ≤ x → 0 ≤ y →
  read_cell cs x y = match cs !! Z.to_nat x with
                     | Some col => match col !! Z.to_nat y with
                                   | Some c => Ok c
                                   | None => Raise IndexError
                                   end
                     | None => Raise IndexError
                     end.
Proof.
  intros Hx Hy. unfold read_cell. rewrite py_index_nonneg by done.
  destruct (cs !! Z.to_nat x) as [col|]; [| done]. simpl.
  by rewrite py_index_nonneg.
Qed.

Lemma update_cell_nonneg cs x y f cs' :
  0 ≤ x → 0 ≤ y → update_cell cs x y f = Ok cs' →
  ∃ col c, cs !! Z.to_nat x = Some col ∧ col !! Z.to_nat y = Some c ∧
           cs' = <[Z.to_nat x := <[Z.to_nat y := f c]> col]> cs.
Proof.
  intros Hx Hy. unfold update_cell. rewrite py_index_nonneg by done.
  destruct (cs !! Z.to_nat x) as [col|] eqn:Hcol; [| done]. simpl.
  rewrite py_index_nonneg by done.
  destruct (col !! Z.to_nat y) as [c|] eqn:Hc; [| done]. simpl.
  rewrite !py_store_nonneg by done. intros [= <-]. eauto.
Qed.

Lemma read_update_cell cs x y f cs' x' y' :
  0 ≤ x → 0 ≤ y → 0 ≤ x' → 0 ≤ y' →
  update_cell cs x y f = Ok cs' →
  read_cell cs' x' y' =
    if decide (x' = x ∧ y' = y) then c ← read_cell cs x y; Ok (f c)
    else read_cell cs x' y'.
Proof.
  intros Hx Hy Hx' Hy' Hup.
  destruct (update_cell_nonneg _ _ _ _ _ Hx Hy Hup) as (col & c & Hcol & Hc & ->).
  rewrite !read_cell_nonneg by done.
  pose proof (lookup_lt_Some _ _ _ Hcol) as Hlx.
  pose proof (lookup_lt_Some _ _ _ Hc) as Hly.
  destruct (decide (x' = x ∧ y' = y)) as [[-> ->]|Hne].
  - rewrite list_lookup_insert_eq by done.
    rewrite list_lookup_insert_eq by done. by rewrite Hcol, Hc.
  - destruct (decide (x' = x)) as [->|Hxx].
    + rewrite list_lookup_insert_eq by done. rewrite Hcol.
      rewrite list_lookup_insert_ne; [done |]. intros ?. apply Hne. split; [done | lia].
    + rewrite list_lookup_insert_ne; [done | lia].
Qed.

Lemma read_blank_cells w h x y :
  0 ≤ x < w → 0 ≤ y < h →
  read_cell (blank_cells w h) x y = Ok (mkCell x y false false false).
Proof.
  intros Hx Hy. rewrite read_cell_nonneg by lia. unfold blank_cells, range.
  rewrite list_lookup_fmap, lookup_seqZ_lt by lia. simpl.
  rewrite list_lookup_fmap, lookup_seqZ_lt by lia. simpl.
  do 2 f_equal; lia.
Qed.

Lemma blank_cells_all_free w h : all_free (blank_cells w h) w h.
Proof. intros x y Hx Hy. rewrite read_blank_cells by done. eauto. Qed.

Lemma update_cell_full cs x y f cs' w h :
  0 ≤ x → 0 ≤ y → update_cell cs x y f = Ok cs' → full cs w h → full cs' w h.
Proof.
  intros Hx Hy Hup Hfull x' y' Hx' Hy'.
  rewrite (read_update_cell _ _ _ _ _ _ _ Hx Hy (proj1 Hx') (proj1 Hy') Hup).
  destruct (decide (x' = x ∧ y' = y)) as [[-> ->]|Hne]; [| by apply Hfull].
  destruct (Hfull x y Hx' Hy') as [c ->]. simpl. eauto.
Qed.

Lemma update_cell_all_free cs x y f cs' w h :
  0 ≤ x → 0 ≤ y → (∀ c, is_obstacle (f c) = is_obstacle c) →
  update_cell cs x y f = Ok cs' → all_free cs w h → all_free cs' w h.
Proof.
  intros Hx Hy Hf Hup Hfree x' y' Hx' Hy'.
  rewrite (read_update_cell _ _ _ _ _ _ _ Hx Hy (proj1 Hx') (proj1 Hy') Hup).
  destruct (decide (x' = x ∧ y' = y)) as [[-> ->]|Hne]; [| by apply Hfree].
  destruct (Hfree x y Hx' Hy') as (c & -> & Hc). simpl.
  exists (f c). by rewrite Hf.
Qed.

Lemma all_free_full cs w h : all_free cs w h → full cs w h.
Proof. intros H x y Hx Hy. destruct (H x y Hx Hy) as (c & ? & _). eauto. Qed.

Lemma update_cell_undo cs x y c cs1 cs2 :
  0 ≤ x → 0 ≤ y →
  read_cell cs x y = Ok c → is_obstacle c = false →
  update_cell cs x y (set_is_obstacle true) = Ok cs1 →
  update_cell cs1 x y (set_is_obstacle false) = Ok cs2 →
  cs2 = cs.
Proof.
  intros Hx Hy Hread Hc Hup1 Hup2.
  destruct (update_cell_nonneg _ _ _ _ _ Hx Hy Hup1)
    as (col & c1 & Hcol & Hc1 & ->).
  destruct (update_cell_nonneg _ _ _ _ _ Hx Hy Hup2)
    as (col' & c2 & Hcol' & Hc2 & ->).
  rewrite read_cell_nonneg, Hcol, Hc1 in Hread by done.
  inversion Hread; subst c1.
  pose proof (lookup_lt_Some _ _ _ Hcol) as Hlx.
  pose proof (lookup_lt_Some _ _ _ Hc1) as Hly.
  rewrite list_lookup_insert_eq in Hcol' by done. inversion Hcol'; subst col'.
  rewrite list_lookup_insert_eq in Hc2 by done. inversion Hc2; subst c2.
  rewrite !list_insert_insert_eq.
  assert (set_is_obstacle false (set_is_obstacle true c) = c) as ->
    by (destruct c; simpl in *; by subst).
  by rewrite (list_insert_id col), (list_insert_id cs).
Qed.

(** ** A grid without obstacles is connected *)

Lemma reachable_right g x y (k : nat) :
  (∀ i, x < i ≤ x + Z.of_nat k → is_valid_move g (i, y) = true) →
  reachable g (x, y) (x + Z.of_nat k, y).
Proof.
  induction k as [|k IH]; intros Hv.
  - replace (x + Z.of_nat 0) with x by lia. apply rtc_refl.
  - eapply reachable_step; [apply IH; intros i Hi; apply Hv; lia |].
    apply elem_of_get_neighbors. split.
    + unfold up, right, down, left. simpl.
      replace (x + Z.of_nat (S k)) with (x + Z.of_nat k + 1) by lia. set_solver.
    + apply Hv. lia.
Qed.

Lemma reachable_up g x y (k : nat) :
  (∀ j, y - Z.of_nat k ≤ j < y → is_valid_move g (x, j) = true) →
  reachable g (x, y) (x, y - Z.of_nat k).
Proof.
  induction k as [|k IH]; intros Hv.
  - replace (y - Z.of_nat 0) with y by lia. apply rtc_refl.
  - eapply reachable_step; [apply IH; intros j Hj; apply Hv; lia |].
    apply elem_of_get_neighbors. split.
    + unfold up, right, down, left. simpl.
      replace (y - Z.of_nat (S k)) with (y - Z.of_nat k - 1) by lia. set_solver.
    + apply Hv. lia.
Qed.

Lemma all_free_valid g p :
  all_free (cells g) (width g) (height g) → in_bounds g p →
  is_valid_move g p = true.
Proof.
  intros Hfree Hb. apply is_valid_move_iff. split; [done |].
  destruct Hb as [Hx Hy]. by apply Hfree.
Qed.

Lemma all_free_connected g :
  all_free (cells g) (width g) (height g) →
  1 ≤ width g → 1 ≤ height g →
  reachable g (0, height g - 1) (width g - 1, 0).
Proof.
  intros Hfree Hw Hh.
  unfold reachable. eapply rtc_trans; fold (reachable g).
  - pose proof (reachable_right g 0 (height g - 1) (Z.to_nat (width g - 1))) as H.
    rewrite Z2Nat.id in H by lia. apply H.
    intros i Hi. apply all_free_valid; [done |]. unfold in_bounds. simpl. lia.
  - pose proof (reachable_up g (0 + (width g - 1)) (height g - 1)
                  (Z.to_nat (height g - 1))) as H.
    rewrite Z2Nat.id in H by lia.
    replace (height g - 1 - (height g - 1)) with 0 in H by lia.
    replace (0 + (width g - 1)) with (width g - 1) in * by lia. apply H.
    intros j Hj. apply all_free_valid; [done |]. unfold in_bounds. simpl. lia.
Qed.

(** ** Generation keeps the goal reachable *)

Lemma bind_Ok {A B} (m : result A) (f : A → result B) (b : B) :
  m ≫= f = Ok b → ∃ a, m = Ok a ∧ f a = Ok b.
Proof. destruct m as [a| |]; [eauto | done | done]. Qed.

Lemma randint_range a b r x : randint a b r = Ok x → a ≤ x ≤ b.
Proof.
  unfold randint. destruct (b <? a) eqn:E; [done |]. intros [= <-].
  pose proof (Z.mod_pos_bound (Z.of_nat r) (b - a + 1)). lia.
Qed.

Lemma place_obstacles_inv : ∀ (n : nat) draws g placed num g',
  (length draws ≤ n)%nat →
  place_obstacles draws g placed num = Ok g' →
  gen_inv g → gen_inv g' ∧ same_frame g g'.
Proof.
  induction n as [|n IH]; intros draws g placed num g' Hlen Hplace Hinv.
  - destruct draws; [| simpl in Hlen; lia].
    cbn [place_obstacles] in Hplace.
    destruct (placed <? num); [done |]. inversion Hplace; subst.
    split; [done | by repeat split].
  - destruct draws as [|rx [|ry draws]]; cbn [place_obstacles] in Hplace;
      (destruct (placed <? num);
       [| inversion Hplace; subst; split; [done | by repeat split]]);
      [done | done |].
    assert (length draws ≤ n)%nat as Hlen' by (simpl in Hlen; lia).
    apply bind_Ok in Hplace as (x & Hx%randint_range & Hplace).
    apply bind_Ok in Hplace as (y & Hy%randint_range & Hplace).
    match type of Hplace with
    | (if ?b then _ else _) = _ => destruct b
    end; [by eapply IH |].
    apply bind_Ok in Hplace as (c & Hc & Hplace).
    destruct (is_obstacle c) eqn:Hobs; [by eapply IH |].
    apply bind_Ok in Hplace as (cs1 & Hcs1 & Hplace).
    apply bind_Ok in Hplace as (reach & Hreach & Hplace).
    destruct reach; simpl in Hplace.
    + destruct (IH _ _ _ _ _ Hlen' Hplace) as [Hinv' Hframe].
      * split; [| done]. simpl.
        eapply update_cell_full; [| | exact Hcs1 | apply Hinv]; lia.
      * split; [done |]. unfold same_frame in *. by simpl in Hframe.
    + apply bind_Ok in Hplace as (cs2 & Hcs2 & Hplace). simpl in Hcs2.
      assert (cs2 = cells g) as ->
        by (eapply (update_cell_undo (cells g) x y c cs1); [lia | lia | done..]).
      assert (with_cells (with_cells g cs1) (cells g) = g) as Hg
        by (by destruct g).
      rewrite Hg in Hplace. by eapply IH.
Qed.

Lemma Grid_init_IndexError w h d draws :
  w ≤ 0 ∨ h ≤ 0 → Grid_init w h d draws = Raise IndexError.
Proof.
  intros Hwh. unfold Grid_init, generate_grid.
  change (cells (blank_grid w h d)) with (blank_cells w h).
  assert (update_cell (blank_cells w h) 0 0 (set_is_start true)
          = Raise IndexError) as ->; [| done].
  unfold update_cell. rewrite py_index_nonneg by done.
  destruct (Z_le_gt_dec w 0) as [Hw|Hw].
  - unfold blank_cells, range. by rewrite (seqZ_nil 0 w).
  - destruct Hwh as [?|Hh]; [lia |].
    unfold blank_cells, range.
    rewrite list_lookup_fmap, lookup_seqZ_lt by (simpl; lia).
    by rewrite (seqZ_nil 0 h).
Qed.

Lemma Grid_init_inv w h d draws g :
  Grid_init w h d draws = Ok g →
  1 ≤ w ∧ 1 ≤ h ∧ gen_inv g ∧
  width g = w ∧ height g = h ∧ difficulty g = d ∧
  player_pos g = (0, h - 1) ∧ ai_pos g = (w - 1, h - 1) ∧ goal_pos g = (w - 1, 0).
Proof.
  intros Hinit.
  assert (1 ≤ w ∧ 1 ≤ h) as [Hw Hh].
  { destruct (Z_le_gt_dec w 0); [| destruct (Z_le_gt_dec h 0); [| lia]];
      rewrite Grid_init_IndexError in Hinit by auto; done. }
  split; [done |]. split; [done |].
  unfold Grid_init, generate_grid, blank_grid in Hinit. simpl in Hinit.
  apply bind_Ok in Hinit as (cs1 & Hcs1 & Hinit).
  apply bind_Ok in Hinit as (cs2 & Hcs2 & Hinit).
  apply bind_Ok in Hinit as (num & _ & Hinit).
  assert (all_free cs2 w h) as Hfree.
  { eapply update_cell_all_free; [| | | exact Hcs2 |]; [lia | lia | done |].
    eapply update_cell_all_free; [| | | exact Hcs1 |]; [lia | lia | done |].
    apply blank_cells_all_free. }
  eapply place_obstacles_inv in Hinit as [Hinv Hframe]; [| done |].
  - destruct Hframe as (? & ? & ? & ? & ? & ?). simpl in *.
    split; [done |]. by repeat split.
  - split; [by apply all_free_full |]. simpl.
    apply is_path_exists_true.
    by apply (all_free_connected (mkGrid w h d cs2 _ _ _)).
Qed.

(** Every cell of a grid that the constructor returns can be read, so that
    [is_valid_move] never falls into its last branch. *)
Lemma Grid_init_shape w h d draws g p :
  Grid_init w h d draws = Ok g → in_bounds g p →
  ∃ c, read_cell (cells g) p.1 p.2 = Ok c.
Proof.
  intros Hinit [Hx Hy].
  destruct (Grid_init_inv _ _ _ _ _ Hinit) as (_ & _ & [Hfull _] & _).
  by apply Hfull.
Qed.

(** C1. Every grid that generation returns, for a width and a height of at
    least 2, for each of the three difficulties and whatever the random
    draws, has a walkable path from [player_pos] to [goal_pos]:
    [is_path_exists] answers true on it. *)
Theorem generated_grid_solvable (w h : Z) (d : Difficulty) (draws : list nat)
    (g : Grid) :
  2 ≤ w → 2 ≤ h →
  Grid_init w h d draws = Ok g →
  is_path_exists g (player_pos g) (goal_pos g) = Ok true ∧
  reachable g (player_pos g) (goal_pos g) ∧
  player_pos g = (0, h - 1) ∧ goal_pos g = (w - 1, 0).
Proof.
  intros _ _ Hinit.
  destruct (Grid_init_inv _ _ _ _ _ Hinit)
    as (_ & _ & [_ Hpath] & _ & _ & _ & Hp & _ & Hg).
  split; [done |]. split; [by apply is_path_exists_true | done].
Qed.

Lemma generated_grid_solvable_witness :
  2 ≤ 3 ∧ 2 ≤ 3 ∧
  ∃ g, Grid_init 3 3 EASY [1; 1]%nat = Ok g ∧
       (c ← read_cell (cells g) 1 1; Ok (is_obstacle c)) = Ok true ∧
       is_path_exists g (player_pos g) (goal_pos g) = Ok true.
Proof.
  split; [lia |]. split; [lia |]. eexists. split; [vm_compute; reflexivity |].
  split; [reflexivity |].
  apply (generated_grid_solvable 3 3 EASY [1; 1]%nat); [lia | lia |].
  vm_compute. reflexivity.
Defined.

(** The loop of [generate_grid] need not end. On a 2×2 grid the four cells
    are the start flag, the goal, the player and the pursuer, which the loop
    skips: at MEDIUM and HARD, where one obstacle is asked for, no sequence of
    draws lets the constructor return. *)
Lemma place_obstacles_2x2_stuck d cs : ∀ (n : nat) draws,
  (length draws ≤ n)%nat →
  place_obstacles draws (mkGrid 2 2 d cs (0, 1) (1, 1) (1, 0)) 0 1 = OutOfFuel.
Proof.
  induction n as [|n IH]; intros draws Hlen.
  - destruct draws; [done | simpl in Hlen; lia].
  - destruct draws as [|rx [|ry draws]]; [done | done |].
    cbn [place_obstacles]. simpl.
    replace (2 - 1 - 0 + 1) with 2 by lia. replace (2 - 1) with 1 by lia.
    assert (Z.of_nat rx mod 2 = 0 ∨ Z.of_nat rx mod 2 = 1) as Hx
      by (pose proof (Z.mod_pos_bound (Z.of_nat rx) 2); lia).
    assert (Z.of_nat ry mod 2 = 0 ∨ Z.of_nat ry mod 2 = 1) as Hy
      by (pose proof (Z.mod_pos_bound (Z.of_nat ry) 2); lia).
    rewrite bool_decide_eq_true_2.
    + apply IH. simpl in Hlen. lia.
    + destruct Hx as [->| ->], Hy as [->| ->]; simpl; auto.
Qed.

Lemma generation_2x2_never_returns d draws :
  d ≠ EASY → Grid_init 2 2 d draws = OutOfFuel.
Proof.
  intros Hd. unfold Grid_init, generate_grid.
  destruct d; [done | |]; vm_compute blank_grid; cbn -[place_obstacles];
    eapply place_obstacles_2x2_stuck; done.
Qed.

(** ** The table of densities *)


(** ** Further properties of the neighbor relation and of the two searches *)

Lemma cardinally_adjacent_sym p q :
  cardinally_adjacent p q → cardinally_adjacent q p.
Proof. unfold cardinally_adjacent. lia. Qed.

Lemma neighbor_sym g p q :
  is_valid_move g p = true → q ∈ get_neighbors g p → p ∈ get_neighbors g q.
Proof.
  intros Hp Hq. apply neighbor_step in Hq as [_ Hadj].
  apply elem_of_get_neighbors. split; [| done].
  by apply cardinal_directions, cardinally_adjacent_sym.
Qed.

(** X1. Between cells that can be walked on the neighbor relation is symmetric:
    a neighbor of a valid cell has that cell among its own neighbors, one
    step away. *)
Theorem get_neighbors_symmetric (g : Grid) (p q : pos) :
  is_valid_move g p = true →
  q ∈ get_neighbors g p →
  p ∈ get_neighbors g q ∧ is_valid_move g q = true ∧ cardinally_adjacent q p.
Proof.
  intros Hp Hq. split; [by apply neighbor_sym |].
  apply neighbor_step in Hq as [Hv Hadj].
  split; [done | by apply cardinally_adjacent_sym].
Qed.

Lemma get_neighbors_symmetric_witness :
  let g := blank_grid 3 3 EASY in
  is_valid_move g (1, 1) = true ∧
  (1, 0) ∈ get_neighbors g (1, 1) ∧
  ((1, 1) ∈ get_neighbors g (1, 0) ∧ is_valid_move g (1, 0) = true ∧
   cardinally_adjacent (1, 0) (1, 1)).
Proof.
  intros g.
  assert (is_valid_move g (1, 1) = true) as Hv by reflexivity.
  assert ((1, 0) ∈ get_neighbors g (1, 1)) as Hn
    by (apply (bool_decide_unpack _); vm_compute; exact I).
  split; [exact Hv |]. split; [exact Hn |].
  apply get_neighbors_symmetric; [exact Hv | exact Hn].
Defined.

(** X2. [get_neighbors] returns at most four positions, all different. *)
Theorem get_neighbors_at_most_four (g : Grid) (p : pos) :
  (length (get_neighbors g p) ≤ 4)%nat ∧ NoDup (get_neighbors g p).
Proof.
  rewrite get_neighbors_unfold. split.
  - destruct (is_valid_move g (up p)), (is_valid_move g (right p)),
      (is_valid_move g (down p)), (is_valid_move g (left p)); simpl; lia.
  - assert (NoDup [up p; right p; down p; left p]) as Hnd.
    { destruct p as [x y]. unfold up, right, down, left. simpl.
      repeat (apply NoDup_cons; split;
              [rewrite ?elem_of_cons, elem_of_nil; intros H;
               repeat destruct H as [H|H]; try done; inversion H; lia |]).
      apply NoDup_nil_2. }
    apply (sublist_NoDup _ _ Hnd).
    destruct (is_valid_move g (up p)), (is_valid_move g (right p)),
      (is_valid_move g (down p)), (is_valid_move g (left p)); simpl;
      repeat first
        [apply sublist_nil_l | apply sublist_skip | apply sublist_cons ].
Qed.

Lemma reachable_valid g p q :
  reachable g p q → is_valid_move g p = true → is_valid_move g q = true.
Proof.
  unfold reachable. intros H. induction H as [p|p r q Hpr _ IH]; [done |].
  intros _. apply IH. by apply neighbor_step in Hpr as [? _].
Qed.

Lemma reachable_sym g p q :
  is_valid_move g p = true → reachable g p q → reachable g q p.
Proof.
  unfold reachable. intros Hp H. induction H as [p|p r q Hpr Hrq IH].
  - apply rtc_refl.
  - eapply rtc_r; [apply IH; by apply neighbor_step in Hpr as [? _] |].
    by apply neighbor_sym.
Qed.

(** X3. [is_path_exists] always returns, and its answer is true exactly when a
    walk over the neighbor relation leads from [start] to [end_]. *)
Theorem is_path_exists_decides_walks (g : Grid) (start end_ : pos) :
  ∃ r, is_path_exists g start end_ = Ok r ∧
       (r = true ↔ ∃ l, walk_to g start l end_).
Proof.
  destruct (is_path_exists_correct g start end_) as (r & Hr & Hreach).
  exists r. split; [done |]. rewrite Hreach. split.
  - apply reachable_walk.
  - intros [l Hl]. by eapply walk_to_reachable.
Qed.

(** X4. Between two cells that can be walked on, [is_path_exists] gives the same
    answer in both directions. *)
Theorem is_path_exists_symmetric (g : Grid) (a b : pos) :
  is_valid_move g a = true → is_valid_move g b = true →
  is_path_exists g a b = is_path_exists g b a.
Proof.
  intros Ha Hb.
  destruct (is_path_exists_correct g a b) as (r1 & -> & H1).
  destruct (is_path_exists_correct g b a) as (r2 & -> & H2).
  f_equal. destruct r1, r2; try done.
  - assert (false = true) as Hf; [| done].
    apply H2, reachable_sym; [done | by apply H1].
  - assert (false = true) as Hf; [| done].
    apply H1, reachable_sym; [done | by apply H2].
Qed.

Lemma is_path_exists_symmetric_witness :
  let g := with_obstacles (blank_grid 3 3 EASY) [(1, 0); (1, 1); (1, 2)] in
  is_valid_move g (0, 0) = true ∧ is_valid_move g (2, 2) = true ∧
  is_path_exists g (0, 0) (2, 2) = Ok false ∧
  is_path_exists g (0, 0) (2, 2) = is_path_exists g (2, 2) (0, 0).
Proof.
  intros g. split; [reflexivity |]. split; [reflexivity |].
  split; [vm_compute; reflexivity |].
  apply is_path_exists_symmetric; reflexivity.
Defined.

(** ** The heuristic *)

Lemma heuristic_step g p q b :
  q ∈ get_neighbors g p → heuristic p b ≤ heuristic q b + 1.
Proof.
  intros [_ Hadj]%neighbor_step. unfold heuristic, cardinally_adjacent in *.
  destruct p, q, b. simpl in *. lia.
Qed.

(** X5. The Manhattan distance is admissible for the moves of the grid: it never
    exceeds the number of steps of a walk between the two positions. It is
    symmetric, and it is zero only between equal positions. *)
Theorem heuristic_admissible (g : Grid) (a b : pos) (l : list pos) :
  walk_to g a l b →
  heuristic a b ≤ Z.of_nat (length l) ∧
  heuristic a b = heuristic b a ∧
  (heuristic a b = 0 ↔ a = b).
Proof.
  intros Hw. split; [| split].
  - revert a Hw. induction l as [|q l IH]; intros a [Hw Hl].
    + simpl in Hl. inversion Hl; subst. unfold heuristic. simpl. lia.
    + destruct Hw as [Hq Hw]. rewrite last_cons_cons in Hl.
      specialize (IH q (conj Hw Hl)).
      pose proof (heuristic_step g a q b Hq). simpl length. lia.
  - unfold heuristic. lia.
  - unfold heuristic. destruct a, b. simpl. split.
    + intros H. f_equal; lia.
    + intros [= -> ->]. lia.
Qed.

Lemma heuristic_admissible_witness :
  let g := with_obstacles (blank_grid 3 3 EASY) [(1, 1)] in
  let l := [(0, 1); (0, 2); (1, 2); (2, 2)] in
  walk_to g (0, 0) l (2, 2) ∧
  heuristic (0, 0) (2, 2) ≤ Z.of_nat (length l) ∧
  heuristic (0, 0) (2, 2) = heuristic (2, 2) (0, 0) ∧
  (heuristic (0, 0) (2, 2) = 0 ↔ (0, 0) = (2, 2)).
Proof.
  intros g l.
  assert (walk_to g (0, 0) l (2, 2)) as Hw.
  { split; [| reflexivity]. cbn [walk l].
    repeat (split; [apply (bool_decide_unpack _); vm_compute; exact I |]).
    exact I. }
  split; [exact Hw |]. apply (heuristic_admissible g). exact Hw.
Defined.

(** ** The state of the search when it finds the target *)

Lemma reconstruct_path_scores g start end_ st :
  astar_inv g start end_ st →
  ∀ fuel p v path,
    g_score st !! p = Some v → (Z.to_nat v < fuel)%nat →
    ∃ l, reconstruct_path fuel (came_from st) p path = Ok (l ++ reverse path)
       ∧ walk_to g start l p ∧ Z.of_nat (length l) = v
       ∧ ∀ i q, l !! i = Some q → g_score st !! q = Some (Z.of_nat i + 1).
Proof.
  intros Hinv. induction fuel as [|fuel IH]; intros p v path Hv Hfuel; [lia |].
  simpl. destruct (came_from st !! p) as [q|] eqn:Hq.
  - destruct (a_from _ _ _ _ Hinv _ _ Hq) as (_ & Hpq & v' & Hv' & Hv'').
    assert (v = v' + 1) as -> by congruence.
    pose proof (a_bound _ _ _ _ Hinv _ _ Hv') as Hb.
    destruct (IH q v' (path ++ [p]) Hv') as (l & -> & Hw & Hlen & Hsc); [lia |].
    exists (l ++ [p]). split; [| split; [| split]].
    + by rewrite reverse_app, <- app_assoc.
    + by eapply walk_snoc.
    + rewrite length_app. simpl. lia.
    + intros i r Hr. apply lookup_app_Some in Hr as [Hr|[Hge Hr]].
      * by apply Hsc.
      * apply list_lookup_singleton_Some in Hr as [Hi <-].
        rewrite Hv''. f_equal. lia.
  - destruct (decide (p = start)) as [->|Hne].
    + exists []. split; [done |]. split; [done |].
      destruct (a_start _ _ _ _ Hinv) as [Hs _].
      split; [change (0 = v); congruence | done].
    + destruct (a_has_from _ _ _ _ Hinv p) as [q' Hq']; [| done | congruence].
      apply elem_of_dom. eauto.
Qed.

(** One turn of the loop [while open_set] that does not pop the target. *)
Lemma astar_iteration g start end_ st f current open' :
  loop_inv g start end_ st →
  heappop (open_set st) = Some ((f, current), open') →
  current ≠ end_ →
  ∃ st2,
    (for_each (relax end_ current)
       (mkAStar open' ({[current]} ∪ closed_set st)
                (came_from st) (g_score st) (f_score st))
       (get_neighbors g current) = Ok st2) ∧
    loop_inv g start end_ st2 ∧
    (closed_set st2 = {[current]} ∪ closed_set st) ∧
    (current ∉ closed_set st) ∧
    start ∈ closed_set st2.
Proof.
  intros (Hinv & Hclosed & Hst) Hpop Hce.
  pose proof Hinv as [Hnd Hdom Hdisj [Hs0 Hsf] Hfrom Hhas Hbound Hend Huniv].
  apply heappop_perm in Hpop.
  assert ((open_set st).*2 ≡ₚ current :: open'.*2) as Hperm
    by (by rewrite Hpop).
  assert (∀ p, p ∈ (open_set st).*2 ↔ p = current ∨ p ∈ open'.*2) as Hmem
    by (intros p; by rewrite Hperm, elem_of_cons).
  rewrite Hperm in Hnd. apply NoDup_cons in Hnd as [Hcur Hnd].
  assert (current ∉ closed_set st) as Hcc.
  { intros Hc. apply (Hdisj _ Hc), Hmem. by left. }
  assert (is_Some (g_score st !! current)) as [gc Hgc].
  { apply elem_of_dom, Hdom. right. apply Hmem. by left. }
  set (st1 := mkAStar open' ({[current]} ∪ closed_set st)
                      (came_from st) (g_score st) (f_score st)).
  assert (size ({[current]} ∪ closed_set st) = S (size (closed_set st))) as Hsize.
  { rewrite size_union, size_singleton; [done | set_solver]. }
  assert (start ∈ {[current]} ∪ closed_set st) as Hstart.
  { destruct Hst as [?| ->]; [set_solver |].
    assert (current ∈ (open_set (astar_init start end_)).*2) as Hc
      by (apply Hmem; by left).
    simpl in Hc. apply list_elem_of_singleton in Hc. set_solver. }
  assert (relax_inv g start end_ current st1) as Hinv1.
  { split; [| split; [done | split; [set_solver |]]].
    - constructor; simpl.
      + done.
      + intros p. rewrite Hdom, Hmem. set_solver.
      + intros p [->%elem_of_singleton|Hp]%elem_of_union; [done |].
        intros Hp'. apply (Hdisj _ Hp), Hmem. by right.
      + done.
      + intros p q Hpq. destruct (Hfrom _ _ Hpq) as (? & ? & ?).
        split; [set_solver | done].
      + done.
      + intros p v Hv. specialize (Hbound _ _ Hv). rewrite Hsize. lia.
      + set_solver.
      + done.
    - simpl. intros v Hv. rewrite Hsize.
      assert (v = gc) as -> by congruence. specialize (Hbound _ _ Hgc). lia. }
  destruct (relax_all g start end_ current (get_neighbors g current) st1 Hinv1)
    as (st2 & Hst2 & (Hinv2 & Hs2 & _) & Hc2 & Hd2 & Hn2); [done |].
  exists st2. simpl in Hc2, Hd2.
  split; [done |]. split; [| split; [done | split; [done |]]].
  - split; [done |]. split; [| by left].
    intros p n Hp Hn. rewrite Hc2 in Hp.
    apply elem_of_union in Hp as [->%elem_of_singleton|Hp]; [by apply Hn2 |].
    apply Hd2. by eapply Hclosed.
  - done.
Qed.

(** The loop of [find_path] with a further invariant [P] of its turns: when
    the list is not empty, the loop stopped in a state that satisfies [P] and
    whose heap gave the target. *)
Lemma astar_loop_strong g start end_ (P : AStar → Prop) :
  start ≠ end_ →
  (∀ st f current open' st2,
     loop_inv g start end_ st → P st →
     heappop (open_set st) = Some ((f, current), open') →
     current ≠ end_ →
     for_each (relax end_ current)
       (mkAStar open' ({[current]} ∪ closed_set st)
                (came_from st) (g_score st) (f_score st))
       (get_neighbors g current) = Ok st2 →
     P st2) →
  ∀ fuel st,
    loop_inv g start end_ st → P st →
    (size (universe g start) - size (closed_set st) + 1 ≤ fuel)%nat →
    ∃ l, astar_loop fuel g end_ st = Ok l ∧
      ((l = [] ∧ ¬ reachable g start end_) ∨
       (∃ stf f open',
          loop_inv g start end_ stf ∧ P stf ∧
          heappop (open_set stf) = Some ((f, end_), open') ∧
          reconstruct_path (search_fuel g) (came_from stf) end_ [] = Ok l)).
Proof.
  intros Hse HP. induction fuel as [|fuel IH]; intros st Hloop HPst Hfuel; [lia |].
  pose proof Hloop as (Hinv & Hclosed & Hst).
  pose proof (closed_in_universe _ _ _ _ Hinv) as Hcu.
  simpl. destruct (heappop (open_set st)) as [[[f current] open']|] eqn:Hpop.
  2:{ apply heappop_None in Hpop. exists []. split; [done |]. left.
      split; [done |]. intros Hr.
      assert (∀ p, p ∈ dom (g_score st) → p ∈ closed_set st) as Hdc.
      { intros p [?|Hp]%(a_dom _ _ _ _ Hinv); [done |].
        rewrite Hpop in Hp. by apply elem_of_nil in Hp. }
      assert (∀ p, reachable g start p → p ∈ closed_set st) as Hall.
      { unfold reachable. apply rtc_ind_r.
        - apply Hdc, elem_of_dom. destruct (a_start _ _ _ _ Hinv). eauto.
        - intros q r _ Hqr Hq. by eapply Hdc, Hclosed. }
      by apply (a_end _ _ _ _ Hinv), Hall. }
  destruct (decide (current = end_)) as [->|Hce].
  - assert (is_Some (g_score st !! end_)) as [gc Hgc].
    { apply elem_of_dom, (a_dom _ _ _ _ Hinv). right.
      apply heappop_perm in Hpop. rewrite Hpop. simpl. set_solver. }
    pose proof (a_bound _ _ _ _ Hinv _ _ Hgc) as Hb.
    pose proof (subseteq_size _ _ Hcu) as Hsz.
    pose proof (universe_size g start) as Hu.
    destruct (reconstruct_path_correct g start end_ st Hinv
                (search_fuel g) end_ gc [] Hgc) as (l & Hl & Hw & Hlen); [lia |].
    exists (l ++ reverse []). split; [done |]. right.
    exists st, f, open'. split; [done |]. split; [done |]. split; done.
  - destruct (astar_iteration _ _ _ _ _ _ _ Hloop Hpop Hce)
      as (st2 & Hst2 & Hloop2 & Hc2 & Hcc & _).
    rewrite Hst2. simpl. apply IH;
      [done | exact (HP st f current open' st2 Hloop HPst Hpop Hce Hst2) |].
    assert (size ({[current]} ∪ closed_set st) = S (size (closed_set st))) as Hsize.
    { rewrite size_union, size_singleton; [done | set_solver]. }
    destruct Hloop2 as (Hinv2 & _).
    pose proof (closed_in_universe _ _ _ _ Hinv2) as Hcu2.
    apply subseteq_size in Hcu2. rewrite Hc2, Hsize in *. lia.
Qed.

(** What holds of a non-empty result of [find_path]: the state in which the
    loop stopped. *)
Lemma find_path_final g start end_ (P : AStar → Prop) :
  start ≠ end_ →
  P (astar_init start end_) →
  (∀ st f current open' st2,
     loop_inv g start end_ st → P st →
     heappop (open_set st) = Some ((f, current), open') →
     current ≠ end_ →
     for_each (relax end_ current)
       (mkAStar open' ({[current]} ∪ closed_set st)
                (came_from st) (g_score st) (f_score st))
       (get_neighbors g current) = Ok st2 →
     P st2) →
  ∃ l, find_path g start end_ = Ok l ∧
    ((l = [] ∧ ¬ reachable g start end_) ∨
     (∃ stf v,
        astar_inv g start end_ stf ∧ P stf ∧ start ∈ closed_set stf ∧
        g_score stf !! end_ = Some v ∧
        walk_to g start l end_ ∧ l ≠ [] ∧ Z.of_nat (length l) = v ∧
        (∀ i q, l !! i = Some q → g_score stf !! q = Some (Z.of_nat i + 1)) ∧
        (length l ≤ Z.to_nat (width g * height g))%nat)).
Proof.
  intros Hse HP0 HP. unfold find_path. rewrite decide_False by done.
  destruct (astar_loop_strong g start end_ P Hse HP (search_fuel g)
              (astar_init start end_)) as (l & Hl & Hcases).
  { by apply astar_init_inv. }
  { done. }
  { pose proof (universe_size g start).
    change (closed_set (astar_init start end_)) with (∅ : gset pos).
    rewrite size_empty. unfold search_fuel in *. lia. }
  exists l. split; [done |]. destruct Hcases as [?|Hfin]; [by left | right].
  destruct Hfin as (stf & f & open' & (Hinv & _ & Hst) & HPf & Hpop & Hrec).
  assert (end_ ∈ (open_set stf).*2) as Hopen.
  { apply heappop_perm in Hpop. rewrite Hpop. simpl. set_solver. }
  assert (start ∈ closed_set stf) as Hsc.
  { destruct Hst as [?| ->]; [done |]. simpl in Hopen.
    apply list_elem_of_singleton in Hopen. done. }
  assert (is_Some (g_score stf !! end_)) as [v Hv].
  { apply elem_of_dom, (a_dom _ _ _ _ Hinv). by right. }
  pose proof (a_bound _ _ _ _ Hinv _ _ Hv) as Hb.
  pose proof (closed_in_universe _ _ _ _ Hinv) as Hcu.
  assert (size (closed_set stf) + 1 ≤ size (universe g start))%nat as Hsz.
  { assert ({[end_]} ∪ closed_set stf ⊆ universe g start) as Hsub.
    { apply union_least; [| done]. apply singleton_subseteq_l.
      apply (a_universe _ _ _ _ Hinv), elem_of_dom. eauto. }
    apply subseteq_size in Hsub. rewrite size_union, size_singleton in Hsub; [lia |].
    pose proof (a_disjoint _ _ _ _ Hinv end_). set_solver. }
  pose proof (universe_size g start) as Hu.
  destruct (reconstruct_path_scores g start end_ stf Hinv
              (search_fuel g) end_ v [] Hv) as (l' & Hl' & Hw & Hlen & Hscore);
    [lia |].
  assert (l' = l) as ->.
  { rewrite Hrec in Hl'. change (reverse []) with (@nil pos) in Hl'.
    rewrite app_nil_r in Hl'. by inversion Hl'. }
  exists stf, v.
  split; [done |]. split; [done |]. split; [done |]. split; [done |].
  split; [done |]. split; [| split; [done | split; [done |]]].
  - intros ->. destruct Hw as [_ Hlast]. simpl in Hlast. congruence.
  - unfold search_fuel in Hu. lia.
Qed.

(** X6. Between distinct positions the list that [find_path] returns never
    contains [start], never visits a cell twice, and has at most as many
    elements as the grid has cells. *)
Theorem find_path_simple (g : Grid) (start end_ : pos) :
  start ≠ end_ →
  ∃ l, find_path g start end_ = Ok l ∧
       (start ∉ l) ∧ NoDup l ∧
       (length l ≤ Z.to_nat (width g * height g))%nat.
Proof.
  intros Hse.
  destruct (find_path_final g start end_ (λ _, True) Hse I) as (l & Hl & Hcases);
    [done |].
  exists l. split; [done |].
  destruct Hcases as [[-> _]|(stf & v & Hinv & _ & _ & _ & _ & _ & _ & Hscore & Hlen)].
  - split; [by intros ?%elem_of_nil |]. split; [apply NoDup_nil_2 | simpl; lia].
  - split; [| split; [| done]].
    + intros [i Hi]%list_elem_of_lookup. apply Hscore in Hi.
      destruct (a_start _ _ _ _ Hinv) as [Hs _]. rewrite Hs in Hi.
      inversion Hi. lia.
    + apply NoDup_alt. intros i j q Hi Hj.
      apply Hscore in Hi, Hj. rewrite Hi in Hj. inversion Hj. lia.
Qed.

Lemma find_path_simple_witness :
  let g := with_obstacles (blank_grid 3 3 EASY) [(1, 1)] in
  (0, 0) ≠ (2, 2) ∧
  ∃ l, find_path g (0, 0) (2, 2) = Ok l ∧
       ((0, 0) ∉ l) ∧ NoDup l ∧
       (length l ≤ Z.to_nat (width g * height g))%nat.
Proof.
  intros g. split; [discriminate |]. apply find_path_simple. discriminate.
Defined.

(** ** A target next to the start *)

Lemma relax_scores end_ current st n st' gc :
  relax end_ current st n = Ok st' →
  g_score st !! current = Some gc →
  closed_set st' = closed_set st ∧
  (∀ p v, g_score st !! p = Some v →
          ∃ v', g_score st' !! p = Some v' ∧ v' ≤ v) ∧
  (n ∉ closed_set st → ∃ v, g_score st' !! n = Some v ∧ v ≤ gc + 1).
Proof.
  unfold relax. intros Hrelax Hgc.
  destruct (decide (n ∈ closed_set st)) as [Hcl|Hncl].
  { inversion Hrelax; subst. split; [done |]. split; [| done].
    intros p v Hv. exists v. split; [done | lia]. }
  rewrite (dict_get_Some _ _ _ Hgc) in Hrelax. simpl in Hrelax.
  destruct (g_score st !! n) as [gn|] eqn:Hgn.
  - destruct (gc + 1 <? gn) eqn:Hlt.
    + rewrite (dict_get_Some _ _ _ (lookup_insert_eq _ _ _)) in Hrelax.
      simpl in Hrelax.
      rewrite (dict_get_Some _ _ _ (lookup_insert_eq _ _ _)) in Hrelax.
      simpl in Hrelax. inversion Hrelax; subst; simpl.
      split; [done |]. split.
      * intros p v Hv. destruct (decide (p = n)) as [->|Hpn].
        -- rewrite lookup_insert_eq. exists (gc + 1). split; [done |].
           assert (v = gn) as -> by congruence. lia.
        -- rewrite lookup_insert_ne by done. exists v. split; [done | lia].
      * intros _. rewrite lookup_insert_eq. exists (gc + 1). split; [done | lia].
    + inversion Hrelax; subst. split; [done |]. split.
      * intros p v Hv. exists v. split; [done | lia].
      * intros _. exists gn. split; [done | lia].
  - rewrite (dict_get_Some _ _ _ (lookup_insert_eq _ _ _)) in Hrelax.
    simpl in Hrelax.
    rewrite (dict_get_Some _ _ _ (lookup_insert_eq _ _ _)) in Hrelax.
    simpl in Hrelax. inversion Hrelax; subst; simpl.
    split; [done |]. split.
    + intros p v Hv. destruct (decide (p = n)) as [->|Hpn]; [congruence |].
      rewrite lookup_insert_ne by done. exists v. split; [done | lia].
    + intros _. rewrite lookup_insert_eq. exists (gc + 1). split; [done | lia].
Qed.

Lemma relax_all_scores end_ current gc ns : ∀ st st',
  for_each (relax end_ current) st ns = Ok st' →
  g_score st !! current = Some gc →
  current ∈ closed_set st →
  closed_set st' = closed_set st ∧
  (∀ p v, g_score st !! p = Some v →
          ∃ v', g_score st' !! p = Some v' ∧ v' ≤ v) ∧
  (∀ n, n ∈ ns → n ∉ closed_set st →
        ∃ v, g_score st' !! n = Some v ∧ v ≤ gc + 1).
Proof.
  induction ns as [|n ns IH]; intros st st' Hfor Hgc Hcur; simpl in Hfor.
  - inversion Hfor; subst. split; [done |]. split.
    + intros p v Hv. exists v. split; [done | lia].
    + by intros n ?%elem_of_nil.
  - apply bind_Ok in Hfor as (st1 & Hrelax & Hfor).
    destruct (relax_scores _ _ _ _ _ _ Hrelax Hgc) as (Hc1 & Hmono1 & Hn1).
    assert (g_score st1 !! current = Some gc) as Hgc1.
    { unfold relax in Hrelax.
      destruct (decide (n ∈ closed_set st)) as [Hcl|Hncl];
        [by inversion Hrelax; subst |].
      rewrite (dict_get_Some _ _ _ Hgc) in Hrelax. simpl in Hrelax.
      assert (n ≠ current) as Hnc by (intros ->; done).
      destruct (match g_score st !! n with
                | Some g_neighbor => gc + 1 <? g_neighbor
                | None => true
                end); [| by inversion Hrelax; subst].
      rewrite (dict_get_Some _ _ _ (lookup_insert_eq _ _ _)) in Hrelax.
      simpl in Hrelax.
      rewrite (dict_get_Some _ _ _ (lookup_insert_eq _ _ _)) in Hrelax.
      simpl in Hrelax. inversion Hrelax; subst; simpl.
      by rewrite lookup_insert_ne. }
    destruct (IH _ _ Hfor Hgc1) as (Hc2 & Hmono2 & Hn2); [by rewrite Hc1 |].
    split; [congruence |]. split.
    + intros p v Hv. destruct (Hmono1 _ _ Hv) as (v1 & Hv1 & Hle1).
      destruct (Hmono2 _ _ Hv1) as (v2 & Hv2 & Hle2).
      exists v2. split; [done | lia].
    + intros m [->|Hm]%elem_of_cons Hmc.
      * destruct (Hn1 Hmc) as (v1 & Hv1 & Hle1).
        destruct (Hmono2 _ _ Hv1) as (v2 & Hv2 & Hle2).
        exists v2. split; [done | lia].
      * apply Hn2; [done | by rewrite Hc1].
Qed.

(** When [end_] is a neighbor of [start], [find_path] returns the one step
    [[end_]]. *)
Lemma find_path_neighbor (g : Grid) (start end_ : pos) :
  end_ ∈ get_neighbors g start → find_path g start end_ = Ok [end_].
Proof.
  intros Hadj.
  assert (start ≠ end_) as Hse.
  { intros ->. apply neighbor_step in Hadj as [_ Hadj].
    unfold cardinally_adjacent in Hadj. lia. }
  set (P := λ st : AStar,
    start ∈ closed_set st →
    ∀ n, n ∈ get_neighbors g start → ∃ v, g_score st !! n = Some v ∧ v ≤ 1).
  destruct (find_path_final g start end_ P Hse) as (l & Hl & Hcases).
  { intros Hs. simpl in Hs. set_solver. }
  { intros st f current open' st2 Hloop HP Hpop Hce Hfor Hs2.
    destruct (astar_iteration _ _ _ _ _ _ _ Hloop Hpop Hce)
      as (st2' & Hst2 & _ & _ & Hcc & _).
    destruct Hloop as (Hinv & _ & Hst).
    assert (is_Some (g_score st !! current)) as [gc Hgc].
    { apply elem_of_dom, (a_dom _ _ _ _ Hinv). right.
      apply heappop_perm in Hpop. rewrite Hpop. simpl. set_solver. }
    destruct (relax_all_scores _ _ gc _ _ _ Hfor) as (Hc2 & Hmono & Hnew);
      [done | simpl; set_solver |].
    simpl in Hc2, Hmono, Hnew. intros n Hn.
    destruct Hst as [Hs| ->].
    - destruct (HP Hs n Hn) as (v & Hv & Hle).
      destruct (Hmono _ _ Hv) as (v' & Hv' & Hle'). exists v'. split; [done | lia].
    - assert (current = start) as ->.
      { apply heappop_perm in Hpop. simpl in Hpop.
        apply Permutation_singleton_l in Hpop. by inversion Hpop. }
      assert (gc = 0) as ->.
      { simpl in Hgc. rewrite lookup_singleton_eq in Hgc. by inversion Hgc. }
      apply Hnew; [done |]. simpl.
      assert (n ≠ start).
      { intros ->. apply neighbor_step in Hn as [_ Hn].
        unfold cardinally_adjacent in Hn. lia. }
      set_solver. }
  rewrite Hl. f_equal.
  destruct Hcases as [[_ Hn]|(stf & v & Hinv & HP & Hs & Hv & Hw & Hne & Hlen & _)].
  { exfalso. apply Hn. eapply rtc_l; [exact Hadj | apply rtc_refl]. }
  destruct (HP Hs end_ Hadj) as (v' & Hv' & Hle).
  assert (v' = v) as -> by congruence.
  destruct l as [|a [|b l]]; [done | | simpl in Hlen; lia].
  destruct Hw as [_ Hlast]. simpl in Hlast. by inversion Hlast.
Qed.

(** ** What generation builds *)

(** The loop of [generate_grid], for an invariant [I] of the grid and of the
    number of obstacles placed that every committed obstacle keeps. *)
Lemma place_obstacles_ind (I : Grid → Z → Prop) :
  (∀ g placed x y c cs1,
     I g placed →
     0 ≤ x < width g → 0 ≤ y < height g →
     ¬ ((x, y) = (0, 0) ∨ (x, y) = (width g - 1, 0) ∨
        (x, y) = player_pos g ∨ (x, y) = ai_pos g) →
     read_cell (cells g) x y = Ok c → is_obstacle c = false →
     update_cell (cells g) x y (set_is_obstacle true) = Ok cs1 →
     is_path_exists (with_cells g cs1) (player_pos g) (goal_pos g) = Ok true →
     I (with_cells g cs1) (placed + 1)) →
  ∀ (n : nat) draws g placed num g',
    (length draws ≤ n)%nat →
    place_obstacles draws g placed num = Ok g' →
    I g placed → I g' (Z.max placed num).
Proof.
  intros Hstep. induction n as [|n IH]; intros draws g placed num g' Hlen Hplace HI.
  - destruct draws; [| simpl in Hlen; lia].
    cbn [place_obstacles] in Hplace.
    destruct (placed <? num) eqn:E; [done |]. inversion Hplace; subst.
    by replace (Z.max placed num) with placed by lia.
  - destruct draws as [|rx [|ry draws]]; cbn [place_obstacles] in Hplace;
      (destruct (placed <? num) eqn:E;
       [| inversion Hplace; subst;
          by replace (Z.max placed num) with placed by lia]);
      [done | done |].
    assert (length draws ≤ n)%nat as Hlen' by (simpl in Hlen; lia).
    apply bind_Ok in Hplace as (x & Hx%randint_range & Hplace).
    apply bind_Ok in Hplace as (y & Hy%randint_range & Hplace).
    match type of Hplace with
    | (if bool_decide ?b then _ else _) = _ => destruct (decide b) as [Hskip|Hskip]
    end.
    { rewrite bool_decide_eq_true_2 in Hplace by done. by eapply IH. }
    rewrite bool_decide_eq_false_2 in Hplace by done.
    apply bind_Ok in Hplace as (c & Hc & Hplace).
    destruct (is_obstacle c) eqn:Hobs; [by eapply IH |].
    apply bind_Ok in Hplace as (cs1 & Hcs1 & Hplace).
    apply bind_Ok in Hplace as (reach & Hreach & Hplace).
    destruct reach; simpl in Hplace.
    + replace (Z.max placed num) with (Z.max (placed + 1) num) by lia.
      eapply IH; [exact Hlen' | exact Hplace |].
      apply (Hstep g placed x y c cs1 HI);
        [lia | lia | done | done | done | done | exact Hreach].
    + apply bind_Ok in Hplace as (cs2 & Hcs2 & Hplace). simpl in Hcs2.
      assert (cs2 = cells g) as ->
        by (eapply (update_cell_undo (cells g) x y c cs1); [lia | lia | done..]).
      assert (with_cells (with_cells g cs1) (cells g) = g) as Hg
        by (by destruct g).
      rewrite Hg in Hplace. by eapply IH.
Qed.

Lemma filter_none {A} (P : A → Prop) `{∀ x, Decision (P x)} (l : list A) :
  Forall (λ x, ¬ P x) l → filter P l = [].
Proof.
  induction 1 as [|x l Hx _ IH]; [done |]. by rewrite filter_cons_False.
Qed.

Lemma blank_cells_count w h : obstacle_count (blank_cells w h) = 0.
Proof.
  unfold obstacle_count. rewrite filter_none; [done |].
  apply Forall_concat. unfold blank_cells.
  apply Forall_fmap, Forall_forall. intros x _. simpl.
  apply Forall_fmap, Forall_forall. intros y _. simpl. done.
Qed.

Lemma count_insert (col : list Cell) (i : nat) (c c' : Cell) :
  col !! i = Some c →
  Z.of_nat (length (filter (λ c, is_obstacle c = true) (<[i := c']> col)))
  = Z.of_nat (length (filter (λ c, is_obstacle c = true) col))
    - (if is_obstacle c then 1 else 0) + (if is_obstacle c' then 1 else 0).
Proof.
  intros Hc. pose proof (lookup_lt_Some _ _ _ Hc) as Hlt.
  rewrite insert_take_drop by done.
  rewrite <- (take_drop_middle col i c Hc) at 3.
  rewrite !filter_app, !filter_cons, !length_app.
  destruct (decide (is_obstacle c' = true)) as [->|Hc'],
           (decide (is_obstacle c = true)) as [->|Hc0]; simpl.
  - lia.
  - apply not_true_is_false in Hc0. rewrite Hc0. lia.
  - apply not_true_is_false in Hc'. rewrite Hc'. lia.
  - apply not_true_is_false in Hc0, Hc'. rewrite Hc0, Hc'. lia.
Qed.

Lemma update_cell_count cs x y f cs' c :
  0 ≤ x → 0 ≤ y →
  update_cell cs x y f = Ok cs' → read_cell cs x y = Ok c →
  obstacle_count cs' = obstacle_count cs
    - (if is_obstacle c then 1 else 0) + (if is_obstacle (f c) then 1 else 0).
Proof.
  intros Hx Hy Hup Hread.
  destruct (update_cell_nonneg _ _ _ _ _ Hx Hy Hup) as (col & c0 & Hcol & Hc0 & ->).
  rewrite read_cell_nonneg, Hcol, Hc0 in Hread by done. inversion Hread; subst c0.
  pose proof (lookup_lt_Some _ _ _ Hcol) as Hlt.
  unfold obstacle_count. rewrite insert_take_drop by done.
  rewrite <- (take_drop_middle cs _ col Hcol) at 3.
  rewrite !concat_app. simpl. rewrite !filter_app, !length_app.
  pose proof (count_insert col (Z.to_nat y) c (f c) Hc0). lia.
Qed.

Lemma update_cell_cells_ok cs x y f cs' w h :
  0 ≤ x → 0 ≤ y → update_cell cs x y f = Ok cs' →
  (∀ c, cell_ok w h x y c → cell_ok w h x y (f c)) →
  cells_ok cs w h → cells_ok cs' w h.
Proof.
  intros Hx Hy Hup Hf Hok x' y' Hx' Hy'.
  rewrite (read_update_cell _ _ _ _ _ _ _ Hx Hy (proj1 Hx') (proj1 Hy') Hup).
  destruct (decide (x' = x ∧ y' = y)) as [[-> ->]|Hne]; [| by apply Hok].
  destruct (Hok x y Hx' Hy') as (c & -> & Hc). simpl. eauto.
Qed.

Lemma blank_cells_flagged w h cs1 cs2 :
  1 ≤ w → 1 ≤ h →
  update_cell (blank_cells w h) 0 0 (set_is_start true) = Ok cs1 →
  update_cell cs1 (w - 1) 0 (set_is_goal true) = Ok cs2 →
  cells_ok cs2 w h ∧ obstacle_count cs2 = 0.
Proof.
  intros Hw Hh Hcs1 Hcs2. split.
  - intros x y Hx Hy.
    rewrite (read_update_cell cs1 (w - 1) 0 _ cs2 x y ltac:(lia) ltac:(lia)
               (proj1 Hx) (proj1 Hy) Hcs2).
    rewrite (read_update_cell (blank_cells w h) 0 0 _ cs1 (w - 1) 0
               ltac:(lia) ltac:(lia) ltac:(lia) ltac:(lia) Hcs1).
    rewrite (read_update_cell (blank_cells w h) 0 0 _ cs1 x y
               ltac:(lia) ltac:(lia) (proj1 Hx) (proj1 Hy) Hcs1).
    rewrite !read_blank_cells by lia.
    unfold cell_ok, protected, get_pos.
    destruct (decide (x = w - 1 ∧ y = 0)) as [[-> ->]|Hg];
      [destruct (decide (w - 1 = 0 ∧ 0 = 0)) as [[Hw0 _]|Hs] |
       destruct (decide (x = 0 ∧ y = 0)) as [[-> ->]|Hs]];
      simpl; eexists; (split; [reflexivity |]); simpl;
      repeat split; try done; try (f_equal; lia);
      try (intros _; f_equal; lia); try (intros [= ? ?]; exfalso; lia);
      try (intros Heq; inversion Heq; exfalso; lia).
  - assert (0 ≤ w - 1 < w) as Hw1 by lia. assert (0 ≤ 0 < h) as Hh0 by lia.
    assert (0 ≤ 0 < w) as Hw0 by lia.
    destruct (blank_cells_all_free w h 0 0 Hw0 Hh0) as (c0 & Hc0 & Ho0).
    pose proof (update_cell_count (blank_cells w h) 0 0 _ cs1 c0
                  ltac:(lia) ltac:(lia) Hcs1 Hc0) as H1.
    assert (all_free cs1 w h) as Hfree1
      by (eapply update_cell_all_free; [| | | exact Hcs1 | apply blank_cells_all_free];
          [lia | lia | done]).
    destruct (Hfree1 (w - 1) 0 Hw1 Hh0) as (c1 & Hc1 & Ho1).
    pose proof (update_cell_count cs1 (w - 1) 0 _ cs2 c1
                  ltac:(lia) ltac:(lia) Hcs2 Hc1) as H2.
    rewrite blank_cells_count in H1. simpl in H1, H2. rewrite Ho0 in H1.
    rewrite Ho1 in H2. lia.
Qed.

Lemma Grid_init_built w h d draws g :
  Grid_init w h d draws = Ok g →
  ∃ num, target_obstacles w h d = Ok num ∧
         cells_ok (cells g) w h ∧
         obstacle_count (cells g) = Z.max 0 num.
Proof.
  intros Hinit.
  destruct (Grid_init_inv _ _ _ _ _ Hinit) as (Hw & Hh & _).
  unfold Grid_init, generate_grid, blank_grid in Hinit. simpl in Hinit.
  apply bind_Ok in Hinit as (cs1 & Hcs1 & Hinit).
  apply bind_Ok in Hinit as (cs2 & Hcs2 & Hinit).
  apply bind_Ok in Hinit as (num & Hnum & Hinit).
  exists num. split; [exact Hnum |].
  destruct (blank_cells_flagged w h cs1 cs2 Hw Hh Hcs1 Hcs2) as [Hok Hcount].
  set (I := λ (g : Grid) (placed : Z),
    width g = w ∧ height g = h ∧
    player_pos g = (0, h - 1) ∧ ai_pos g = (w - 1, h - 1) ∧
    cells_ok (cells g) w h ∧ obstacle_count (cells g) = placed).
  assert (I g (Z.max 0 num)) as (_ & _ & _ & _ & ? & ?); [| done].
  eapply (place_obstacles_ind I); [| reflexivity | exact Hinit | by repeat split].
  clear. intros g placed x y c cs1 (Hw & Hh & Hp & Ha & Hok & Hcount)
    Hx Hy Hskip Hc Hobs Hcs1 _.
  rewrite Hw, Hp, Ha in Hskip. rewrite Hw in Hx. rewrite Hh in Hy.
  unfold I. cbn [with_cells width height player_pos ai_pos cells].
  split; [done |]. split; [done |]. split; [done |]. split; [done |]. split.
  - eapply update_cell_cells_ok; [| | exact Hcs1 | | exact Hok]; [lia | lia |].
    intros c' (Hpos & Hs & Hg & Hprot). unfold cell_ok, get_pos in *. simpl.
    split; [done |]. split; [done |]. split; [done |].
    intros Hpr. exfalso. apply Hskip. unfold protected in Hpr. tauto.
  - rewrite (update_cell_count (cells g) x y _ cs1 c ltac:(lia) ltac:(lia) Hcs1 Hc).
    rewrite Hobs. simpl. lia.
Qed.

(** X7. A grid that the constructor returns has exactly
    [int(width * height * density)] obstacles: 15, 25 or 35 of the 100 cells
    of the board of the game. *)
Theorem generated_grid_obstacle_count (w h : Z) (d : Difficulty)
    (draws : list nat) (g : Grid) :
  Grid_init w h d draws = Ok g →
  (∃ num, target_obstacles w h d = Ok num ∧
          obstacle_count (cells g) = Z.max 0 num) ∧
  (w = 10 → h = 10 →
   obstacle_count (cells g) = match d with
                              | EASY => 15
                              | MEDIUM => 25
                              | HARD => 35
                              end).
Proof.
  intros Hinit.
  destruct (Grid_init_built _ _ _ _ _ Hinit) as (num & Hnum & _ & Hcount).
  split; [eauto |]. intros -> ->. rewrite Hcount.
  destruct d; vm_compute in Hnum; inversion Hnum; reflexivity.
Qed.

Lemma generated_grid_obstacle_count_witness :
  ∃ g, Grid_init 3 3 EASY [1; 1]%nat = Ok g ∧
    (∃ num, target_obstacles 3 3 EASY = Ok num ∧
            obstacle_count (cells g) = Z.max 0 num) ∧
    (3 = 10 → 3 = 10 → obstacle_count (cells g) = 15).
Proof.
  eexists. split; [vm_compute; reflexivity |].
  apply (generated_grid_obstacle_count 3 3 EASY [1; 1]%nat).
  vm_compute. reflexivity.
Defined.

(** X8. In a grid that the constructor returns every cell of the board can be
    read and holds its own coordinates; the start flag is set on the cell
    (0, 0) and on no other, the goal flag on the cell of [goal_pos] and on no
    other. *)
Theorem generated_grid_cells (w h : Z) (d : Difficulty) (draws : list nat)
    (g : Grid) (x y : Z) :
  Grid_init w h d draws = Ok g →
  0 ≤ x < w → 0 ≤ y < h →
  width g = w ∧ height g = h ∧
  ∃ c, read_cell (cells g) x y = Ok c ∧
       get_pos c = (x, y) ∧
       (is_start c = true ↔ (x, y) = (0, 0)) ∧
       (is_goal c = true ↔ (x, y) = goal_pos g).
Proof.
  intros Hinit Hx Hy.
  destruct (Grid_init_inv _ _ _ _ _ Hinit)
    as (_ & _ & _ & Hw & Hh & _ & _ & _ & Hgoal).
  destruct (Grid_init_built _ _ _ _ _ Hinit) as (_ & _ & Hok & _).
  destruct (Hok x y Hx Hy) as (c & Hc & Hpos & Hs & Hg & _).
  split; [done |]. split; [done |]. exists c. rewrite Hgoal.
  split; [done |]. split; [done |]. split; done.
Qed.

Lemma generated_grid_cells_witness :
  ∃ g, Grid_init 3 3 EASY [1; 1]%nat = Ok g ∧ 0 ≤ 2 < 3 ∧ 0 ≤ 0 < 3 ∧
    width g = 3 ∧ height g = 3 ∧
    ∃ c, read_cell (cells g) 2 0 = Ok c ∧
         get_pos c = (2, 0) ∧
         (is_start c = true ↔ (2, 0) = (0, 0)) ∧
         (is_goal c = true ↔ (2, 0) = goal_pos g).
Proof.
  eexists. split; [vm_compute; reflexivity |].
  split; [lia |]. split; [lia |].
  apply (generated_grid_cells 3 3 EASY [1; 1]%nat); [| lia | lia].
  vm_compute. reflexivity.
Defined.

Lemma Grid_init_protected w h d draws g x y :
  Grid_init w h d draws = Ok g →
  0 ≤ x < w → 0 ≤ y < h → protected w h (x, y) →
  is_valid_move g (x, y) = true.
Proof.
  intros Hinit Hx Hy Hpr.
  destruct (Grid_init_inv _ _ _ _ _ Hinit) as (_ & _ & _ & Hw & Hh & _).
  destruct (Grid_init_built _ _ _ _ _ Hinit) as (_ & _ & Hok & _).
  apply is_valid_move_iff. split.
  - unfold in_bounds. simpl. lia.
  - destruct (Hok x y Hx Hy) as (c & Hc & _ & _ & _ & Hfree).
    exists c. split; [done | by apply Hfree].
Qed.

(** X9. In a grid that the constructor returns the player starts at the bottom
    left, the pursuer at the bottom right and the goal is at the top right;
    these three cells and the cell (0, 0) are never obstacles, so that each of
    them is a valid move. *)
Theorem generated_grid_starts (w h : Z) (d : Difficulty) (draws : list nat)
    (g : Grid) :
  Grid_init w h d draws = Ok g →
  player_pos g = (0, h - 1) ∧ ai_pos g = (w - 1, h - 1) ∧
  goal_pos g = (w - 1, 0) ∧
  is_valid_move g (player_pos g) = true ∧
  is_valid_move g (ai_pos g) = true ∧
  is_valid_move g (goal_pos g) = true ∧
  is_valid_move g (0, 0) = true.
Proof.
  intros Hinit.
  destruct (Grid_init_inv _ _ _ _ _ Hinit)
    as (Hw1 & Hh1 & _ & Hw & Hh & _ & Hp & Ha & Hgoal).
  rewrite Hp, Ha, Hgoal.
  repeat split; try done;
    apply (Grid_init_protected w h d draws); try done; try lia;
    unfold protected; auto.
Qed.

Lemma generated_grid_starts_witness :
  ∃ g, Grid_init 3 3 EASY [1; 1]%nat = Ok g ∧
    player_pos g = (0, 3 - 1) ∧ ai_pos g = (3 - 1, 3 - 1) ∧
    goal_pos g = (3 - 1, 0) ∧
    is_valid_move g (player_pos g) = true ∧
    is_valid_move g (ai_pos g) = true ∧
    is_valid_move g (goal_pos g) = true ∧
    is_valid_move g (0, 0) = true.
Proof.
  eexists. split; [vm_compute; reflexivity |].
  apply (generated_grid_starts 3 3 EASY [1; 1]%nat). vm_compute. reflexivity.
Defined.

(** ** The branches of the pursuit turn *)

Lemma step_to_frame t p moved caught :
  let t' := (step_to t p moved caught).1 in
  grid t' = with_ai_pos (grid t) p ∧
  level t' = level t ∧ score t' = score t ∧ moves t' = moves t ∧
  game_difficulty t' = game_difficulty t ∧
  (p = player_pos (grid t) → state t' = GAME_OVER ∧ ai_won t' = true) ∧
  (p ≠ player_pos (grid t) → state t' = state t ∧ ai_won t' = ai_won t).
Proof.
  unfold step_to. simpl. destruct (decide (p = player_pos (grid t))); by simpl.
Qed.

(** [move_ai] returns, and it took one of three ways: the pursuer was on the
    player; or it has no neighbor and stays; or it steps to a neighbor, the
    first cell of the path when [find_path] gives one, else a cell one step
    closer to the player, else any neighbor. *)
Lemma move_ai_cases r t :
  let g := grid t in
  ∃ t' out, move_ai r t = Ok (t', out) ∧
    ((ai_pos g = player_pos g ∧
      (t', out) = ((game_over t).1, AlreadyOnPlayer :: (game_over t).2)) ∨
     (ai_pos g ≠ player_pos g ∧ get_neighbors g (ai_pos g) = [] ∧
      (t', out) = (t, [CouldNotMove])) ∨
     (ai_pos g ≠ player_pos g ∧
      ∃ p moved caught,
        (t', out) = step_to t p moved caught ∧
        p ∈ get_neighbors g (ai_pos g) ∧
        ((moved = MovedPathfinding p ∧ caught = CaughtPathfinding ∧
          ∃ rest, find_path g (ai_pos g) (player_pos g) = Ok (p :: rest)) ∨
         (find_path g (ai_pos g) (player_pos g) = Ok [] ∧
          ((moved = MovedDirect p ∧ caught = CaughtDirect ∧
            heuristic p (player_pos g) + 1 = heuristic (ai_pos g) (player_pos g)) ∨
           (moved = MovedRandom p ∧ caught = CaughtRandom)))))).
Proof.
  intros g. subst g. unfold move_ai.
  destruct (decide (ai_pos (grid t) = player_pos (grid t))) as [Heq|Hne].
  { eexists _, _. split; [reflexivity |]. left. by split. }
  destruct (find_path_correct (grid t) _ _ Hne) as (l & Hl & Hcases).
  rewrite Hl. simpl. destruct l as [|first rest].
  2:{ destruct Hcases as [[? _]|[_ [[Hf _] _]]]; [done |].
      exists (step_to t first (MovedPathfinding first) CaughtPathfinding).1,
             (step_to t first (MovedPathfinding first) CaughtPathfinding).2.
      split; [by destruct (step_to _ _ _ _) |].
      right. right. split; [done |].
      exists first, (MovedPathfinding first), CaughtPathfinding.
      split; [by destruct (step_to _ _ _ _) |]. split; [done |].
      left. eauto. }
  destruct (ai_pos (grid t)) as [ai_x ai_y] eqn:Hai.
  destruct (player_pos (grid t)) as [player_x player_y] eqn:Hpl.
  match goal with
  | |- context [match ?pm with [] => _ | _ :: _ => _ end] =>
    set (possible_moves := pm)
  end.
  assert (∀ p, p ∈ possible_moves →
            p ∈ get_neighbors (grid t) (ai_x, ai_y) ∧
            heuristic p (player_x, player_y) + 1
            = heuristic (ai_x, ai_y) (player_x, player_y)) as Hpm.
  { intros p Hp. rewrite elem_of_get_neighbors, cardinal_directions.
    subst possible_moves. unfold cardinally_adjacent, heuristic. simpl.
    destruct ((ai_x <? player_x) && is_valid_move (grid t) (ai_x + 1, ai_y)) eqn:E1;
    [| destruct ((ai_x >? player_x) && is_valid_move (grid t) (ai_x - 1, ai_y)) eqn:E2];
    (destruct ((ai_y <? player_y) && is_valid_move (grid t) (ai_x, ai_y + 1)) eqn:E3;
     [| destruct ((ai_y >? player_y) && is_valid_move (grid t) (ai_x, ai_y - 1)) eqn:E4]);
    simpl in Hp;
    repeat (apply elem_of_cons in Hp as [->|Hp]);
    try (by apply elem_of_nil in Hp);
    repeat match goal with
           | H : _ && _ = true |- _ => apply andb_true_iff in H as [? ?]
           end;
    simpl; (split; [split; [lia | done] | lia]). }
  destruct possible_moves as [|m ms] eqn:Epm.
  - destruct (get_neighbors (grid t) (ai_x, ai_y)) as [|n ns] eqn:En.
    + eexists _, _. split; [reflexivity |]. right. left. by repeat split.
    + destruct (choice_elem r (n :: ns)) as (p & -> & Hp); [done |]. simpl.
      exists (step_to t p (MovedRandom p) CaughtRandom).1,
             (step_to t p (MovedRandom p) CaughtRandom).2.
      split; [by destruct (step_to _ _ _ _) |].
      right. right. split; [done |].
      exists p, (MovedRandom p), CaughtRandom.
      split; [by destruct (step_to _ _ _ _) |]. split; [done |].
      right. split; [done |]. by right.
  - destruct (choice_elem r (m :: ms)) as (p & -> & Hp); [done |]. simpl.
    apply Hpm in Hp as [Hn Hh].
    exists (step_to t p (MovedDirect p) CaughtDirect).1,
           (step_to t p (MovedDirect p) CaughtDirect).2.
    split; [by destruct (step_to _ _ _ _) |].
    right. right. split; [done |].
    exists p, (MovedDirect p), CaughtDirect.
    split; [by destruct (step_to _ _ _ _) |]. split; [done |].
    right. split; [done |]. by left.
Qed.

Lemma step_to_out t p moved caught :
  (step_to t p moved caught).2 =
    if decide (p = player_pos (grid t)) then [moved; caught; GameOverMsg]
    else [moved].
Proof. unfold step_to. simpl. by destruct (decide (p = player_pos (grid t))). Qed.

Lemma outcome_game_over t out : GameOverMsg ∈ out → outcome (t, out) = Captured.
Proof. intros H. unfold outcome. simpl. by rewrite decide_True. Qed.

Lemma outcome_could_not_move t : outcome (t, [CouldNotMove]) = Stalled.
Proof. reflexivity. Qed.

(** X11. [move_ai] always returns. It calls [game_over] exactly when it leaves the
    pursuer on the cell of the player; then the state is GAME_OVER and
    [ai_won] is set, and otherwise both are as before. Of the grid only
    [ai_pos] can change, and the level, the score, the number of moves and
    the difficulty are never touched. *)
Theorem move_ai_capture_iff (r : nat) (t : TowerTrek) :
  ∃ t' out, move_ai r t = Ok (t', out) ∧
    (outcome (t', out) = Captured ↔
     ai_pos (grid t') = player_pos (grid t')) ∧
    (outcome (t', out) = Captured → state t' = GAME_OVER ∧ ai_won t' = true) ∧
    (outcome (t', out) ≠ Captured →
     state t' = state t ∧ ai_won t' = ai_won t) ∧
    grid t' = with_ai_pos (grid t) (ai_pos (grid t')) ∧
    level t' = level t ∧ score t' = score t ∧ moves t' = moves t ∧
    game_difficulty t' = game_difficulty t.
Proof.
  destruct (move_ai_cases r t) as (t' & out & Hmove & Hcases).
  exists t', out. split; [done |].
  assert (grid t = with_ai_pos (grid t) (ai_pos (grid t))) as Hsame
    by (by destruct (grid t)).
  destruct Hcases as [[Heq Hres]|[(Hne & _ & Hres)|(Hne & p & moved & caught & Hres & _ & Hmsg)]].
  - inversion Hres; subst.
    rewrite outcome_game_over by set_solver.
    simpl. by repeat split.
  - inversion Hres; subst.
    rewrite outcome_could_not_move.
    by repeat split.
  - assert (moved ≠ GameOverMsg ∧ moved ≠ CouldNotMove) as [Hm1 Hm2].
    { destruct Hmsg as [(-> & _)|[_ [(-> & _)|(-> & _)]]]; by split. }
    pose proof (step_to_outcome t p moved caught Hm1 Hm2) as Hout.
    destruct (step_to_frame t p moved caught)
      as (Hgrid & Hlevel & Hscore & Hmoves & Hdiff & Hcap & Hnocap).
    rewrite <- Hres in *. simpl in *. rewrite Hout, Hgrid. simpl.
    destruct (decide (p = player_pos (grid t))) as [Hp|Hp].
    + by repeat split; try apply Hcap.
    + repeat split; try done; try (by apply Hnocap).
Qed.

(** X12. The pursuer skips its turn only when it has to: the turn is stalled
    exactly when the pursuer is not on the player and has no neighbor; in
    every other turn that starts off the player it steps to one of its
    neighbors. *)
Theorem move_ai_stalled_iff (r : nat) (t : TowerTrek) :
  ∃ t' out, move_ai r t = Ok (t', out) ∧
    (outcome (t', out) = Stalled ↔
     ai_pos (grid t) ≠ player_pos (grid t) ∧
     get_neighbors (grid t) (ai_pos (grid t)) = []) ∧
    (ai_pos (grid t) ≠ player_pos (grid t) →
     get_neighbors (grid t) (ai_pos (grid t)) ≠ [] →
     ai_pos (grid t') ∈ get_neighbors (grid t) (ai_pos (grid t))).
Proof.
  destruct (move_ai_cases r t) as (t' & out & Hmove & Hcases).
  exists t', out. split; [done |].
  destruct Hcases as [[Heq Hres]|[(Hne & Hn & Hres)|(Hne & p & moved & caught & Hres & Hp & Hmsg)]].
  - inversion Hres; subst.
    rewrite outcome_game_over by set_solver.
    split; [| done]. split; [done | by intros [? _]].
  - inversion Hres; subst.
    rewrite outcome_could_not_move.
    split; [done | by intros _ ?].
  - assert (moved ≠ GameOverMsg ∧ moved ≠ CouldNotMove) as [Hm1 Hm2].
    { destruct Hmsg as [(-> & _)|[_ [(-> & _)|(-> & _)]]]; by split. }
    pose proof (step_to_outcome t p moved caught Hm1 Hm2) as Hout.
    pose proof (step_to_grid t p moved caught) as Hgrid.
    rewrite <- Hres in *. simpl in *. rewrite Hout, Hgrid. simpl. split.
    + split.
      * by destruct (decide (p = player_pos (grid t))).
      * intros [_ Hn]. rewrite Hn in Hp. by apply elem_of_nil in Hp.
    + done.
Qed.

(** X13. The fallback of [move_ai]: a direct step is taken only when [find_path]
    found no path, and it brings the pursuer one closer to the player in
    Manhattan distance. *)
Theorem move_ai_direct_step_closer (r : nat) (t t' : TowerTrek)
    (out : list Msg) (p : pos) :
  move_ai r t = Ok (t', out) →
  MovedDirect p ∈ out →
  find_path (grid t) (ai_pos (grid t)) (player_pos (grid t)) = Ok [] ∧
  ai_pos (grid t') = p ∧
  p ∈ get_neighbors (grid t) (ai_pos (grid t)) ∧
  heuristic p (player_pos (grid t))
  = heuristic (ai_pos (grid t)) (player_pos (grid t)) - 1.
Proof.
  intros Hmove Hin.
  destruct (move_ai_cases r t) as (t'' & out' & Hmove' & Hcases).
  rewrite Hmove in Hmove'. inversion Hmove'; subst t'' out'. clear Hmove'.
  destruct Hcases as [[Heq Hres]|[(Hne & Hn & Hres)|(Hne & q & moved & caught & Hres & Hq & Hmsg)]].
  - inversion Hres; subst. simpl in Hin. set_solver.
  - inversion Hres; subst. set_solver.
  - pose proof (step_to_out t q moved caught) as Hout.
    pose proof (step_to_grid t q moved caught) as Hgrid.
    rewrite <- Hres in *. simpl in *. rewrite Hgrid. simpl.
    assert (moved = MovedDirect p) as Hmoved.
    { rewrite Hout in Hin.
      destruct Hmsg as [(-> & -> & _)|[_ [(-> & -> & _)|(-> & ->)]]];
        destruct (decide (q = player_pos (grid t))); set_solver. }
    destruct Hmsg as [(-> & _)|[Hnil [(-> & _ & Hh)|(-> & _)]]]; try done.
    inversion Hmoved; subst q. split; [done |]. split; [done |].
    split; [done | lia].
Qed.

Lemma move_ai_direct_step_closer_witness :
  let g := with_obstacles (blank_grid 3 3 EASY) [(1, 0); (1, 1); (1, 2)] in
  let t := mkTowerTrek PLAYING EASY 1 0 3 g false in
  ∃ t', move_ai 0 t = Ok (t', [MovedDirect (2, 1)]) ∧
    MovedDirect (2, 1) ∈ [MovedDirect (2, 1)] ∧
    find_path (grid t) (ai_pos (grid t)) (player_pos (grid t)) = Ok [] ∧
    ai_pos (grid t') = (2, 1) ∧
    (2, 1) ∈ get_neighbors (grid t) (ai_pos (grid t)) ∧
    heuristic (2, 1) (player_pos (grid t))
    = heuristic (ai_pos (grid t)) (player_pos (grid t)) - 1.
Proof.
  intros g t. eexists.
  assert (MovedDirect (2, 1) ∈ [MovedDirect (2, 1)]) as Hin by set_solver.
  split; [vm_compute; reflexivity |]. split; [exact Hin |].
  apply (move_ai_direct_step_closer 0 t _ [MovedDirect (2, 1)]);
    [vm_compute; reflexivity | exact Hin].
Defined.

(** X14. A pursuer next to the player catches it: when the player stands on a
    neighbor of the pursuer, [find_path] returns that one cell and [move_ai]
    steps onto it and ends the game, whatever the random draw. *)
Theorem move_ai_adjacent_captures (r : nat) (t : TowerTrek) :
  player_pos (grid t) ∈ get_neighbors (grid t) (ai_pos (grid t)) →
  find_path (grid t) (ai_pos (grid t)) (player_pos (grid t))
    = Ok [player_pos (grid t)] ∧
  ∃ t' out, move_ai r t = Ok (t', out) ∧
    outcome (t', out) = Captured ∧
    ai_pos (grid t') = player_pos (grid t') ∧
    player_pos (grid t') = player_pos (grid t) ∧
    state t' = GAME_OVER ∧ ai_won t' = true.
Proof.
  intros Hadj. pose proof (find_path_neighbor _ _ _ Hadj) as Hpath.
  split; [done |].
  assert (ai_pos (grid t) ≠ player_pos (grid t)) as Hne.
  { intros Heq. rewrite <- Heq in Hadj. apply neighbor_step in Hadj as [_ Hadj].
    unfold cardinally_adjacent in Hadj. lia. }
  unfold move_ai. rewrite decide_False by done. rewrite Hpath. simpl.
  unfold step_to. simpl. rewrite decide_True by done. simpl.
  eexists _, _. split; [reflexivity |].
  rewrite outcome_game_over by set_solver. by repeat split.
Qed.

Lemma move_ai_adjacent_captures_witness :
  let g := with_ai_pos (blank_grid 3 3 EASY) (0, 1) in
  let t := mkTowerTrek PLAYING EASY 1 0 3 g false in
  player_pos (grid t) ∈ get_neighbors (grid t) (ai_pos (grid t)) ∧
  find_path (grid t) (ai_pos (grid t)) (player_pos (grid t))
    = Ok [player_pos (grid t)] ∧
  ∃ t' out, move_ai 0 t = Ok (t', out) ∧
    outcome (t', out) = Captured ∧
    ai_pos (grid t') = player_pos (grid t') ∧
    player_pos (grid t') = player_pos (grid t) ∧
    state t' = GAME_OVER ∧ ai_won t' = true.
Proof.
  intros g t.
  assert (player_pos (grid t) ∈ get_neighbors (grid t) (ai_pos (grid t))) as Hn
    by (apply (bool_decide_unpack _); vm_compute; exact I).
  split; [exact Hn |]. apply move_ai_adjacent_captures. exact Hn.
Defined.

(** X15. While the player can be reached the pursuer follows its path: it steps
    to the first cell of the list of [find_path], a neighbor of its cell, and
    the rest of the list is a walk from there to the player. *)
Theorem move_ai_follows_path (r : nat) (t : TowerTrek) :
  ai_pos (grid t) ≠ player_pos (grid t) →
  reachable (grid t) (ai_pos (grid t)) (player_pos (grid t)) →
  ∃ t' out p rest, move_ai r t = Ok (t', out) ∧
    find_path (grid t) (ai_pos (grid t)) (player_pos (grid t)) = Ok (p :: rest) ∧
    ai_pos (grid t') = p ∧
    p ∈ get_neighbors (grid t) (ai_pos (grid t)) ∧
    walk_to (grid t) p rest (player_pos (grid t)) ∧
    outcome (t', out) ≠ Stalled.
Proof.
  intros Hne Hreach.
  destruct (find_path_correct (grid t) _ _ Hne) as (l & Hl & [[_ Hn]|[Hnil Hw]]);
    [done |].
  destruct l as [|p rest]; [done |]. destruct Hw as [[Hp Hw] Hlast].
  unfold move_ai. rewrite decide_False by done. rewrite Hl. simpl.
  exists (step_to t p (MovedPathfinding p) CaughtPathfinding).1,
         (step_to t p (MovedPathfinding p) CaughtPathfinding).2, p, rest.
  split; [by destruct (step_to _ _ _ _) |]. split; [done |].
  rewrite step_to_grid. split; [done |]. split; [done |].
  split; [split; [done | by rewrite last_cons_cons in Hlast] |].
  replace (_.1, _.2) with (step_to t p (MovedPathfinding p) CaughtPathfinding)
    by (by destruct (step_to _ _ _ _)).
  rewrite step_to_outcome by done.
  by destruct (decide (p = player_pos (grid t))).
Qed.

Lemma move_ai_follows_path_witness :
  let t := mkTowerTrek PLAYING EASY 1 0 3 (blank_grid 3 3 EASY) false in
  ai_pos (grid t) ≠ player_pos (grid t) ∧
  reachable (grid t) (ai_pos (grid t)) (player_pos (grid t)) ∧
  ∃ t' out p rest, move_ai 0 t = Ok (t', out) ∧
    find_path (grid t) (ai_pos (grid t)) (player_pos (grid t)) = Ok (p :: rest) ∧
    ai_pos (grid t') = p ∧
    p ∈ get_neighbors (grid t) (ai_pos (grid t)) ∧
    walk_to (grid t) p rest (player_pos (grid t)) ∧
    outcome (t', out) ≠ Stalled.
Proof.
  intros t.
  assert (ai_pos (grid t) ≠ player_pos (grid t)) as Hne by discriminate.
  assert (reachable (grid t) (ai_pos (grid t)) (player_pos (grid t))) as Hr
    by (apply is_path_exists_true; vm_compute; reflexivity).
  split; [exact Hne |]. split; [exact Hr |].
  apply move_ai_follows_path; [exact Hne | exact Hr].
Defined.

(** ** The turns of the game *)

Lemma initialize_game_board draws t t' :
  initialize_game draws t = Ok t' →
  fresh_board (game_difficulty t) (grid t') ∧
  state t' = state t ∧ game_difficulty t' = game_difficulty t ∧
  level t' = level t ∧ score t' = score t ∧
  moves t' = 0 ∧ ai_won t' = false.
Proof.
  unfold initialize_game. intros (g & Hinit & Ht')%bind_Ok.
  inversion Ht'; subst; simpl. split; [| by repeat split].
  destruct (Grid_init_inv _ _ _ _ _ Hinit)
    as (_ & _ & [_ Hpath] & Hw & Hh & Hd & Hp & Ha & Hg).
  destruct (Grid_init_built _ _ _ _ _ Hinit) as (num & Hnum & _ & Hcount).
  unfold fresh_board. rewrite Hp, Ha, Hg in *.
  split; [done |]. split; [done |]. split; [done |].
  split; [done |]. split; [done |]. split; [done |].
  split; [| split; [done |]].
  - rewrite Hcount. unfold GRID_SIZE in Hnum.
    destruct (game_difficulty t); vm_compute in Hnum; inversion Hnum; reflexivity.
  - split; apply (Grid_init_protected _ _ _ _ _ _ _ Hinit);
      unfold GRID_SIZE, protected; try lia; auto.
Qed.

Lemma is_valid_move_same_cells g g' p :
  width g' = width g → height g' = height g → cells g' = cells g →
  is_valid_move g' p = is_valid_move g p.
Proof.
  intros Hw Hh Hc. unfold is_valid_move. by rewrite Hw, Hh, Hc.
Qed.

Lemma new_pos_of_adjacent p key np :
  new_pos_of p key = Some np → cardinally_adjacent p np.
Proof.
  destruct p as [x y]. unfold new_pos_of, cardinally_adjacent.
  repeat case_bool_decide; intros [= <-]; simpl; lia.
Qed.

(** X16. A game that is being played ignores every event that is not the press of
    a key of movement towards a cell that can be walked on: nothing of the
    game changes, no move is counted and the pursuer does not move. *)
Theorem handle_event_blocked (debug : bool) (draws : list nat) (r : nat)
    (event : Event) (t : TowerTrek) :
  state t = PLAYING →
  (∀ key new_pos,
     event = KEYDOWN key →
     new_pos_of (player_pos (grid t)) key = Some new_pos →
     is_valid_move (grid t) new_pos = false) →
  ∃ out, handle_event debug draws r event t = Ok (t, out) ∧
         ∀ m, AiLine m ∉ out.
Proof.
  intros Hstate Hblocked. unfold handle_event. rewrite Hstate.
  destruct event as [key|].
  - destruct (new_pos_of (player_pos (grid t)) key) as [np|] eqn:Hnp.
    + rewrite (Hblocked key np eq_refl Hnp). eexists. split; [done |].
      intros m. destruct debug; set_solver.
    + eexists. split; [done |]. intros m. destruct debug; set_solver.
  - eexists. split; [done |]. intros m. set_solver.
Qed.

Lemma handle_event_blocked_witness :
  let t := mkTowerTrek PLAYING EASY 1 0 3 (blank_grid 3 3 EASY) false in
  state t = PLAYING ∧
  new_pos_of (player_pos (grid t)) K_UP = Some (0, -1) ∧
  is_valid_move (grid t) (0, -1) = false ∧
  ∃ out, handle_event true [] 0 (KEYDOWN K_UP) t = Ok (t, out) ∧
         ∀ m, AiLine m ∉ out.
Proof.
  intros t. split; [reflexivity |]. split; [reflexivity |].
  split; [reflexivity |].
  apply handle_event_blocked; [reflexivity |].
  intros key np [= <-] Hnp. vm_compute in Hnp. inversion Hnp. reflexivity.
Defined.

(** X17. A move onto the goal ends the level at once: the player stands on the
    goal, the move is counted, the score grows by 1000 less ten times the
    moves of the level, and the pursuer is not moved nor is a collision
    looked for, even if the pursuer stands on the goal. *)
Theorem handle_event_goal (debug : bool) (draws : list nat) (r : nat)
    (key : Key) (t : TowerTrek) :
  state t = PLAYING →
  new_pos_of (player_pos (grid t)) key = Some (goal_pos (grid t)) →
  is_valid_move (grid t) (goal_pos (grid t)) = true →
  ∃ t' out, handle_event debug draws r (KEYDOWN key) t = Ok (t', out) ∧
    state t' = LEVEL_COMPLETE ∧
    grid t' = with_player_pos (grid t) (goal_pos (grid t)) ∧
    moves t' = moves t + 1 ∧
    score t' = score t + 1000 - 10 * (moves t + 1) ∧
    level t' = level t ∧ ai_won t' = ai_won t ∧
    ∀ m, AiLine m ∉ out.
Proof.
  intros Hstate Hnp Hvalid. unfold handle_event. rewrite Hstate, Hnp, Hvalid.
  simpl. rewrite decide_True by done. simpl.
  eexists _, _. split; [reflexivity |]. simpl.
  split; [done |]. split; [done |]. split; [done |]. split; [lia |].
  split; [done |]. split; [done |].
  intros m. destruct debug; set_solver.
Qed.

Lemma handle_event_goal_witness :
  let g := with_ai_pos (with_player_pos (blank_grid 3 3 EASY) (2, 1)) (2, 0) in
  let t := mkTowerTrek PLAYING EASY 1 0 3 g false in
  state t = PLAYING ∧
  new_pos_of (player_pos (grid t)) K_w = Some (goal_pos (grid t)) ∧
  is_valid_move (grid t) (goal_pos (grid t)) = true ∧
  ai_pos (grid t) = goal_pos (grid t) ∧
  ∃ t' out, handle_event false [] 0 (KEYDOWN K_w) t = Ok (t', out) ∧
    state t' = LEVEL_COMPLETE ∧
    grid t' = with_player_pos (grid t) (goal_pos (grid t)) ∧
    moves t' = moves t + 1 ∧
    score t' = score t + 1000 - 10 * (moves t + 1) ∧
    level t' = level t ∧ ai_won t' = ai_won t ∧
    ∀ m, AiLine m ∉ out.
Proof.
  intros g t. split; [reflexivity |]. split; [reflexivity |].
  split; [reflexivity |]. split; [reflexivity |].
  apply handle_event_goal; reflexivity.
Defined.

(** What [move_ai] does to the game, whichever way the pursuer moves. *)
Lemma move_ai_summary r t :
  ∃ t' out, move_ai r t = Ok (t', out) ∧
    grid t' = with_ai_pos (grid t) (ai_pos (grid t')) ∧
    (ai_pos (grid t') = ai_pos (grid t) ∨
     ai_pos (grid t') ∈ get_neighbors (grid t) (ai_pos (grid t))) ∧
    (ai_pos (grid t') = player_pos (grid t) →
     state t' = GAME_OVER ∧ ai_won t' = true) ∧
    (ai_pos (grid t') ≠ player_pos (grid t) →
     state t' = state t ∧ ai_won t' = ai_won t) ∧
    level t' = level t ∧ score t' = score t ∧ moves t' = moves t ∧
    game_difficulty t' = game_difficulty t.
Proof.
  destruct (move_ai_cases r t) as (t' & out & Hmove & Hcases).
  exists t', out. split; [done |].
  assert (grid t = with_ai_pos (grid t) (ai_pos (grid t))) as Hsame
    by (by destruct (grid t)).
  destruct Hcases as [[Heq Hres]|[(Hne & _ & Hres)|(Hne & p & moved & caught & Hres & Hp & _)]].
  - inversion Hres; subst. simpl. split; [done |]. split; [by left |].
    split; [done |]. split; [done |]. done.
  - inversion Hres; subst. split; [done |]. split; [by left |].
    split; [done |]. split; [done |]. done.
  - pose proof (step_to_frame t p moved caught) as Hf. rewrite <- Hres in Hf.
    simpl in Hf. destruct Hf as (Hg & Hl & Hs & Hm & Hd & Hc & Hn).
    assert (ai_pos (grid t') = p) as Hp' by (by rewrite Hg).
    rewrite Hp'. split; [done |]. split; [by right |].
    split; [done |]. split; [done |]. done.
Qed.

Lemma get_neighbors_same_cells g g' p :
  width g' = width g → height g' = height g → cells g' = cells g →
  get_neighbors g' p = get_neighbors g p.
Proof.
  intros Hw Hh Hc. rewrite !get_neighbors_unfold.
  by rewrite !(is_valid_move_same_cells g g') by done.
Qed.

(** What a counted move that does not reach the goal does to the game. *)
Lemma handle_event_turn debug draws r key t np :
  state t = PLAYING →
  new_pos_of (player_pos (grid t)) key = Some np →
  is_valid_move (grid t) np = true →
  np ≠ goal_pos (grid t) →
  ∃ t' out a, handle_event debug draws r (KEYDOWN key) t = Ok (t', out) ∧
    grid t' = with_ai_pos (with_player_pos (grid t) np) a ∧
    (a = ai_pos (grid t) ∨ a ∈ get_neighbors (grid t) (ai_pos (grid t))) ∧
    (a = np → state t' = GAME_OVER ∧ ai_won t' = true) ∧
    (a ≠ np → state t' = PLAYING ∧ ai_won t' = ai_won t) ∧
    moves t' = moves t + 1 ∧ score t' = score t ∧ level t' = level t ∧
    game_difficulty t' = game_difficulty t.
Proof.
  intros Hstate Hnp Hvalid Hgoal. unfold handle_event.
  rewrite Hstate, Hnp, Hvalid. simpl. rewrite decide_False by done.
  set (t1 := mkTowerTrek _ _ _ _ _ _ _).
  destruct (move_ai_summary r t1)
    as (t2 & out2 & -> & Hg & Hstep & Hc & Hn & Hl & Hs & Hm & Hd).
  simpl. subst t1. simpl in *.
  assert (player_pos (grid t2) = np) as Hp2 by (by rewrite Hg).
  unfold check_collision.
  destruct (decide (player_pos (grid t2) = ai_pos (grid t2))) as [Heq|Hne].
  - simpl. eexists _, _, (ai_pos (grid t2)). split; [reflexivity |]. simpl.
    split; [done |]. split.
    { destruct Hstep as [?|Hin]; [by left | right].
      by rewrite (get_neighbors_same_cells (grid t)) in Hin. }
    split; [done |]. split; [intros ?; congruence |]. done.
  - eexists _, _, (ai_pos (grid t2)). split; [reflexivity |].
    split; [done |]. split.
    { destruct Hstep as [?|Hin]; [by left | right].
      by rewrite (get_neighbors_same_cells (grid t)) in Hin. }
    split; [intros ?; congruence |].
    split; [intros Ha; destruct (Hn Ha) as [-> ->]; done |]. done.
Qed.

(** X18. A move of the player to a free cell other than the goal is counted once
    and changes neither score nor level; the player then stands on the cell
    asked for, one step from where it was, and the pursuer has stayed or gone
    to one of its neighbors. The game is over, with [ai_won] set, exactly when
    the pursuer then stands on the player; otherwise it goes on. The cells and
    the goal are those of before. *)
Theorem handle_event_move (debug : bool) (draws : list nat) (r : nat)
    (key : Key) (t : TowerTrek) (new_pos : pos) :
  state t = PLAYING →
  new_pos_of (player_pos (grid t)) key = Some new_pos →
  is_valid_move (grid t) new_pos = true →
  new_pos ≠ goal_pos (grid t) →
  ∃ t' out, handle_event debug draws r (KEYDOWN key) t = Ok (t', out) ∧
    player_pos (grid t') = new_pos ∧
    cardinally_adjacent (player_pos (grid t)) new_pos ∧
    moves t' = moves t + 1 ∧ score t' = score t ∧ level t' = level t ∧
    (ai_pos (grid t') = ai_pos (grid t) ∨
     ai_pos (grid t') ∈ get_neighbors (grid t) (ai_pos (grid t))) ∧
    (ai_pos (grid t') = new_pos → state t' = GAME_OVER ∧ ai_won t' = true) ∧
    (ai_pos (grid t') ≠ new_pos →
     state t' = PLAYING ∧ ai_won t' = ai_won t) ∧
    cells (grid t') = cells (grid t) ∧ goal_pos (grid t') = goal_pos (grid t).
Proof.
  intros Hstate Hnp Hvalid Hgoal.
  destruct (handle_event_turn debug draws r key t new_pos Hstate Hnp Hvalid Hgoal)
    as (t' & out & a & Hev & Hg & Hstep & Hc & Hn & Hm & Hs & Hl & _).
  exists t', out. split; [done |]. rewrite Hg. simpl.
  split; [done |]. split; [by eapply new_pos_of_adjacent |].
  by repeat (split; [done |]).
Qed.

Lemma handle_event_move_witness :
  let g := with_player_pos (blank_grid 4 4 EASY) (0, 3) in
  let t := mkTowerTrek PLAYING EASY 1 0 3 g false in
  state t = PLAYING ∧
  new_pos_of (player_pos (grid t)) K_UP = Some (0, 2) ∧
  is_valid_move (grid t) (0, 2) = true ∧
  (0, 2) ≠ goal_pos (grid t) ∧
  ∃ t' out, handle_event true [] 0 (KEYDOWN K_UP) t = Ok (t', out) ∧
    player_pos (grid t') = (0, 2) ∧
    cardinally_adjacent (player_pos (grid t)) (0, 2) ∧
    moves t' = moves t + 1 ∧ score t' = score t ∧ level t' = level t ∧
    (ai_pos (grid t') = ai_pos (grid t) ∨
     ai_pos (grid t') ∈ get_neighbors (grid t) (ai_pos (grid t))) ∧
    (ai_pos (grid t') = (0, 2) → state t' = GAME_OVER ∧ ai_won t' = true) ∧
    (ai_pos (grid t') ≠ (0, 2) →
     state t' = PLAYING ∧ ai_won t' = ai_won t) ∧
    cells (grid t') = cells (grid t) ∧ goal_pos (grid t') = goal_pos (grid t).
Proof.
  intros g t. split; [reflexivity |]. split; [reflexivity |].
  split; [reflexivity |]. split; [discriminate |].
  apply (handle_event_move true [] 0%nat K_UP t (0, 2));
    [reflexivity | reflexivity | reflexivity | discriminate].
Defined.

(** X19. A player who steps onto the pursuer or onto a cell next to it, the goal
    apart, loses at once: the pursuer ends on the player and the game is
    over. *)
Theorem handle_event_next_to_pursuer (debug : bool) (draws : list nat)
    (r : nat) (key : Key) (t : TowerTrek) (new_pos : pos) :
  state t = PLAYING →
  new_pos_of (player_pos (grid t)) key = Some new_pos →
  is_valid_move (grid t) new_pos = true →
  new_pos ≠ goal_pos (grid t) →
  heuristic (ai_pos (grid t)) new_pos ≤ 1 →
  ∃ t' out, handle_event debug draws r (KEYDOWN key) t = Ok (t', out) ∧
    state t' = GAME_OVER ∧ ai_won t' = true ∧
    player_pos (grid t') = new_pos ∧ ai_pos (grid t') = new_pos.
Proof.
  intros Hstate Hnp Hvalid Hgoal Hnear. unfold handle_event.
  rewrite Hstate, Hnp, Hvalid. simpl. rewrite decide_False by done.
  set (t1 := mkTowerTrek _ _ _ _ _ _ _).
  destruct (decide (ai_pos (grid t) = new_pos)) as [Heq|Hne].
  - unfold move_ai. rewrite decide_True by done. simpl.
    unfold check_collision. simpl. rewrite decide_True by done. simpl.
    eexists _, _. split; [reflexivity |]. simpl. by repeat split.
  - assert (new_pos ∈ get_neighbors (grid t1) (ai_pos (grid t1))) as Hadj.
    { apply elem_of_get_neighbors. split.
      - simpl. destruct (ai_pos (grid t)) as [ax ay], new_pos as [nx ny].
        unfold heuristic in Hnear. simpl in Hnear.
        unfold up, right, down, left. simpl.
        assert ((nx, ny) = (ax, ay - 1) ∨ (nx, ny) = (ax + 1, ay) ∨
                (nx, ny) = (ax, ay + 1) ∨ (nx, ny) = (ax - 1, ay)) as Hd.
        { assert (nx ≠ ax ∨ ny ≠ ay) as Hd by
            (destruct (decide (nx = ax)); [right; congruence | by left]).
          assert (nx = ax ∧ ny = ay - 1 ∨ nx = ax + 1 ∧ ny = ay ∨
                  nx = ax ∧ ny = ay + 1 ∨ nx = ax - 1 ∧ ny = ay) by lia.
          naive_solver. }
        set_solver.
      - by rewrite (is_valid_move_same_cells (grid t)). }
    pose proof (find_path_neighbor _ _ _ Hadj) as Hpath.
    unfold move_ai. rewrite decide_False by done.
    change (player_pos (grid t1)) with new_pos in *. rewrite Hpath. simpl.
    unfold step_to. simpl. rewrite decide_True by done. simpl.
    unfold check_collision. simpl. rewrite decide_True by done. simpl.
    eexists _, _. split; [reflexivity |]. simpl. by repeat split.
Qed.

Lemma handle_event_next_to_pursuer_witness :
  let g := with_ai_pos (with_player_pos (blank_grid 4 4 EASY) (0, 3)) (1, 2) in
  let t := mkTowerTrek PLAYING EASY 1 0 3 g false in
  state t = PLAYING ∧
  new_pos_of (player_pos (grid t)) K_UP = Some (0, 2) ∧
  is_valid_move (grid t) (0, 2) = true ∧
  (0, 2) ≠ goal_pos (grid t) ∧
  heuristic (ai_pos (grid t)) (0, 2) ≤ 1 ∧
  ∃ t' out, handle_event true [] 0 (KEYDOWN K_UP) t = Ok (t', out) ∧
    state t' = GAME_OVER ∧ ai_won t' = true ∧
    player_pos (grid t') = (0, 2) ∧ ai_pos (grid t') = (0, 2).
Proof.
  intros g t. split; [reflexivity |]. split; [reflexivity |].
  split; [reflexivity |]. split; [discriminate |].
  split; [vm_compute; discriminate |].
  apply (handle_event_next_to_pursuer true [] 0%nat K_UP t (0, 2));
    [reflexivity | reflexivity | reflexivity | discriminate
    | vm_compute; discriminate].
Defined.

Lemma fresh_board_inv d t :
  fresh_board d (grid t) → game_inv t.
Proof.
  intros (_ & _ & _ & Hp & Ha & _ & _ & _ & Hvp & Hva).
  split; [by split |]. intros _. rewrite Hp, Ha. discriminate.
Qed.

(** X20. The turns of the game keep player and pursuer on cells that can be walked
    on, and never leave a game that is being played with the pursuer on the
    player: after [handle_event] the check of [update] finds nothing. *)
Theorem handle_event_invariant (debug : bool) (draws : list nat) (r : nat)
    (event : Event) (t t' : TowerTrek) (out : list Line) :
  game_inv t →
  handle_event debug draws r event t = Ok (t', out) →
  game_inv t' ∧ update t' = (t', []).
Proof.
  intros Hinv Hev.
  assert (game_inv t') as Hinv'; [| split; [done |]].
  2:{ unfold update, check_collision. destruct Hinv' as [_ Hne].
      destruct (decide (state t' = PLAYING)) as [Hs|]; [| done].
      by rewrite decide_False by auto. }
  pose proof Hinv as [[Hvp Hva] Hne].
  destruct (state t) eqn:Hstate.
  - (* MENU *)
    unfold handle_event in Hev. rewrite Hstate in Hev.
    destruct event as [key|]; [| inversion Hev; subst; exact Hinv].
    destruct (decide (key = K_SPACE)).
    + apply bind_Ok in Hev as (t1 & Hstart & Hev). inversion Hev; subst.
      apply initialize_game_board in Hstart as [Hfresh _].
      by eapply fresh_board_inv.
    + assert (grid t' = grid t ∧ state t' = MENU) as [Hg Hs].
      { repeat case_bool_decide; inversion Hev; subst; by simpl. }
      unfold game_inv, positions_ok. rewrite Hg, Hs. by split.
  - (* PLAYING *)
    destruct event as [key|].
    2:{ unfold handle_event in Hev. rewrite Hstate in Hev.
        inversion Hev; subst. exact Hinv. }
    destruct (new_pos_of (player_pos (grid t)) key) as [np|] eqn:Hnp.
    2:{ unfold handle_event in Hev. rewrite Hstate, Hnp in Hev.
        inversion Hev; subst. exact Hinv. }
    destruct (is_valid_move (grid t) np) eqn:Hvalid.
    2:{ unfold handle_event in Hev. rewrite Hstate, Hnp, Hvalid in Hev.
        inversion Hev; subst. exact Hinv. }
    destruct (decide (np = goal_pos (grid t))) as [Hgoal|Hgoal].
    + unfold handle_event in Hev. rewrite Hstate, Hnp, Hvalid in Hev.
      simpl in Hev. rewrite decide_True in Hev by done.
      inversion Hev; subst t' out. split; [| done].
      split; simpl; by rewrite (is_valid_move_same_cells (grid t)).
    + destruct (handle_event_turn debug draws r key t np Hstate Hnp Hvalid Hgoal)
        as (t2 & out2 & a & Hev2 & Hg & Hstep & Hc & Hn & _).
      rewrite Hev2 in Hev. inversion Hev; subst t2 out2.
      unfold game_inv, positions_ok. rewrite Hg. simpl.
      split; [split |].
      * by rewrite (is_valid_move_same_cells (grid t)).
      * rewrite (is_valid_move_same_cells (grid t)) by done.
        destruct Hstep as [->|Hin]; [done |].
        by apply neighbor_step in Hin as [? _].
      * intros Hs Heq. symmetry in Heq. destruct (Hc Heq) as [Hs' _].
        congruence.
  - (* GAME_OVER *)
    unfold handle_event in Hev. rewrite Hstate in Hev.
    destruct event as [key|]; [| inversion Hev; subst; exact Hinv].
    destruct (decide (key = K_SPACE)); inversion Hev; subst; [| exact Hinv].
    split; [by split | done].
  - (* LEVEL_COMPLETE *)
    unfold handle_event in Hev. rewrite Hstate in Hev.
    destruct event as [key|]; [| inversion Hev; subst; exact Hinv].
    destruct (decide (key = K_SPACE)); [| inversion Hev; subst; exact Hinv].
    apply bind_Ok in Hev as (t1 & Hnext & Hev). inversion Hev; subst.
    unfold start_next_level in Hnext.
    apply bind_Ok in Hnext as (t2 & Hinit & Hnext). inversion Hnext; subst.
    apply initialize_game_board in Hinit as [Hfresh _].
    by eapply (fresh_board_inv _ (with_state t2 PLAYING)).
Qed.

Lemma handle_event_invariant_witness :
  let g := with_ai_pos (with_player_pos (blank_grid 4 4 EASY) (0, 3)) (1, 2) in
  let t := mkTowerTrek PLAYING EASY 1 0 3 g false in
  ∃ t' out, game_inv t ∧
    handle_event true [] 0 (KEYDOWN K_UP) t = Ok (t', out) ∧
    game_inv t' ∧ update t' = (t', []).
Proof.
  intros g t. eexists _, _.
  assert (game_inv t) as Hinv.
  { split; [split; reflexivity |]. intros _. discriminate. }
  split; [exact Hinv |]. split; [vm_compute; reflexivity |].
  eapply (handle_event_invariant true [] 0%nat (KEYDOWN K_UP) t);
    [exact Hinv | vm_compute; reflexivity].
Defined.

(** X21. SPACE in the menu starts a game, whenever the generation of the board
    returns: level 1, score 0, no move counted, [ai_won] cleared, at the
    difficulty chosen in the menu, on a fresh board of 10 by 10 cells that
    has 15, 25 or 35 obstacles by difficulty, the player at the bottom left,
    the pursuer at the bottom right and a way from the player to the goal. *)
Theorem handle_event_menu_start (debug : bool) (draws : list nat) (r : nat)
    (t t' : TowerTrek) (out : list Line) :
  state t = MENU →
  handle_event debug draws r (KEYDOWN K_SPACE) t = Ok (t', out) →
  state t' = PLAYING ∧ level t' = 1 ∧ score t' = 0 ∧ moves t' = 0 ∧
  ai_won t' = false ∧ game_difficulty t' = game_difficulty t ∧
  fresh_board (game_difficulty t) (grid t').
Proof.
  intros Hstate Hev. unfold handle_event in Hev. rewrite Hstate in Hev.
  rewrite decide_True in Hev by done.
  apply bind_Ok in Hev as (t1 & Hstart & Hev). inversion Hev; subst.
  apply initialize_game_board in Hstart
    as (Hfresh & Hs & Hd & Hl & Hsc & Hm & Haw).
  simpl in *. by repeat (split; [done |]).
Qed.

Lemma handle_event_menu_start_witness :
  let t := mkTowerTrek MENU EASY 5 70 3 (blank_grid 3 3 EASY) true in
  ∃ t' out, state t = MENU ∧
    handle_event true draws_easy 0 (KEYDOWN K_SPACE) t = Ok (t', out) ∧
    state t' = PLAYING ∧ level t' = 1 ∧ score t' = 0 ∧ moves t' = 0 ∧
    ai_won t' = false ∧ game_difficulty t' = game_difficulty t ∧
    fresh_board (game_difficulty t) (grid t').
Proof.
  intros t. eexists _, _. split; [reflexivity |].
  split; [vm_compute; reflexivity |].
  eapply (handle_event_menu_start true draws_easy 0%nat t);
    [reflexivity | vm_compute; reflexivity].
Defined.

(** X22. SPACE after a completed level starts the next one, whenever the
    generation of the board returns: the level is one more, the score is
    kept, no move is counted and [ai_won] is cleared. The difficulty goes up
    by one rank, HARD at most, when the new level is a multiple of 3 and is
    kept otherwise, and the board is a fresh one of that difficulty. *)
Theorem handle_event_next_level (debug : bool) (draws : list nat) (r : nat)
    (t t' : TowerTrek) (out : list Line) :
  state t = LEVEL_COMPLETE →
  handle_event debug draws r (KEYDOWN K_SPACE) t = Ok (t', out) →
  state t' = PLAYING ∧ level t' = level t + 1 ∧ score t' = score t ∧
  moves t' = 0 ∧ ai_won t' = false ∧
  difficulty_rank (game_difficulty t')
  = (if decide ((level t + 1) mod 3 = 0)
     then Z.min 2 (difficulty_rank (game_difficulty t) + 1)
     else difficulty_rank (game_difficulty t)) ∧
  fresh_board (game_difficulty t') (grid t').
Proof.
  intros Hstate Hev. unfold handle_event in Hev. rewrite Hstate in Hev.
  rewrite decide_True in Hev by done.
  apply bind_Ok in Hev as (t1 & Hnext & Hev). inversion Hev; subst.
  unfold start_next_level in Hnext.
  apply bind_Ok in Hnext as (t2 & Hinit & Hnext). inversion Hnext; subst.
  apply initialize_game_board in Hinit
    as (Hfresh & Hs & Hd & Hl & Hsc & Hm & Haw).
  simpl in *. rewrite Hd.
  split; [done |]. split; [done |]. split; [done |]. split; [done |].
  split; [done |]. split; [| done].
  destruct (decide ((level t + 1) mod 3 = 0)) as [Hz|Hz].
  - rewrite Hz. simpl. by destruct (game_difficulty t).
  - apply Z.eqb_neq in Hz. by rewrite Hz.
Qed.

Lemma handle_event_next_level_witness :
  let t := mkTowerTrek LEVEL_COMPLETE EASY 1 940 6 (blank_grid 3 3 EASY) false in
  ∃ t' out, state t = LEVEL_COMPLETE ∧
    handle_event true draws_easy 0 (KEYDOWN K_SPACE) t = Ok (t', out) ∧
    state t' = PLAYING ∧ level t' = level t + 1 ∧ score t' = score t ∧
    moves t' = 0 ∧ ai_won t' = false ∧
    difficulty_rank (game_difficulty t')
    = (if decide ((level t + 1) mod 3 = 0)
       then Z.min 2 (difficulty_rank (game_difficulty t) + 1)
       else difficulty_rank (game_difficulty t)) ∧
    fresh_board (game_difficulty t') (grid t').
Proof.
  intros t. eexists _, _. split; [reflexivity |].
  split; [vm_compute; reflexivity |].
  eapply (handle_event_next_level true draws_easy 0%nat t);
    [reflexivity | vm_compute; reflexivity].
Defined.

(** X23. The difficulty follows the level: a game started at the difficulty [d0]
    is, at the level [n], [n / 3] ranks above [d0], HARD at most. [start_game]
    sets this up at level 1 and [start_next_level] keeps it. *)
Theorem difficulty_follows_schedule (d0 : Difficulty) (draws : list nat)
    (t t' : TowerTrek) :
  (start_game draws t = Ok t' ∧ d0 = game_difficulty t) ∨
  (start_next_level draws t = Ok t' ∧ difficulty_schedule d0 t) →
  difficulty_schedule d0 t'.
Proof.
  intros [[Hstart ->]|[Hnext [Hl Hsched]]].
  - unfold start_game in Hstart.
    apply initialize_game_board in Hstart as (_ & _ & Hd & Hl & _).
    simpl in *. unfold difficulty_schedule. rewrite Hd, Hl.
    split; [done |]. change (1 / 3) with 0.
    destruct (game_difficulty t); reflexivity.
  - unfold start_next_level in Hnext.
    apply bind_Ok in Hnext as (t2 & Hinit & Hnext). inversion Hnext; subst.
    apply initialize_game_board in Hinit as (_ & _ & Hd & Hl' & _).
    simpl in *. unfold difficulty_schedule. simpl. rewrite Hd, Hl'.
    split; [lia |].
    pose proof (Z.div_mod (level t + 1) 3 ltac:(lia)) as Hdm1.
    pose proof (Z.div_mod (level t) 3 ltac:(lia)) as Hdm.
    pose proof (Z.mod_pos_bound (level t + 1) 3 ltac:(lia)) as Hb1.
    pose proof (Z.mod_pos_bound (level t) 3 ltac:(lia)) as Hb.
    destruct ((level t + 1) mod 3 =? 0) eqn:Hz.
    + apply Z.eqb_eq in Hz.
      assert ((level t + 1) / 3 = level t / 3 + 1) as -> by lia.
      destruct (game_difficulty t), d0; simpl in *; lia.
    + apply Z.eqb_neq in Hz.
      assert ((level t + 1) / 3 = level t / 3) as -> by lia.
      done.
Qed.

Lemma difficulty_follows_schedule_witness :
  let t := mkTowerTrek LEVEL_COMPLETE EASY 1 940 6 (blank_grid 3 3 EASY) false in
  ∃ t', ((start_game draws_easy t = Ok t' ∧ EASY = game_difficulty t) ∨
         (start_next_level draws_easy t = Ok t' ∧ difficulty_schedule EASY t)) ∧
        difficulty_schedule EASY t'.
Proof.
  intros t. eexists.
  assert (difficulty_schedule EASY t) as Hs by (split; [done | reflexivity]).
  split; [right; split; [vm_compute; reflexivity | exact Hs] |].
  apply (difficulty_follows_schedule EASY draws_easy t).
  right. split; [vm_compute; reflexivity | exact Hs].
Defined.
(** ** The size of a generated grid *)

Lemma elem_of_concat_lookup {A} (cs : list (list A)) (i j : nat) col (c : A) :
  cs !! i = Some col → col !! j = Some c → c ∈ concat cs.
Proof.
  revert i. induction cs as [|col' cs IH]; intros i Hcol Hc; [done |].
  simpl. apply elem_of_app. destruct i as [|i]; simpl in Hcol.
  - inversion Hcol; subst. left. by eapply list_elem_of_lookup_2.
  - right. by eapply IH.
Qed.

Lemma filter_split_length {A} (P : A → Prop) `{∀ x, Decision (P x)} (l : list A) :
  (length (filter P l) + length (filter (λ x, ¬ P x) l) = length l)%nat.
Proof.
  induction l as [|a l IH]; [done |].
  rewrite !filter_cons. destruct (decide (P a)).
  - rewrite decide_False by auto. simpl. lia.
  - rewrite decide_True by auto. simpl. lia.
Qed.

Lemma length_concat_insert {A} (cs : list (list A)) (i : nat) col col' :
  cs !! i = Some col → length col' = length col →
  length (concat (<[i := col']> cs)) = length (concat cs).
Proof.
  revert i. induction cs as [|c cs IH]; intros i Hcol Hlen; [done |].
  destruct i as [|i]; simpl in *.
  - inversion Hcol; subst. by rewrite !length_app, Hlen.
  - rewrite !length_app. f_equal. by apply IH.
Qed.

Lemma update_cell_size cs x y f cs' :
  0 ≤ x → 0 ≤ y → update_cell cs x y f = Ok cs' →
  length (concat cs') = length (concat cs).
Proof.
  intros Hx Hy Hup.
  destruct (update_cell_nonneg _ _ _ _ _ Hx Hy Hup) as (col & c & Hcol & Hc & ->).
  eapply length_concat_insert; [done |]. by rewrite length_insert.
Qed.

Lemma blank_cells_size w h :
  0 ≤ w → 0 ≤ h → length (concat (blank_cells w h)) = Z.to_nat (w * h).
Proof.
  intros Hw Hh. unfold blank_cells, range.
  assert (∀ l : list Z,
    length (concat ((λ x, (λ y, mkCell x y false false false) <$> seqZ 0 h) <$> l))
    = (length l * Z.to_nat h)%nat) as Hl.
  { induction l as [|a l IH]; [done |]. rewrite fmap_cons. cbn [concat].
    rewrite length_app, IH, length_fmap, length_seqZ. done. }
  rewrite Hl, length_seqZ. lia.
Qed.

Lemma Grid_init_size w h d draws g :
  Grid_init w h d draws = Ok g →
  length (concat (cells g)) = Z.to_nat (w * h).
Proof.
  intros Hinit.
  destruct (Grid_init_inv _ _ _ _ _ Hinit) as (Hw & Hh & _).
  unfold Grid_init, generate_grid, blank_grid in Hinit. simpl in Hinit.
  apply bind_Ok in Hinit as (cs1 & Hcs1 & Hinit).
  apply bind_Ok in Hinit as (cs2 & Hcs2 & Hinit).
  apply bind_Ok in Hinit as (num & Hnum & Hinit).
  set (I := λ (g : Grid) (placed : Z),
    length (concat (cells g)) = Z.to_nat (w * h)).
  eapply (place_obstacles_ind I _ _ _ _ 0 num g); [reflexivity | exact Hinit |].
  unfold I. simpl.
  rewrite (update_cell_size cs1 (w - 1) 0 _ cs2 ltac:(lia) ltac:(lia) Hcs2).
  rewrite (update_cell_size _ 0 0 _ cs1 ltac:(lia) ltac:(lia) Hcs1).
  apply blank_cells_size; lia.
  Unshelve.
  intros g0 placed x y c cs HI Hx Hy _ _ _ Hcs _. unfold I in *. simpl.
  by rewrite (update_cell_size (cells g0) x y _ cs ltac:(lia) ltac:(lia) Hcs).
Qed.

(** X10. A grid that the constructor returns, at least two cells wide and high,
    has [width * height] cells, and at least four of them are free: the cell
    (0, 0), the goal and the cells of the player and of the pursuer. So the
    constructor returns only when at most [width * height - 4] obstacles are
    asked for. *)
Theorem generated_grid_obstacle_bound (w h : Z) (d : Difficulty)
    (draws : list nat) (g : Grid) :
  Grid_init w h d draws = Ok g →
  2 ≤ w → 2 ≤ h →
  length (concat (cells g)) = Z.to_nat (w * h) ∧
  obstacle_count (cells g) ≤ w * h - 4 ∧
  ∀ num, target_obstacles w h d = Ok num → num ≤ w * h - 4.
Proof.
  intros Hinit Hw Hh.
  pose proof (Grid_init_size _ _ _ _ _ Hinit) as Hsize.
  destruct (Grid_init_built _ _ _ _ _ Hinit) as (num & Hnum & Hok & Hcount).
  split; [done |].
  assert (obstacle_count (cells g) ≤ w * h - 4) as Hbound; [| split; [done |]].
  2:{ intros num' Hnum'. rewrite Hnum in Hnum'. inversion Hnum'; subst. lia. }
  assert (∀ x y, 0 ≤ x < w → 0 ≤ y < h → protected w h (x, y) →
            ∃ c, c ∈ filter (λ c, ¬ is_obstacle c = true) (concat (cells g)) ∧
                 get_pos c = (x, y)) as Hfree.
  { intros x y Hx Hy Hpr. destruct (Hok x y Hx Hy) as (c & Hc & Hpos & _ & _ & Hf).
    exists c. split; [| done]. apply list_elem_of_filter. split.
    - rewrite (Hf Hpr). discriminate.
    - rewrite read_cell_nonneg in Hc by lia.
      destruct (cells g !! Z.to_nat x) as [col|] eqn:Hcol; [| done].
      destruct (col !! Z.to_nat y) as [c'|] eqn:Hc'; [| done].
      inversion Hc; subst. by eapply elem_of_concat_lookup. }
  destruct (Hfree 0 0) as (c1 & Hc1 & Hp1); [lia | lia | unfold protected; auto |].
  destruct (Hfree (w - 1) 0) as (c2 & Hc2 & Hp2); [lia | lia | unfold protected; auto |].
  destruct (Hfree 0 (h - 1)) as (c3 & Hc3 & Hp3); [lia | lia | unfold protected; auto |].
  destruct (Hfree (w - 1) (h - 1)) as (c4 & Hc4 & Hp4);
    [lia | lia | unfold protected; auto |].
  assert (NoDup [c1; c2; c3; c4]) as Hnd.
  { assert (∀ c c' : Cell, get_pos c ≠ get_pos c' → c ≠ c') as Hdiff
      by (intros ?? Hd ->; done).
    rewrite !NoDup_cons, !elem_of_cons, !elem_of_nil.
    assert (c1 ≠ c2) by (apply Hdiff; rewrite Hp1, Hp2; intros [=]; lia).
    assert (c1 ≠ c3) by (apply Hdiff; rewrite Hp1, Hp3; intros [=]; lia).
    assert (c1 ≠ c4) by (apply Hdiff; rewrite Hp1, Hp4; intros [=]; lia).
    assert (c2 ≠ c3) by (apply Hdiff; rewrite Hp2, Hp3; intros [=]; lia).
    assert (c2 ≠ c4) by (apply Hdiff; rewrite Hp2, Hp4; intros [=]; lia).
    assert (c3 ≠ c4) by (apply Hdiff; rewrite Hp3, Hp4; intros [=]; lia).
    split; [tauto |]. split; [tauto |]. split; [tauto |].
    split; [tauto | apply NoDup_nil_2]. }
  assert ([c1; c2; c3; c4] ⊆+
          filter (λ c, ¬ is_obstacle c = true) (concat (cells g))) as Hsub.
  { apply NoDup_submseteq; [done |]. intros c Hc.
    rewrite !elem_of_cons, elem_of_nil in Hc.
    destruct Hc as [Hc|[Hc|[Hc|[Hc|Hc]]]]; [by subst.. | done]. }
  apply submseteq_length in Hsub. simpl in Hsub.
  pose proof (filter_split_length (λ c, is_obstacle c = true) (concat (cells g)))
    as Hsplit.
  unfold obstacle_count. lia.
Qed.

Lemma generated_grid_obstacle_bound_witness :
  ∃ g, Grid_init 3 3 EASY [1; 1]%nat = Ok g ∧ 2 ≤ 3 ∧ 2 ≤ 3 ∧
    length (concat (cells g)) = Z.to_nat (3 * 3) ∧
    obstacle_count (cells g) ≤ 3 * 3 - 4 ∧
    ∀ num, target_obstacles 3 3 EASY = Ok num → num ≤ 3 * 3 - 4.
Proof.
  eexists. split; [vm_compute; reflexivity |]. split; [lia |]. split; [lia |].
  apply (generated_grid_obstacle_bound 3 3 EASY [1; 1]%nat);
    [vm_compute; reflexivity | lia | lia].
Defined.

(** ** The score of a level *)

Lemma fresh_board_level_inv d t :
  fresh_board d (grid t) → moves t = 0 → level_inv t.
Proof.
  intros (_ & _ & _ & Hp & _ & Hg & _) Hm. split; [done |].
  intros _. rewrite Hp, Hm. reflexivity.
Qed.

(** X24. A level is never completed in fewer than 18 moves, so that it adds at
    most 820 to the score; no other turn of a game that is being played
    changes the score. The count of the moves that this rests on is kept by
    every turn. *)
Theorem handle_event_score_bound (debug : bool) (draws : list nat) (r : nat)
    (event : Event) (t t' : TowerTrek) (out : list Line) :
  level_inv t →
  handle_event debug draws r event t = Ok (t', out) →
  level_inv t' ∧
  (state t = PLAYING → state t' = LEVEL_COMPLETE →
   18 ≤ moves t' ∧ score t' = score t + 1000 - 10 * moves t' ∧
   score t' ≤ score t + 820) ∧
  (state t = PLAYING → state t' ≠ LEVEL_COMPLETE → score t' = score t).
Proof.
  intros Hinv Hev. pose proof Hinv as [Hg Hmoves].
  destruct (state t) eqn:Hstate.
  - (* MENU *)
    split; [| by split]. unfold handle_event in Hev. rewrite Hstate in Hev.
    destruct event as [key|]; [| inversion Hev; subst; exact Hinv].
    destruct (decide (key = K_SPACE)).
    + apply bind_Ok in Hev as (t1 & Hstart & Hev). inversion Hev; subst.
      apply initialize_game_board in Hstart as (Hfresh & _ & _ & _ & _ & Hm & _).
      by eapply fresh_board_level_inv.
    + assert (grid t' = grid t ∧ state t' = MENU) as [Hg' Hs'].
      { repeat case_bool_decide; inversion Hev; subst; by simpl. }
      unfold level_inv. rewrite Hg', Hs'. by split.
  - (* PLAYING *)
    specialize (Hmoves eq_refl).
    assert (level_inv t ∧ (PLAYING = PLAYING → state t = LEVEL_COMPLETE →
              18 ≤ moves t ∧ score t = score t + 1000 - 10 * moves t ∧
              score t ≤ score t + 820) ∧
            (PLAYING = PLAYING → state t ≠ LEVEL_COMPLETE → score t = score t))
      as Hsame.
    { split; [done |]. split; [| done]. intros _ Hs. congruence. }
    destruct event as [key|].
    2:{ unfold handle_event in Hev. rewrite Hstate in Hev.
        inversion Hev; subst. exact Hsame. }
    destruct (new_pos_of (player_pos (grid t)) key) as [np|] eqn:Hnp.
    2:{ unfold handle_event in Hev. rewrite Hstate, Hnp in Hev.
        inversion Hev; subst. exact Hsame. }
    destruct (is_valid_move (grid t) np) eqn:Hvalid.
    2:{ unfold handle_event in Hev. rewrite Hstate, Hnp, Hvalid in Hev.
        inversion Hev; subst. exact Hsame. }
    clear Hsame.
    assert (heuristic np (0, GRID_SIZE - 1) ≤ moves t + 1) as Hstep.
    { apply new_pos_of_adjacent in Hnp. revert Hmoves Hnp.
      unfold heuristic, cardinally_adjacent.
      destruct (player_pos (grid t)) as [px py], np as [nx ny]. simpl. lia. }
    destruct (decide (np = goal_pos (grid t))) as [Hgoal|Hgoal].
    + unfold handle_event in Hev. rewrite Hstate, Hnp, Hvalid in Hev.
      simpl in Hev. rewrite decide_True in Hev by done.
      inversion Hev; subst t' out. simpl.
      split; [split; [done | discriminate] |]. split; [| done].
      intros _ _. rewrite Hgoal, Hg in Hstep.
      change (heuristic (GRID_SIZE - 1, 0) (0, GRID_SIZE - 1)) with 18 in Hstep.
      lia.
    + destruct (handle_event_turn debug draws r key t np Hstate Hnp Hvalid Hgoal)
        as (t2 & out2 & a & Hev2 & Hg2 & _ & Hc & Hn & Hm & Hs & _).
      rewrite Hev2 in Hev. inversion Hev; subst t2 out2.
      assert (state t' ≠ LEVEL_COMPLETE) as Hnot.
      { destruct (decide (a = np)) as [Ha|Ha].
        - destruct (Hc Ha) as [-> _]. discriminate.
        - destruct (Hn Ha) as [-> _]. discriminate. }
      split; [| split; [done | done]].
      unfold level_inv. rewrite Hg2, Hm. simpl. by split.
  - (* GAME_OVER *)
    split; [| by split]. unfold handle_event in Hev. rewrite Hstate in Hev.
    destruct event as [key|]; [| inversion Hev; subst; exact Hinv].
    destruct (decide (key = K_SPACE)); inversion Hev; subst; [| exact Hinv].
    split; [done | discriminate].
  - (* LEVEL_COMPLETE *)
    split; [| by split]. unfold handle_event in Hev. rewrite Hstate in Hev.
    destruct event as [key|]; [| inversion Hev; subst; exact Hinv].
    destruct (decide (key = K_SPACE)); [| inversion Hev; subst; exact Hinv].
    apply bind_Ok in Hev as (t1 & Hnext & Hev). inversion Hev; subst.
    unfold start_next_level in Hnext.
    apply bind_Ok in Hnext as (t2 & Hinit & Hnext). inversion Hnext; subst.
    apply initialize_game_board in Hinit as (Hfresh & _ & _ & _ & _ & Hm & _).
    by eapply (fresh_board_level_inv _ (with_state t2 PLAYING)).
Qed.

Lemma handle_event_score_bound_witness :
  let g0 := blank_grid 10 10 EASY in
  let g := with_ai_pos (with_player_pos g0 (9, 1)) (0, 0) in
  let t := mkTowerTrek PLAYING EASY 1 0 17 g false in
  ∃ t' out, level_inv t ∧
    handle_event false [] 0 (KEYDOWN K_UP) t = Ok (t', out) ∧
    level_inv t' ∧
    (state t = PLAYING → state t' = LEVEL_COMPLETE →
     18 ≤ moves t' ∧ score t' = score t + 1000 - 10 * moves t' ∧
     score t' ≤ score t + 820) ∧
    (state t = PLAYING → state t' ≠ LEVEL_COMPLETE → score t' = score t).
Proof.
  intros g0 g t. eexists _, _.
  assert (level_inv t) as Hinv.
  { split; [reflexivity |]. intros _. vm_compute. discriminate. }
  split; [exact Hinv |]. split; [vm_compute; reflexivity |].
  eapply (handle_event_score_bound false [] 0%nat (KEYDOWN K_UP) t);
    [exact Hinv | vm_compute; reflexivity].
Defined.

(** ** The path of find_path need not be a shortest one *)

Lemma walk_length_heuristic g a b l :
  walk_to g a l b → heuristic a b ≤ Z.of_nat (length l).
Proof.
  revert a. induction l as [|q l IH]; intros a [Hw Hl].
  - simpl in Hl. inversion Hl; subst. unfold heuristic. simpl. lia.
  - destruct Hw as [Hq Hw]. rewrite last_cons_cons in Hl.
    specialize (IH q (conj Hw Hl)).
    pose proof (heuristic_step g a q b Hq). simpl length. lia.
Qed.

(** C2. The code does not do what the claim says. On the grid that
    [Grid(3, 7, EASY)] builds when the draws put the obstacles at (0, 4),
    (1, 2) and (1, 6), [find_path] from the cell of the pursuer, (2, 6), to
    (1, 1) returns a list of 8 cells, although 6 steps lead there and no walk
    is shorter: the length of the list is not the shortest distance. *)
Theorem find_path_misses_shortest :
  ∃ g, Grid_init 3 7 EASY [0; 4; 1; 2; 1; 6]%nat = Ok g ∧
    ai_pos g = (2, 6) ∧
    is_valid_move g (0, 4) = false ∧ is_valid_move g (1, 2) = false ∧
    is_valid_move g (1, 6) = false ∧ obstacle_count (cells g) = 3 ∧
    is_path_exists g (2, 6) (1, 1) = Ok true ∧
    find_path g (2, 6) (1, 1)
      = Ok [(2, 5); (1, 5); (1, 4); (1, 3); (0, 3); (0, 2); (0, 1); (1, 1)] ∧
    walk_to g (2, 6) [(2, 5); (2, 4); (2, 3); (2, 2); (2, 1); (1, 1)] (1, 1) ∧
    shortest_distance g (2, 6) (1, 1) 6.
Proof.
  eexists. split; [vm_compute; reflexivity |].
  split; [reflexivity |]. split; [vm_compute; reflexivity |].
  split; [vm_compute; reflexivity |]. split; [vm_compute; reflexivity |].
  split; [vm_compute; reflexivity |]. split; [vm_compute; reflexivity |].
  split; [vm_compute; reflexivity |].
  match goal with
  | |- ?W ∧ _ => assert W as Hwalk
  end.
  { split; [| reflexivity]. cbn [walk].
    repeat (split; [apply (bool_decide_unpack _); vm_compute; exact I |]).
    exact I. }
  split; [exact Hwalk |]. split.
  - eexists. split; [exact Hwalk | reflexivity].
  - intros l Hl. apply walk_length_heuristic in Hl.
    change (heuristic (2, 6) (1, 1)) with 6 in Hl. lia.
Qed.

(** ** Construction and the density *)

Lemma Grid_init_with_table w h d draws :
  Grid_init_with obstacle_percentage w h d draws = Grid_init w h d draws.
Proof. reflexivity. Qed.



